(** * JamieCam geometry boundary layer: handle registry, mesh assembly, C API

    A shallow embedding of
      - [src-tauri/cpp/handle_registry_base.h]  (class [HandleRegistryBase]),
      - [src-tauri/cpp/handle_registry.cpp]     (the global registry wrappers),
      - [src-tauri/cpp/cam_geometry.cpp]        (mesh store, mesh assembly and
                                                 the plain-C entry points),
      - [src-tauri/cpp/tests/cam_geometry_stub.cpp]  (the stand-in the unit
                                                 tests are linked against),
    followed by the properties the specification states about them and by
    further properties of the code.

    Conventions of the embedding:
      - [uint64_t] and [uint32_t] values are integers in [Z]; every operation
        the C++ performs in a fixed-width unsigned type is followed by the
        reduction modulo 2^64 resp. 2^32;
      - [double] is the binary64 type [float] of Rocq's kernel, with the
        IEEE 754 operations rounded to nearest (no extended precision, no
        fused multiply-add); equality on it distinguishes the two zeros
        and knows a single NaN;
      - [std::vector<T>] is [list T]; where C++ leaves an access undefined
        (an index outside the vector) the embedded function returns [None];
      - [std::unordered_map<uint64_t, T>] is [gmap Z T];
      - the OCCT geometry kernel is an external collaborator, described by
        the record [Kernel] of its possible answers;
      - one thread is modelled: the locks are left out, and the
        thread-local [g_last_error] is a field of the state.  Allocation
        never fails. *)

From Stdlib Require Import ZArith Lia Bool String PrimFloat.
From stdpp Require Import base option list gmap strings.

Set Warnings "-inexact-float".
Local Open Scope Z_scope.

(** ** Fixed-width integers *)

Definition wrap64 (z : Z) : Z := z mod 2 ^ 64.
Definition wrap32 (z : Z) : Z := z mod 2 ^ 32.
Arguments wrap64 : simpl never.
Arguments wrap32 : simpl never.
Definition INT_MAX : Z := 2 ^ 31 - 1.

(** [#define CG_NULL_ID UINT64_C(0)] *)
Definition CG_NULL_ID : Z := 0.

(** [std::atomic<uint64_t>::fetch_add]: the old value, and the new counter. *)
Definition fetch_add (counter n : Z) : Z * Z := (counter, wrap64 (counter + n)).

(** ** Vectors *)

(** [v[i]] for reading: [None] where C++ is undefined. *)
Definition vec_get {A} (v : list A) (i : Z) : option A :=
  if decide (0 ≤ i) then v !! Z.to_nat i else None.

(** [v[i] = x]. *)
Definition vec_set {A} (v : list A) (i : Z) (x : A) : option (list A) :=
  if decide (0 ≤ i < Z.of_nat (length v)) then Some (<[Z.to_nat i := x]> v)
  else None.

(** [v[i] += x]. *)
Definition vec_add (v : list float) (i : Z) (x : float) : option (list float) :=
  old ← vec_get v i; vec_set v i (old + x)%float.

(** ** Geometry values handed over by the kernel *)

Record gp_Pnt := mk_Pnt { pnt_X : float; pnt_Y : float; pnt_Z : float }.
Record gp_Vec := mk_Vec { vec_X : float; vec_Y : float; vec_Z : float }.

(** [gp_Vec::Crossed]: the cross product, component by component. *)
Definition Crossed (a b : gp_Vec) : gp_Vec :=
  mk_Vec (vec_Y a * vec_Z b - vec_Z a * vec_Y b)%float
         (vec_Z a * vec_X b - vec_X a * vec_Z b)%float
         (vec_X a * vec_Y b - vec_Y a * vec_X b)%float.

(** [TopLoc_Location]: whether it is the identity, and otherwise the action
    of its [gp_Trsf] on a point ([gp_Pnt::Transform]). *)
Record TopLoc_Location := mk_Loc {
  IsIdentity : bool;
  Transformation : gp_Pnt → gp_Pnt
}.

Definition identity_location : TopLoc_Location := mk_Loc true (λ p, p).

(** [Poly_Triangle::Get (n1, n2, n3)]: three 1-based node numbers. *)
Abbreviation Poly_Triangle := (Z * Z * Z)%type.

(** [Poly_Triangulation]: [Node (i)] is [nodes !! (i-1)], [Triangle (t)] is
    [triangles !! (t-1)]. *)
Record Poly_Triangulation := mk_Tri {
  nodes : list gp_Pnt;
  triangles : list Poly_Triangle
}.

Definition NbNodes (tri : Poly_Triangulation) : Z := Z.of_nat (length (nodes tri)).
Definition NbTriangles (tri : Poly_Triangulation) : Z :=
  Z.of_nat (length (triangles tri)).

(** ** Mesh assembly ([cam_geometry.cpp]) *)

(** [struct CgMeshData]. *)
Record CgMeshData := mk_Mesh {
  vertices : list float;  (* 3 doubles per vertex *)
  normals : list float;   (* 3 doubles per vertex *)
  indices : list Z        (* 3 uint32 per triangle *)
}.

(** [std::make_shared<CgMeshData>()]. *)
Definition empty_mesh : CgMeshData := mk_Mesh [] [] [].

(** [base + static_cast<uint32_t>(n - 1)], in [uint32_t]. *)
Definition global_index (base n : Z) : Z := wrap32 (base + wrap32 (n - 1)).

(** The node loop of [append_triangulation]; [i] is the loop counter. *)
Fixpoint copy_nodes (loc : TopLoc_Location) (base i : Z) (ps : list gp_Pnt)
    (vs : list float) : option (list float) :=
  match ps with
  | [] => Some vs
  | p0 :: rest =>
      let p := if negb (IsIdentity loc) then Transformation loc p0 else p0 in
      let vi := global_index base i in
      vs ← vec_set vs (wrap32 (wrap32 (vi * 3) + 0)) (pnt_X p);
      vs ← vec_set vs (wrap32 (wrap32 (vi * 3) + 1)) (pnt_Y p);
      vs ← vec_set vs (wrap32 (wrap32 (vi * 3) + 2)) (pnt_Z p);
      copy_nodes loc base (i + 1) rest vs
  end.

(** The body of [for (int vi : {n1, n2, n3})]. *)
Definition accumulate_normal (base : Z) (fn : gp_Vec) (ns : list float) (vi : Z)
    : option (list float) :=
  let idx := wrap32 (global_index base vi * 3) in
  ns ← vec_add ns (wrap32 (idx + 0)) (vec_X fn);
  ns ← vec_add ns (wrap32 (idx + 1)) (vec_Y fn);
  vec_add ns (wrap32 (idx + 2)) (vec_Z fn).

(** [if (face_reversed) std::swap(n1, n2);] *)
Definition oriented (face_reversed : bool) (t : Poly_Triangle) : Poly_Triangle :=
  let '(n1, n2, n3) := t in
  if face_reversed then (n2, n1, n3) else (n1, n2, n3).

(** The face normal of the triangle whose corners start at the flat
    positions [i1], [i2], [i3] of the vertex buffer. *)
Definition face_normal (vs : list float) (i1 i2 i3 : Z) : option gp_Vec :=
  a0 ← vec_get vs i1; a1 ← vec_get vs (i1 + 1); a2 ← vec_get vs (i1 + 2);
  b0 ← vec_get vs i2; b1 ← vec_get vs (i2 + 1); b2 ← vec_get vs (i2 + 2);
  c0 ← vec_get vs i3; c1 ← vec_get vs (i3 + 1); c2 ← vec_get vs (i3 + 2);
  let e1 := mk_Vec (b0 - a0) (b1 - a1) (b2 - a2) in
  let e2 := mk_Vec (c0 - a0) (c1 - a1) (c2 - a2) in
  Some (Crossed e1 e2).

(** One iteration of the triangle loop of [append_triangulation]. *)
Definition add_triangle (base : Z) (face_reversed : bool) (out : CgMeshData)
    (t : Poly_Triangle) : option CgMeshData :=
  let '(n1, n2, n3) := oriented face_reversed t in
  let idxs := indices out ++ [global_index base n1; global_index base n2;
                              global_index base n3] in
  let i1 := wrap32 (global_index base n1 * 3) in
  let i2 := wrap32 (global_index base n2 * 3) in
  let i3 := wrap32 (global_index base n3 * 3) in
  fn ← face_normal (vertices out) i1 i2 i3;
  ns ← accumulate_normal base fn (normals out) n1;
  ns ← accumulate_normal base fn ns n2;
  ns ← accumulate_normal base fn ns n3;
  Some (mk_Mesh (vertices out) ns idxs).

(** The triangle loop. *)
Fixpoint copy_triangles (base : Z) (face_reversed : bool) (ts : list Poly_Triangle)
    (out : CgMeshData) : option CgMeshData :=
  match ts with
  | [] => Some out
  | t :: rest =>
      out ← add_triangle base face_reversed out t;
      copy_triangles base face_reversed rest out
  end.

(** [append_triangulation (out, tri, loc, face_reversed)].  [nNodes * 3] and
    [nTriangles * 3] are computed in [int]; beyond [INT_MAX] C++ is
    undefined. *)
Definition append_triangulation (out : CgMeshData) (tri : Poly_Triangulation)
    (loc : TopLoc_Location) (face_reversed : bool) : option CgMeshData :=
  let nNodes := NbNodes tri in
  let nTriangles := NbTriangles tri in
  if decide (nNodes * 3 ≤ INT_MAX ∧ nTriangles * 3 ≤ INT_MAX) then
    let base := wrap32 (Z.of_nat (length (vertices out)) / 3) in
    let vs := vertices out ++ replicate (Z.to_nat (nNodes * 3)) 0%float in
    let ns := normals out ++ replicate (Z.to_nat (nNodes * 3)) 0%float in
    vs ← copy_nodes loc base 1 (nodes tri) vs;
    copy_triangles base face_reversed (triangles tri) (mk_Mesh vs ns (indices out))
  else None.

(** The near-zero threshold of [normalize_normals]. *)
Definition normal_threshold : float := 1e-12%float.

(** The body of the loop of [normalize_normals], on one normal. *)
Definition normalize_vec (n : float * float * float) : float * float * float :=
  let '(nx, ny, nz) := n in
  let len := PrimFloat.sqrt (nx * nx + ny * ny + nz * nz)%float in
  if PrimFloat.ltb normal_threshold len then (nx / len, ny / len, nz / len)%float
  else (nx, ny, nz).

(** The loop of [normalize_normals]: [count] iterations are left, [i] is the
    loop counter. *)
Fixpoint normalize_loop (count : nat) (i : Z) (ns : list float)
    : option (list float) :=
  match count with
  | O => Some ns
  | S count' =>
      nx ← vec_get ns (i * 3 + 0);
      ny ← vec_get ns (i * 3 + 1);
      nz ← vec_get ns (i * 3 + 2);
      let len := PrimFloat.sqrt (nx * nx + ny * ny + nz * nz)%float in
      ns ← (if PrimFloat.ltb normal_threshold len then
              ns ← vec_set ns (i * 3 + 0) (nx / len)%float;
              ns ← vec_set ns (i * 3 + 1) (ny / len)%float;
              vec_set ns (i * 3 + 2) (nz / len)%float
            else Some ns);
      normalize_loop count' (i + 1) ns
  end.

(** [normalize_normals (out)]. *)
Definition normalize_normals (out : CgMeshData) : option CgMeshData :=
  let nVerts := Z.of_nat (length (vertices out)) / 3 in
  ns ← normalize_loop (Z.to_nat nVerts) 0 (normals out);
  Some (mk_Mesh (vertices out) ns (indices out)).

(** ** The handle registry ([handle_registry_base.h]) *)

(** What [get_shape] / [get_mesh] deliver: a reference to the stored object,
    or the exception [std::out_of_range]. *)
Inductive lookup_result (A : Type) :=
  | Found (a : A)
  | NotFound (what : string).
Arguments Found {A} a.
Arguments NotFound {A} what.

(** [std::unordered_map::emplace]: nothing happens when the key is present. *)
Definition emplace {V} (id : Z) (v : V) (m : gmap Z V) : gmap Z V :=
  match m !! id with
  | Some _ => m
  | None => <[id := v]> m
  end.

(** [std::unordered_map::erase (key)]: the number of removed entries is
    positive exactly when the key was present. *)
Definition erase {V} (id : Z) (m : gmap Z V) : bool * gmap Z V :=
  (bool_decide (is_Some (m !! id)), delete id m).

Section HandleRegistryBase.
Context {ShapeT MeshT : Type}.

Record HandleRegistryBase := mk_Registry {
  next_id_ : Z;
  shapes_ : gmap Z ShapeT;
  meshes_ : gmap Z MeshT
}.

(** The constructor: [next_id_(1)]. *)
Definition new_registry : HandleRegistryBase := mk_Registry 1 ∅ ∅.

Definition store_shape (shape : ShapeT) (r : HandleRegistryBase)
    : Z * HandleRegistryBase :=
  let '(id, next) := fetch_add (next_id_ r) 1 in
  (id, mk_Registry next (emplace id shape (shapes_ r)) (meshes_ r)).

Definition store_mesh (mesh : MeshT) (r : HandleRegistryBase)
    : Z * HandleRegistryBase :=
  let '(id, next) := fetch_add (next_id_ r) 1 in
  (id, mk_Registry next (shapes_ r) (emplace id mesh (meshes_ r))).

Definition get_shape (id : Z) (r : HandleRegistryBase) : lookup_result ShapeT :=
  match shapes_ r !! id with
  | Some s => Found s
  | None => NotFound "HandleRegistry: invalid shape ID"
  end.

Definition get_mesh (id : Z) (r : HandleRegistryBase) : lookup_result MeshT :=
  match meshes_ r !! id with
  | Some m => Found m
  | None => NotFound "HandleRegistry: invalid mesh ID"
  end.

Definition free_shape (id : Z) (r : HandleRegistryBase)
    : bool * HandleRegistryBase :=
  let '(removed, shapes) := erase id (shapes_ r) in
  (removed, mk_Registry (next_id_ r) shapes (meshes_ r)).

Definition free_mesh (id : Z) (r : HandleRegistryBase)
    : bool * HandleRegistryBase :=
  let '(removed, meshes) := erase id (meshes_ r) in
  (removed, mk_Registry (next_id_ r) (shapes_ r) meshes).

Definition shape_count (r : HandleRegistryBase) : nat := size (shapes_ r).
Definition mesh_count (r : HandleRegistryBase) : nat := size (meshes_ r).

(** A call of the registry's interface, and what it answers. *)
Inductive registry_call :=
  | call_store_shape (shape : ShapeT)
  | call_store_mesh (mesh : MeshT)
  | call_get_shape (id : Z)
  | call_get_mesh (id : Z)
  | call_free_shape (id : Z)
  | call_free_mesh (id : Z).

Inductive registry_answer :=
  | issued (id : Z)
  | shape_ref (s : lookup_result ShapeT)
  | mesh_ref (m : lookup_result MeshT)
  | was_removed (b : bool).

Definition registry_step (c : registry_call) (r : HandleRegistryBase)
    : registry_answer * HandleRegistryBase :=
  match c with
  | call_store_shape s => let '(id, r') := store_shape s r in (issued id, r')
  | call_store_mesh m => let '(id, r') := store_mesh m r in (issued id, r')
  | call_get_shape id => (shape_ref (get_shape id r), r)
  | call_get_mesh id => (mesh_ref (get_mesh id r), r)
  | call_free_shape id => let '(b, r') := free_shape id r in (was_removed b, r')
  | call_free_mesh id => let '(b, r') := free_mesh id r in (was_removed b, r')
  end.

(** A sequence of calls, one after the other: the answers in order, and
    the registry they leave. *)
Fixpoint registry_run (cs : list registry_call) (r : HandleRegistryBase)
    : list registry_answer * HandleRegistryBase :=
  match cs with
  | [] => ([], r)
  | c :: rest =>
      let '(a, r1) := registry_step c r in
      let '(answers, r2) := registry_run rest r1 in
      (a :: answers, r2)
  end.

End HandleRegistryBase.
Arguments HandleRegistryBase : clear implicits.
Arguments registry_call : clear implicits.
Arguments registry_answer : clear implicits.

(** ** The mesh data store ([cam_geometry.cpp], file-local) *)

Record MeshStore := mk_MeshStore {
  g_mesh_store : gmap Z CgMeshData;
  g_mesh_next_id : Z
}.

(** [g_mesh_next_id{1}], an empty [g_mesh_store]. *)
Definition new_mesh_store : MeshStore := mk_MeshStore ∅ 1.

Definition mesh_store_insert (data : CgMeshData) (s : MeshStore) : Z * MeshStore :=
  let '(id, next) := fetch_add (g_mesh_next_id s) 1 in
  (id, mk_MeshStore (emplace id data (g_mesh_store s)) next).

(** [nullptr] is [None]. *)
Definition mesh_store_get (id : Z) (s : MeshStore) : option CgMeshData :=
  g_mesh_store s !! id.

Definition mesh_store_erase (id : Z) (s : MeshStore) : bool * MeshStore :=
  let '(removed, store) := erase id (g_mesh_store s) in
  (removed, mk_MeshStore store (g_mesh_next_id s)).

(** ** The external geometry kernel *)

(** What a call into the kernel can raise, as the [catch] clauses of
    [cam_geometry.cpp] tell the cases apart. *)
Inductive failure :=
  | Standard_Failure (message : string)
  | std_out_of_range (what : string)
  | std_exception (what : string)
  | unknown_exception.

Inductive outcome (A : Type) :=
  | Returns (a : A)
  | Throws (e : failure).
Arguments Returns {A} a.
Arguments Throws {A} e.

Inductive TopAbs_Orientation :=
  TopAbs_FORWARD | TopAbs_REVERSED | TopAbs_INTERNAL | TopAbs_EXTERNAL.

Global Instance TopAbs_Orientation_eq_dec : EqDecision TopAbs_Orientation.
Proof. solve_decision. Defined.

(** A face as [cg_shape_tessellate] looks at it: what
    [BRep_Tool::Triangulation (face, loc)] delivers ([None]: a null handle)
    and [face.Orientation ()]. *)
Record TopoDS_Face := mk_Face {
  face_triangulation : option (Poly_Triangulation * TopLoc_Location);
  face_orientation : TopAbs_Orientation
}.

(** [typedef struct { double xmin, ymin, zmin, xmax, ymax, zmax; } CgBbox] *)
Record CgBbox := mk_Bbox {
  xmin : float; ymin : float; zmin : float;
  xmax : float; ymax : float; zmax : float
}.

(** The answers of the kernel.  Each field stands for the OCCT calls named in
    its comment; the answer depends on the arguments only. *)
Record Kernel (TopoDS_Shape : Type) := mk_Kernel {
  (* STEPControl_Reader::ReadFile: is the status IFSelect_RetDone? *)
  STEP_ReadFile : string → outcome bool;
  (* STEPControl_Reader::TransferRoots: the number of roots *)
  STEP_TransferRoots : string → outcome Z;
  (* STEPControl_Reader::OneShape, then ShapeFix_Shape::Perform and Shape *)
  STEP_OneShape_healed : string → outcome TopoDS_Shape;
  (* RWStl::ReadFile; None is a null handle *)
  RWStl_ReadFile : string → outcome (option Poly_Triangulation);
  (* BRepBndLib::AddOptimal and Bnd_Box::Get; None is a void box *)
  BRepBndLib_AddOptimal : TopoDS_Shape → outcome (option CgBbox);
  (* BRepMesh_IncrementalMesh (shape, chord_tol, false, angle_tol, true),
     then IsDone *)
  BRepMesh_IncrementalMesh : TopoDS_Shape → float → float → outcome bool;
  (* TopExp_Explorer (shape, TopAbs_FACE) over the meshed shape, with
     BRep_Tool::Triangulation and Orientation of every face *)
  TopExp_Explorer_faces : TopoDS_Shape → float → float → outcome (list TopoDS_Face)
}.
Arguments STEP_ReadFile {_} _ _.
Arguments STEP_TransferRoots {_} _ _.
Arguments STEP_OneShape_healed {_} _ _.
Arguments RWStl_ReadFile {_} _ _.
Arguments BRepBndLib_AddOptimal {_} _ _.
Arguments BRepMesh_IncrementalMesh {_} _ _ _ _.
Arguments TopExp_Explorer_faces {_} _ _ _ _.

(** The kernel's entry points, for the log of calls into it. *)
Inductive kernel_call :=
  | into_STEPControl_Reader
  | into_RWStl
  | into_BRepBndLib
  | into_BRepMesh.

(** ** The C API ([cam_geometry.h], [cam_geometry.cpp]) *)

Inductive CgError :=
  | CG_OK
  | CG_ERR_FILE_NOT_FOUND
  | CG_ERR_PARSE_FAILED
  | CG_ERR_NULL_HANDLE
  | CG_ERR_INVALID_ARG
  | CG_ERR_OCCT_EXCEPTION
  | CG_ERR_NO_RESULT.

(** [using OcctMeshHandle = opencascade::handle<Poly_Triangulation>]. *)
Definition OcctMeshHandle : Type := option Poly_Triangulation.

(** The merge loop of [cg_shape_tessellate] over the faces of the shape. *)
Fixpoint merge_faces (faces : list TopoDS_Face) (data : CgMeshData)
    : option CgMeshData :=
  match faces with
  | [] => Some data
  | face :: rest =>
      match face_triangulation face with
      | None => merge_faces rest data          (* tri.IsNull (): continue *)
      | Some (tri, loc) =>
          let reversed := bool_decide (face_orientation face = TopAbs_REVERSED) in
          data ← append_triangulation data tri loc reversed;
          merge_faces rest data
      end
  end.

(** A pointer argument is [None] when it is null. *)
Definition is_null {A} (p : option A) : bool :=
  match p with None => true | Some _ => false end.

(** [std::memcpy (dst, src.data (), src.size () * sizeof (T))] into a
    caller's buffer of [length dst] elements: undefined when the buffer is
    too short. *)
Definition memcpy {A} (dst src : list A) : option (list A) :=
  if decide (length src ≤ length dst)%nat then Some (src ++ drop (length src) dst)
  else None.

Section CApi.
Context {TopoDS_Shape : Type} (K : Kernel TopoDS_Shape).

(** The state behind the API, as one thread sees it: the global registry
    of [handle_registry.cpp], the mesh data store, the thread's
    [g_last_error], and the calls made into the kernel so far (latest
    first). *)
Record World := mk_World {
  registry : HandleRegistryBase TopoDS_Shape OcctMeshHandle;
  mesh_store : MeshStore;
  g_last_error : string;
  kernel_calls : list kernel_call
}.

(** The state of a fresh process (and thread). *)
Definition initial_world : World :=
  mk_World new_registry new_mesh_store "" [].

Definition set_last_error (msg : string) (w : World) : World :=
  mk_World (registry w) (mesh_store w) msg (kernel_calls w).

Definition enter_kernel (c : kernel_call) (w : World) : World :=
  mk_World (registry w) (mesh_store w) (g_last_error w) (c :: kernel_calls w).

Definition with_registry (r : HandleRegistryBase TopoDS_Shape OcctMeshHandle)
    (w : World) : World :=
  mk_World r (mesh_store w) (g_last_error w) (kernel_calls w).

Definition with_mesh_store (s : MeshStore) (w : World) : World :=
  mk_World (registry w) s (g_last_error w) (kernel_calls w).

(** [handle_registry.cpp]: the wrappers around the global registry. *)
Definition registry_store_shape (shape : TopoDS_Shape) (w : World) : Z * World :=
  let '(id, r) := store_shape shape (registry w) in (id, with_registry r w).

Definition registry_get_shape (id : Z) (w : World) : lookup_result TopoDS_Shape :=
  get_shape id (registry w).

Definition registry_free_shape (id : Z) (w : World) : World :=
  with_registry (free_shape id (registry w)).2 w.

Definition registry_store_mesh (mesh : OcctMeshHandle) (w : World) : Z * World :=
  let '(id, r) := store_mesh mesh (registry w) in (id, with_registry r w).

Definition registry_get_mesh (id : Z) (w : World) : lookup_result OcctMeshHandle :=
  get_mesh id (registry w).

Definition registry_free_mesh (id : Z) (w : World) : World :=
  with_registry (free_mesh id (registry w)).2 w.

Definition cg_last_error_message (w : World) : string := g_last_error w.

(** The [catch] clauses of [cg_load_step]. *)
Definition step_catch (e : failure) : string :=
  match e with
  | Standard_Failure m => "STEP exception: " +:+ m
  | std_out_of_range m | std_exception m => "STEP std::exception: " +:+ m
  | unknown_exception => "STEP: unknown exception"
  end.

(** [cg_load_step (path)]; a null [path] is [None]. *)
Definition cg_load_step (path : option string) (w : World) : Z * World :=
  match path with
  | None => (CG_NULL_ID, set_last_error "cg_load_step: null path" w)
  | Some path =>
      let w := enter_kernel into_STEPControl_Reader w in
      match STEP_ReadFile K path with
      | Throws e => (CG_NULL_ID, set_last_error (step_catch e) w)
      | Returns false =>
          (CG_NULL_ID,
           set_last_error ("STEP: failed to read '" +:+ path +:+ "'") w)
      | Returns true =>
          match STEP_TransferRoots K path with
          | Throws e => (CG_NULL_ID, set_last_error (step_catch e) w)
          | Returns nRoots =>
              if decide (nRoots = 0) then
                (CG_NULL_ID,
                 set_last_error "STEP: no transferable roots found" w)
              else
                match STEP_OneShape_healed K path with
                | Throws e => (CG_NULL_ID, set_last_error (step_catch e) w)
                | Returns healed => registry_store_shape healed w
                end
          end
      end
  end.

Definition cg_load_iges (path : option string) (w : World) : Z * World :=
  (CG_NULL_ID, set_last_error "not implemented" w).

(** The [catch] clauses of [cg_load_stl]. *)
Definition stl_catch (e : failure) : string :=
  match e with
  | Standard_Failure m => "STL exception: " +:+ m
  | std_out_of_range m | std_exception m => "STL std::exception: " +:+ m
  | unknown_exception => "STL: unknown exception"
  end.

(** [cg_load_stl (path)].  [None]: the call is undefined in C++ (inside
    [append_triangulation] or [normalize_normals]). *)
Definition cg_load_stl (path : option string) (w : World) : option (Z * World) :=
  match path with
  | None => Some (CG_NULL_ID, set_last_error "cg_load_stl: null path" w)
  | Some path =>
      let w := enter_kernel into_RWStl w in
      match RWStl_ReadFile K path with
      | Throws e => Some (CG_NULL_ID, set_last_error (stl_catch e) w)
      | Returns None =>
          Some (CG_NULL_ID,
                set_last_error ("STL: failed to read '" +:+ path +:+ "'") w)
      | Returns (Some tri) =>
          data ← append_triangulation empty_mesh tri identity_location false;
          data ← normalize_normals data;
          let '(id, s) := mesh_store_insert data (mesh_store w) in
          Some (id, with_mesh_store s w)
      end
  end.

Definition cg_shape_free (id : Z) (w : World) : World :=
  if decide (id = CG_NULL_ID) then w else registry_free_shape id w.

Definition cg_shape_heal (id : Z) (w : World) : Z * World :=
  (CG_NULL_ID, set_last_error "not implemented" w).

Definition zero_bbox : CgBbox := mk_Bbox 0 0 0 0 0 0.

Definition cg_shape_bounding_box (id : Z) (w : World) : CgBbox * World :=
  let result := zero_bbox in
  if decide (id = CG_NULL_ID) then
    (result, set_last_error "cg_shape_bounding_box: null handle" w)
  else
    match registry_get_shape id w with
    | NotFound _ =>
        (result, set_last_error "cg_shape_bounding_box: invalid shape ID" w)
    | Found shape =>
        let w := enter_kernel into_BRepBndLib w in
        match BRepBndLib_AddOptimal K shape with
        | Returns None =>
            (result, set_last_error "cg_shape_bounding_box: empty/void shape" w)
        | Returns (Some box) => (box, w)
        | Throws (std_out_of_range _) =>
            (result, set_last_error "cg_shape_bounding_box: invalid shape ID" w)
        | Throws (Standard_Failure m) =>
            (result, set_last_error ("BBox exception: " +:+ m) w)
        | Throws _ => (result, set_last_error "BBox: unknown exception" w)
        end
    end.

Definition cg_face_free (id : Z) (w : World) : World :=
  if decide (id = CG_NULL_ID) then w else registry_free_shape id w.

Definition cg_edge_free (id : Z) (w : World) : World :=
  if decide (id = CG_NULL_ID) then w else registry_free_shape id w.

(** The [catch] clauses of [cg_shape_tessellate]. *)
Definition tessellate_catch (e : failure) : string :=
  match e with
  | std_out_of_range _ => "cg_shape_tessellate: invalid shape ID"
  | Standard_Failure m => "Tessellate exception: " +:+ m
  | std_exception _ | unknown_exception => "Tessellate: unknown exception"
  end.

(** [cg_shape_tessellate (id, chord_tol, angle_tol)].  [None]: the call is
    undefined in C++ (inside [append_triangulation] or
    [normalize_normals]). *)
Definition cg_shape_tessellate (id : Z) (chord_tol angle_tol : float) (w : World)
    : option (Z * World) :=
  if decide (id = CG_NULL_ID) then
    Some (CG_NULL_ID, set_last_error "cg_shape_tessellate: null handle" w)
  else
    match registry_get_shape id w with
    | NotFound what =>
        Some (CG_NULL_ID, set_last_error (tessellate_catch (std_out_of_range what)) w)
    | Found shape =>
        let w := enter_kernel into_BRepMesh w in
        match BRepMesh_IncrementalMesh K shape chord_tol angle_tol with
        | Throws e => Some (CG_NULL_ID, set_last_error (tessellate_catch e) w)
        | Returns false =>
            Some (CG_NULL_ID,
                  set_last_error "cg_shape_tessellate: mesher did not complete" w)
        | Returns true =>
            match TopExp_Explorer_faces K shape chord_tol angle_tol with
            | Throws e => Some (CG_NULL_ID, set_last_error (tessellate_catch e) w)
            | Returns faces =>
                data ← merge_faces faces empty_mesh;
                if decide (indices data = []) then
                  Some (CG_NULL_ID,
                        set_last_error "cg_shape_tessellate: no triangles produced" w)
                else
                  data ← normalize_normals data;
                  let '(id, s) := mesh_store_insert data (mesh_store w) in
                  Some (id, with_mesh_store s w)
            end
        end
    end.

Definition cg_mesh_vertex_count (id : Z) (w : World) : Z * World :=
  if decide (id = CG_NULL_ID) then (0, w)
  else match mesh_store_get id (mesh_store w) with
       | None => (0, w)
       | Some mesh => (Z.of_nat (length (vertices mesh)) / 3, w)
       end.

Definition cg_mesh_triangle_count (id : Z) (w : World) : Z * World :=
  if decide (id = CG_NULL_ID) then (0, w)
  else match mesh_store_get id (mesh_store w) with
       | None => (0, w)
       | Some mesh => (Z.of_nat (length (indices mesh)) / 3, w)
       end.

(** The three copy functions.  The destination is [None] for a null
    pointer and the caller's buffer otherwise; the answer holds the
    status, the buffer after the call, and the state.  [None]: the call is
    undefined in C++. *)
Definition cg_mesh_copy_vertices (id : Z) (out_vertices : option (list float))
    (w : World) : option (CgError * option (list float) * World) :=
  if bool_decide (id = CG_NULL_ID) || is_null out_vertices then
    Some (CG_ERR_NULL_HANDLE, out_vertices,
          set_last_error "cg_mesh_copy_vertices: null argument" w)
  else
    match mesh_store_get id (mesh_store w) with
    | None =>
        Some (CG_ERR_NULL_HANDLE, out_vertices,
              set_last_error "cg_mesh_copy_vertices: invalid mesh ID" w)
    | Some mesh =>
        dst ← out_vertices;
        dst ← memcpy dst (vertices mesh);
        Some (CG_OK, Some dst, w)
    end.

Definition cg_mesh_copy_normals (id : Z) (out_normals : option (list float))
    (w : World) : option (CgError * option (list float) * World) :=
  if bool_decide (id = CG_NULL_ID) || is_null out_normals then
    Some (CG_ERR_NULL_HANDLE, out_normals,
          set_last_error "cg_mesh_copy_normals: null argument" w)
  else
    match mesh_store_get id (mesh_store w) with
    | None =>
        Some (CG_ERR_NULL_HANDLE, out_normals,
              set_last_error "cg_mesh_copy_normals: invalid mesh ID" w)
    | Some mesh =>
        dst ← out_normals;
        dst ← memcpy dst (normals mesh);
        Some (CG_OK, Some dst, w)
    end.

Definition cg_mesh_copy_indices (id : Z) (out_indices : option (list Z))
    (w : World) : option (CgError * option (list Z) * World) :=
  if bool_decide (id = CG_NULL_ID) || is_null out_indices then
    Some (CG_ERR_NULL_HANDLE, out_indices,
          set_last_error "cg_mesh_copy_indices: null argument" w)
  else
    match mesh_store_get id (mesh_store w) with
    | None =>
        Some (CG_ERR_NULL_HANDLE, out_indices,
              set_last_error "cg_mesh_copy_indices: invalid mesh ID" w)
    | Some mesh =>
        dst ← out_indices;
        dst ← memcpy dst (indices mesh);
        Some (CG_OK, Some dst, w)
    end.

Definition cg_mesh_free (id : Z) (w : World) : World :=
  if decide (id = CG_NULL_ID) then w
  else with_mesh_store (mesh_store_erase id (mesh_store w)).2 w.

(** The entry points that are stubs in this phase.  Each one ignores its
    arguments, calls [set_last_error ("not implemented")] and returns the
    value below; an output pointer that is not null receives [nullptr] or
    [0] in the caller's memory, which is no part of [World]. *)
Inductive stub_entry :=
  | cg_shape_faces | cg_shape_edges
  | cg_face_surface_type | cg_face_uv_bounds | cg_face_eval_point
  | cg_face_eval_normal | cg_face_eval_du | cg_face_eval_dv
  | cg_face_project_point | cg_face_plane | cg_face_cylinder
  | cg_edge_param_range | cg_edge_eval_point | cg_edge_eval_tangent
  | cg_edge_length | cg_edge_is_circle
  | cg_shape_distance | cg_shape_section_at_z
  | cg_shape_find_holes | cg_shape_find_planar_faces
  | cg_poly_offset | cg_poly_boolean.

Inductive stub_value :=
  | count_value (n : Z)
  | status_value (e : CgError)
  | surface_other
  | zero_struct
  | double_value (d : float)
  | int_value (n : Z)
  | no_value.

Definition stub_returns (s : stub_entry) : stub_value :=
  match s with
  | cg_shape_faces | cg_shape_edges
  | cg_shape_find_holes | cg_shape_find_planar_faces => count_value 0
  | cg_face_surface_type => surface_other
  | cg_face_uv_bounds | cg_face_eval_point | cg_face_eval_normal
  | cg_face_eval_du | cg_face_eval_dv | cg_face_project_point
  | cg_edge_eval_point | cg_edge_eval_tangent => zero_struct
  | cg_face_plane | cg_face_cylinder | cg_shape_section_at_z
  | cg_poly_offset | cg_poly_boolean => status_value CG_ERR_NO_RESULT
  | cg_edge_param_range => no_value
  | cg_edge_length => double_value 0
  | cg_edge_is_circle => int_value 0
  | cg_shape_distance => double_value (-1)
  end.

Definition cg_stub (s : stub_entry) (w : World) : stub_value * World :=
  (stub_returns s, set_last_error "not implemented" w).

End CApi.
Arguments World : clear implicits.

(** ** Sequences of calls of the C API *)

(** A call of an entry point of [cam_geometry.h], with its arguments. *)
Inductive api_call :=
  | call_cg_last_error_message
  | call_cg_load_step (path : option string)
  | call_cg_load_iges (path : option string)
  | call_cg_load_stl (path : option string)
  | call_cg_shape_free (id : Z)
  | call_cg_shape_heal (id : Z)
  | call_cg_shape_bounding_box (id : Z)
  | call_cg_face_free (id : Z)
  | call_cg_edge_free (id : Z)
  | call_cg_shape_tessellate (id : Z) (chord_tol angle_tol : float)
  | call_cg_mesh_vertex_count (id : Z)
  | call_cg_mesh_triangle_count (id : Z)
  | call_cg_mesh_copy_vertices (id : Z) (out_vertices : option (list float))
  | call_cg_mesh_copy_normals (id : Z) (out_normals : option (list float))
  | call_cg_mesh_copy_indices (id : Z) (out_indices : option (list Z))
  | call_cg_mesh_free (id : Z)
  | call_cg_stub (entry : stub_entry).

(** What the caller sees of a call: the returned value and, for the copy
    functions, the destination buffer after the call. *)
Inductive api_answer :=
  | message_answer (msg : string)
  | handle_answer (id : Z)
  | void_answer
  | bbox_answer (box : CgBbox)
  | size_answer (n : Z)
  | doubles_answer (status : CgError) (out : option (list float))
  | indices_answer (status : CgError) (out : option (list Z))
  | stub_answer (v : stub_value).

Section ApiRuns.
Context {TopoDS_Shape : Type} (K : Kernel TopoDS_Shape).

(** One call on the state behind the API.  [None]: the call is undefined
    in C++. *)
Definition api_step (c : api_call) (w : World TopoDS_Shape)
    : option (api_answer * World TopoDS_Shape) :=
  match c with
  | call_cg_last_error_message => Some (message_answer (cg_last_error_message w), w)
  | call_cg_load_step path =>
      let '(id, w') := cg_load_step K path w in Some (handle_answer id, w')
  | call_cg_load_iges path =>
      let '(id, w') := cg_load_iges path w in Some (handle_answer id, w')
  | call_cg_load_stl path =>
      '(id, w') ← cg_load_stl K path w; Some (handle_answer id, w')
  | call_cg_shape_free id => Some (void_answer, cg_shape_free id w)
  | call_cg_shape_heal id =>
      let '(id', w') := cg_shape_heal id w in Some (handle_answer id', w')
  | call_cg_shape_bounding_box id =>
      let '(box, w') := cg_shape_bounding_box K id w in Some (bbox_answer box, w')
  | call_cg_face_free id => Some (void_answer, cg_face_free id w)
  | call_cg_edge_free id => Some (void_answer, cg_edge_free id w)
  | call_cg_shape_tessellate id chord_tol angle_tol =>
      '(id', w') ← cg_shape_tessellate K id chord_tol angle_tol w;
      Some (handle_answer id', w')
  | call_cg_mesh_vertex_count id =>
      let '(n, w') := cg_mesh_vertex_count id w in Some (size_answer n, w')
  | call_cg_mesh_triangle_count id =>
      let '(n, w') := cg_mesh_triangle_count id w in Some (size_answer n, w')
  | call_cg_mesh_copy_vertices id out =>
      '(e, out', w') ← cg_mesh_copy_vertices id out w;
      Some (doubles_answer e out', w')
  | call_cg_mesh_copy_normals id out =>
      '(e, out', w') ← cg_mesh_copy_normals id out w;
      Some (doubles_answer e out', w')
  | call_cg_mesh_copy_indices id out =>
      '(e, out', w') ← cg_mesh_copy_indices id out w;
      Some (indices_answer e out', w')
  | call_cg_mesh_free id => Some (void_answer, cg_mesh_free id w)
  | call_cg_stub entry =>
      let '(v, w') := cg_stub entry w in Some (stub_answer v, w')
  end.

(** A sequence of calls, one after the other: the answers in order, and
    the state they leave. *)
Fixpoint api_run (cs : list api_call) (w : World TopoDS_Shape)
    : option (list api_answer * World TopoDS_Shape) :=
  match cs with
  | [] => Some ([], w)
  | c :: rest =>
      '(a, w1) ← api_step c w;
      '(answers, w2) ← api_run rest w1;
      Some (a :: answers, w2)
  end.

End ApiRuns.

(** ** The stand-in implementation ([tests/cam_geometry_stub.cpp])

    The implementation of [cam_geometry.h] the unit tests of the API are
    linked against.  Its only state is the thread-local [g_stub_last_error];
    every function takes that string and returns it with its answer. *)
Module Stub.

(** [g_stub_last_error = msg ? msg : ""]; a null [msg] is [None]. *)
Definition set_error (msg : option string) (g_stub_last_error : string) : string :=
  match msg with Some msg => msg | None => "" end.

Definition cg_last_error_message (g_stub_last_error : string) : string :=
  g_stub_last_error.

Definition cg_load_step (path : option string) (e : string) : Z * string :=
  match path with
  | None => (CG_NULL_ID, set_error (Some "cg_load_step: null path") e)
  | Some _ => (CG_NULL_ID, set_error (Some "OCCT not available in stub") e)
  end.

Definition cg_load_iges (path : option string) (e : string) : Z * string :=
  (CG_NULL_ID, set_error (Some "not implemented") e).

Definition cg_load_stl (path : option string) (e : string) : Z * string :=
  match path with
  | None => (CG_NULL_ID, set_error (Some "cg_load_stl: null path") e)
  | Some _ => (CG_NULL_ID, set_error (Some "OCCT not available in stub") e)
  end.

Definition cg_shape_free (id : Z) (e : string) : string := e.

Definition cg_shape_heal (id : Z) (e : string) : Z * string :=
  (CG_NULL_ID, set_error (Some "not implemented") e).

Definition cg_shape_bounding_box (id : Z) (e : string) : CgBbox * string :=
  let e := if decide (id = CG_NULL_ID)
           then set_error (Some "cg_shape_bounding_box: null handle") e
           else set_error (Some "not implemented") e in
  (mk_Bbox 0 0 0 0 0 0, e).

Definition cg_face_free (id : Z) (e : string) : string := e.
Definition cg_edge_free (id : Z) (e : string) : string := e.

Definition cg_shape_tessellate (id : Z) (c a : float) (e : string) : Z * string :=
  if decide (id = CG_NULL_ID)
  then (CG_NULL_ID, set_error (Some "cg_shape_tessellate: null handle") e)
  else (CG_NULL_ID, set_error (Some "not implemented") e).

Definition cg_mesh_vertex_count (id : Z) (e : string) : Z * string := (0, e).
Definition cg_mesh_triangle_count (id : Z) (e : string) : Z * string := (0, e).

Definition cg_mesh_copy_vertices (id : Z) (out : option (list float)) (e : string)
    : CgError * option (list float) * string :=
  if decide (id = CG_NULL_ID)
  then (CG_ERR_NULL_HANDLE, out, set_error (Some "null handle") e)
  else (CG_ERR_NULL_HANDLE, out, set_error (Some "not implemented") e).

Definition cg_mesh_copy_normals (id : Z) (out : option (list float)) (e : string)
    : CgError * option (list float) * string :=
  if decide (id = CG_NULL_ID)
  then (CG_ERR_NULL_HANDLE, out, set_error (Some "null handle") e)
  else (CG_ERR_NULL_HANDLE, out, set_error (Some "not implemented") e).

Definition cg_mesh_copy_indices (id : Z) (out : option (list Z)) (e : string)
    : CgError * option (list Z) * string :=
  if decide (id = CG_NULL_ID)
  then (CG_ERR_NULL_HANDLE, out, set_error (Some "null handle") e)
  else (CG_ERR_NULL_HANDLE, out, set_error (Some "not implemented") e).

Definition cg_mesh_free (id : Z) (e : string) : string := e.

(** The remaining entry points: as in [cam_geometry.cpp], each sets
    ["not implemented"], returns the value [stub_returns] lists and writes
    [nullptr] or [0] through an output pointer that is not null. *)
Definition cg_stub (s : stub_entry) (e : string) : stub_value * string :=
  (stub_returns s, set_error (Some "not implemented") e).

Definition step (c : api_call) (e : string) : api_answer * string :=
  match c with
  | call_cg_last_error_message => (message_answer (cg_last_error_message e), e)
  | call_cg_load_step path =>
      let '(id, e') := cg_load_step path e in (handle_answer id, e')
  | call_cg_load_iges path =>
      let '(id, e') := cg_load_iges path e in (handle_answer id, e')
  | call_cg_load_stl path =>
      let '(id, e') := cg_load_stl path e in (handle_answer id, e')
  | call_cg_shape_free id => (void_answer, cg_shape_free id e)
  | call_cg_shape_heal id =>
      let '(id', e') := cg_shape_heal id e in (handle_answer id', e')
  | call_cg_shape_bounding_box id =>
      let '(box, e') := cg_shape_bounding_box id e in (bbox_answer box, e')
  | call_cg_face_free id => (void_answer, cg_face_free id e)
  | call_cg_edge_free id => (void_answer, cg_edge_free id e)
  | call_cg_shape_tessellate id chord_tol angle_tol =>
      let '(id', e') := cg_shape_tessellate id chord_tol angle_tol e in
      (handle_answer id', e')
  | call_cg_mesh_vertex_count id =>
      let '(n, e') := cg_mesh_vertex_count id e in (size_answer n, e')
  | call_cg_mesh_triangle_count id =>
      let '(n, e') := cg_mesh_triangle_count id e in (size_answer n, e')
  | call_cg_mesh_copy_vertices id out =>
      let '(s, out', e') := cg_mesh_copy_vertices id out e in
      (doubles_answer s out', e')
  | call_cg_mesh_copy_normals id out =>
      let '(s, out', e') := cg_mesh_copy_normals id out e in
      (doubles_answer s out', e')
  | call_cg_mesh_copy_indices id out =>
      let '(s, out', e') := cg_mesh_copy_indices id out e in
      (indices_answer s out', e')
  | call_cg_mesh_free id => (void_answer, cg_mesh_free id e)
  | call_cg_stub entry =>
      let '(v, e') := cg_stub entry e in (stub_answer v, e')
  end.

Fixpoint run (cs : list api_call) (e : string) : list api_answer * string :=
  match cs with
  | [] => ([], e)
  | c :: rest =>
      let '(a, e1) := step c e in
      let '(answers, e2) := run rest e1 in
      (a :: answers, e2)
  end.

End Stub.

(** ** Notions the properties are stated with *)

(** *** Buffers of triples *)

(** A vertex position or normal: three doubles; an emitted triangle: three
    indices. *)
Abbreviation vec3 := (float * float * float)%type.
Abbreviation index_triple := (Z * Z * Z)%type.

(** The flat layout [x0, y0, z0, x1, y1, z1, ...] of a list of triples, and
    its inverse on lists whose length is a multiple of three. *)
Definition flat3 {A} (cs : list (A * A * A)) : list A :=
  flat_map (λ '(x, y, z), [x; y; z]) cs.

Fixpoint triples {A} (l : list A) : list (A * A * A) :=
  match l with
  | x :: y :: z :: rest => (x, y, z) :: triples rest
  | _ => []
  end.

(** Entry [v] of a flat buffer, read as the C++ does: slots [3 v], [3 v + 1],
    [3 v + 2]. *)
Definition triple_at {A} (l : list A) (v : Z) : option (A * A * A) :=
  x ← vec_get l (3 * v + 0); y ← vec_get l (3 * v + 1); z ← vec_get l (3 * v + 2);
  Some (x, y, z).

Definition set_x {A} (v : A) (c : A * A * A) : A * A * A := (v, c.1.2, c.2).
Definition set_y {A} (v : A) (c : A * A * A) : A * A * A := (c.1.1, v, c.2).
Definition set_z {A} (v : A) (c : A * A * A) : A * A * A := (c.1.1, c.1.2, v).

(** [cg_mesh_vertex_count] and [cg_mesh_triangle_count] on a buffer. *)
Definition vertex_count (m : CgMeshData) : Z := Z.of_nat (length (vertices m)) / 3.
Definition triangle_count (m : CgMeshData) : Z := Z.of_nat (length (indices m)) / 3.

(** A buffer with [V] vertices and [T] triangles. *)
Definition mesh_shape (V T : nat) (m : CgMeshData) : Prop :=
  length (vertices m) = (3 * V)%nat ∧ length (normals m) = (3 * V)%nat ∧
  length (indices m) = (3 * T)%nat.

(** *** Patches *)

(** The world position of a node: the location applied unless it is the
    identity. *)
Definition place (loc : TopLoc_Location) (p0 : gp_Pnt) : vec3 :=
  let p := if negb (IsIdentity loc) then Transformation loc p0 else p0 in
  (pnt_X p, pnt_Y p, pnt_Z p).

(** Node numbers are 1-based and lie within the triangulation's nodes. *)
Definition node_ok (tri : Poly_Triangulation) (n : Z) : Prop := 1 ≤ n ≤ NbNodes tri.

Definition triangle_ok (tri : Poly_Triangulation) (t : Poly_Triangle) : Prop :=
  node_ok tri t.1.1 ∧ node_ok tri t.1.2 ∧ node_ok tri t.2.

(** A triangulation fits behind [V] merged vertices when the [int] and
    [uint32_t] computations of [append_triangulation] stay in range and
    every triangle refers to nodes of the triangulation. *)
Definition tri_fits (V : Z) (tri : Poly_Triangulation) : Prop :=
  NbNodes tri * 3 ≤ INT_MAX ∧ NbTriangles tri * 3 ≤ INT_MAX ∧
  3 * (V + NbNodes tri) ≤ 2 ^ 32 ∧
  Forall (triangle_ok tri) (triangles tri).

(** The faces of a shape fit, one after the other, behind [V] vertices. *)
Fixpoint faces_fit (V : Z) (faces : list TopoDS_Face) : Prop :=
  match faces with
  | [] => True
  | face :: rest =>
      match face_triangulation face with
      | None => faces_fit V rest
      | Some (tri, _) => tri_fits V tri ∧ faces_fit (V + NbNodes tri) rest
      end
  end.

(** The index triple a triangle is emitted as, without wrap-around. *)
Definition emitted (base : Z) (face_reversed : bool) (t : Poly_Triangle)
    : index_triple :=
  let '(n1, n2, n3) := oriented face_reversed t in
  (base + n1 - 1, base + n2 - 1, base + n3 - 1).

(** *** Accumulated normals *)

Definition zero_vec : gp_Vec := mk_Vec 0 0 0.

Definition vadd (fn : gp_Vec) (c : vec3) : vec3 :=
  (c.1.1 + vec_X fn, c.1.2 + vec_Y fn, c.2 + vec_Z fn)%float.

(** The cross product of the two edges leaving corner [a]. *)
Definition corner_normal (a b c : vec3) : gp_Vec :=
  Crossed (mk_Vec (b.1.1 - a.1.1) (b.1.2 - a.1.2) (b.2 - a.2))
          (mk_Vec (c.1.1 - a.1.1) (c.1.2 - a.1.2) (c.2 - a.2)).

(** The face normal of an emitted triangle, from the vertex buffer. *)
Definition face_normal_of (vs : list float) (t : index_triple) : gp_Vec :=
  default zero_vec (face_normal vs (3 * t.1.1) (3 * t.1.2) (3 * t.2)).

(** One triangle's contribution to the normals of all vertices. *)
Definition bump (vs : list float) (ns : list vec3) (t : index_triple) : list vec3 :=
  let fn := face_normal_of vs t in
  alter (vadd fn) (Z.to_nat t.2)
    (alter (vadd fn) (Z.to_nat t.1.2) (alter (vadd fn) (Z.to_nat t.1.1) ns)).

(** One triangle's contribution to the normal of vertex [v]: its face normal
    is added once for each corner that is [v], in the order of the corners. *)
Definition touch (v : Z) (fn : gp_Vec) (g : Z) (acc : vec3) : vec3 :=
  if decide (g = v) then vadd fn acc else acc.

Definition accumulate_step (vs : list float) (v : Z) (acc : vec3)
    (t : index_triple) : vec3 :=
  let fn := face_normal_of vs t in
  touch v fn t.2 (touch v fn t.1.2 (touch v fn t.1.1 acc)).

(** The sum, in the order of the triangles, of the face normals of the
    triangles touching vertex [v], starting from the zero vector. *)
Definition accumulated_normal (vs : list float) (ts : list index_triple) (v : Z)
    : vec3 :=
  foldl (accumulate_step vs v) (0, 0, 0)%float ts.

Definition triple_below (n : Z) (t : index_triple) : Prop :=
  (0 ≤ t.1.1 < n) ∧ (0 ≤ t.1.2 < n) ∧ (0 ≤ t.2 < n).

(** What mesh assembly maintains: as many normals as vertices, triangles
    that refer to vertices, and every normal the accumulated sum of its
    vertex. *)
Definition assembled (m : CgMeshData) : Prop :=
  ∃ (ps ns : list vec3) (gts : list index_triple),
    m = mk_Mesh (flat3 ps) (flat3 ns) (flat3 gts) ∧
    length ns = length ps ∧
    Forall (triple_below (Z.of_nat (length ps))) gts ∧
    ∀ (v : nat) c, ns !! v = Some c →
      c = accumulated_normal (flat3 ps) gts (Z.of_nat v).

(** *** The invariant of the mesh buffer *)

(** The triangles of a face refer to nodes of its triangulation. *)
Definition face_nodes_ok (face : TopoDS_Face) : Prop :=
  match face_triangulation face with
  | None => True
  | Some (tri, _) => Forall (triangle_ok tri) (triangles tri)
  end.

(** The invariant of the mesh buffer. *)
Definition same_vertex_count (m : CgMeshData) : Prop :=
  length (vertices m) = length (normals m).
Definition indices_valid (m : CgMeshData) : Prop :=
  Forall (λ i, 0 ≤ i < vertex_count m) (indices m).

(** The indices one triangle is emitted as, in [uint32_t]. *)
Definition emitted_u32 (base : Z) (face_reversed : bool) (t : Poly_Triangle)
    : index_triple :=
  let '(n1, n2, n3) := oriented face_reversed t in
  (global_index base n1, global_index base n2, global_index base n3).

(** *** Issued IDs *)

(** The kinds of IDs: shapes and meshes of the registry, mesh buffers of the
    C API's mesh data store. *)
Inductive id_kind := shape_id | mesh_id | mesh_buffer_id.

Global Instance id_kind_eq_dec : EqDecision id_kind.
Proof. solve_decision. Defined.

Section Stores.
Context {ShapeT MeshT : Type}.

(** The store and free operations of the two stores. *)
Inductive store_op :=
  | op_store_shape (shape : ShapeT)
  | op_store_mesh (mesh : MeshT)
  | op_mesh_store_insert (data : CgMeshData)
  | op_free_shape (id : Z)
  | op_free_mesh (id : Z)
  | op_mesh_store_erase (id : Z).

Definition store_op_step (op : store_op)
    (st : HandleRegistryBase ShapeT MeshT * MeshStore)
    : option (id_kind * Z) * (HandleRegistryBase ShapeT MeshT * MeshStore) :=
  let '(r, s) := st in
  match op with
  | op_store_shape shape => let '(id, r') := store_shape shape r in (Some (shape_id, id), (r', s))
  | op_store_mesh mesh => let '(id, r') := store_mesh mesh r in (Some (mesh_id, id), (r', s))
  | op_mesh_store_insert data =>
      let '(id, s') := mesh_store_insert data s in (Some (mesh_buffer_id, id), (r, s'))
  | op_free_shape id => (None, ((free_shape id r).2, s))
  | op_free_mesh id => (None, ((free_mesh id r).2, s))
  | op_mesh_store_erase id => (None, (r, (mesh_store_erase id s).2))
  end.

(** The IDs a sequence of operations issues, in order, with their kinds. *)
Fixpoint ids_issued (ops : list store_op)
    (st : HandleRegistryBase ShapeT MeshT * MeshStore) : list (id_kind * Z) :=
  match ops with
  | [] => []
  | op :: rest =>
      let '(answer, st') := store_op_step op st in
      match answer with
      | Some e => e :: ids_issued rest st'
      | None => ids_issued rest st'
      end
  end.

Definition registry_ids (ids : list (id_kind * Z)) : list Z :=
  (filter (λ e, e.1 ≠ mesh_buffer_id) ids).*2.

Definition mesh_buffer_ids (ids : list (id_kind * Z)) : list Z :=
  (filter (λ e, e.1 = mesh_buffer_id) ids).*2.

(** Every key of the registry was issued by its counter, which has not
    wrapped around. *)
Definition registry_inv (r : HandleRegistryBase ShapeT MeshT) : Prop :=
  1 ≤ next_id_ r ∧
  (∀ k, is_Some (shapes_ r !! k) → 1 ≤ k < next_id_ r) ∧
  (∀ k, is_Some (meshes_ r !! k) → 1 ≤ k < next_id_ r).

End Stores.
Arguments store_op : clear implicits.

(** *** The C API *)

(** No face contributes a triangle. *)
Definition no_triangles (faces : list TopoDS_Face) : Prop :=
  Forall (λ face, match face_triangulation face with
                  | None => True
                  | Some (tri, _) => triangles tri = []
                  end) faces.

Section CApiNotions.
Context {TopoDS_Shape : Type} (K : Kernel TopoDS_Shape).

(** A call left the registry, the mesh store and the kernel alone. *)
Definition untouched (w w' : World TopoDS_Shape) : Prop :=
  registry w' = registry w ∧ mesh_store w' = mesh_store w ∧
  kernel_calls w' = kernel_calls w.

(** ... and left a message. *)
Definition reported (w w' : World TopoDS_Shape) : Prop :=
  untouched w w' ∧ g_last_error w' ≠ "".

(** The failure cases of [cg_shape_tessellate]. *)
Definition tessellation_fails (id : Z) (chord_tol angle_tol : float)
    (w : World TopoDS_Shape) : Prop :=
  id = CG_NULL_ID ∨
  match registry_get_shape id w with
  | NotFound _ => True
  | Found shape =>
      match BRepMesh_IncrementalMesh K shape chord_tol angle_tol with
      | Throws _ | Returns false => True
      | Returns true =>
          match TopExp_Explorer_faces K shape chord_tol angle_tol with
          | Throws _ => True
          | Returns faces => no_triangles faces
          end
      end
  end.

(** What a copy function owes its caller. *)
Definition copy_contract {A}
    (copy : Z → option (list A) → World TopoDS_Shape
            → option (CgError * option (list A) * World TopoDS_Shape))
    (field : CgMeshData → list A)
    (id : Z) (out : option (list A)) (w : World TopoDS_Shape) : Prop :=
  (id = CG_NULL_ID ∨ mesh_store_get id (mesh_store w) = None ∨ out = None →
   ∃ w', copy id out w = Some (CG_ERR_NULL_HANDLE, out, w') ∧ reported w w') ∧
  (∀ mesh dst,
     id ≠ CG_NULL_ID → mesh_store_get id (mesh_store w) = Some mesh →
     out = Some dst → (length (field mesh) ≤ length dst)%nat →
     copy id out w
     = Some (CG_OK, Some (field mesh ++ drop (length (field mesh)) dst), w)).

End CApiNotions.

(** *** Merged faces *)

(** The world positions of the nodes of all meshed faces, in face order. *)
Fixpoint merged_vertices (faces : list TopoDS_Face) : list vec3 :=
  match faces with
  | [] => []
  | face :: rest =>
      match face_triangulation face with
      | None => merged_vertices rest
      | Some (tri, loc) => map (place loc) (nodes tri) ++ merged_vertices rest
      end
  end.

(** The triangles of all meshed faces, in face order, each face's node
    numbers offset by the number of nodes of the meshed faces before it
    (starting from [V]) and its first two corners swapped when the face is
    [TopAbs_REVERSED]. *)
Fixpoint merged_triangles (V : Z) (faces : list TopoDS_Face) : list index_triple :=
  match faces with
  | [] => []
  | face :: rest =>
      match face_triangulation face with
      | None => merged_triangles V rest
      | Some (tri, _) =>
          map (emitted V (bool_decide (face_orientation face = TopAbs_REVERSED)))
              (triangles tri)
          ++ merged_triangles (V + NbNodes tri) rest
      end
  end.

(** A triangle whose three indices are moved up by [V]. *)
Definition shift_triple (V : Z) (t : index_triple) : index_triple :=
  (t.1.1 + V, t.1.2 + V, t.2 + V).

(** The numbers of nodes and of triangles of all meshed faces. *)
Fixpoint total_nodes (faces : list TopoDS_Face) : Z :=
  match faces with
  | [] => 0
  | face :: rest =>
      match face_triangulation face with
      | None => total_nodes rest
      | Some (tri, _) => NbNodes tri + total_nodes rest
      end
  end.

Fixpoint total_triangles (faces : list TopoDS_Face) : Z :=
  match faces with
  | [] => 0
  | face :: rest =>
      match face_triangulation face with
      | None => total_triangles rest
      | Some (tri, _) => NbTriangles tri + total_triangles rest
      end
  end.

(** *** States of the C API *)

(** Every key of the mesh data store was issued by its counter, which has
    not wrapped around. *)
Definition mesh_store_inv (s : MeshStore) : Prop :=
  1 ≤ g_mesh_next_id s ∧
  ∀ k, is_Some (g_mesh_store s !! k) → 1 ≤ k < g_mesh_next_id s.

(** A buffer of whole vertices, normals and triangles. *)
Definition well_shaped (m : CgMeshData) : Prop := ∃ V T : nat, mesh_shape V T m.

(** Two answers a caller cannot tell apart when it looks at messages only
    for being empty or not. *)
Definition same_answer (a a' : api_answer) : Prop :=
  match a, a' with
  | message_answer msg, message_answer msg' => msg = "" ↔ msg' = ""
  | _, _ => a = a'
  end.

(** The three calls that free the shape [id]: faces and edges are freed
    from the map of shapes. *)
Definition frees_shape (id : Z) (c : api_call) : Prop :=
  c = call_cg_shape_free id ∨ c = call_cg_face_free id ∨ c = call_cg_edge_free id.

Section RunNotions.
Context {TopoDS_Shape : Type} (K : Kernel TopoDS_Shape).

(** The kernel reads the STEP file, finds roots in it and delivers
    [shape]. *)
Definition step_loads (path : option string) (shape : TopoDS_Shape) : Prop :=
  ∃ p nRoots, path = Some p ∧ STEP_ReadFile K p = Returns true ∧
    STEP_TransferRoots K p = Returns nRoots ∧ nRoots ≠ 0 ∧
    STEP_OneShape_healed K p = Returns shape.

(** The kernel reads the STL file as [tri]. *)
Definition stl_loads (path : option string) (tri : Poly_Triangulation) : Prop :=
  ∃ p, path = Some p ∧ RWStl_ReadFile K p = Returns (Some tri).

(** [id] refers to a shape of which the kernel computes the box [box]. *)
Definition bbox_of (id : Z) (w : World TopoDS_Shape) (box : CgBbox) : Prop :=
  id ≠ CG_NULL_ID ∧
  ∃ shape, registry_get_shape id w = Found shape ∧
           BRepBndLib_AddOptimal K shape = Returns (Some box).

(** [id] refers to a shape the kernel meshes into [faces]. *)
Definition meshes_into (id : Z) (chord_tol angle_tol : float)
    (w : World TopoDS_Shape) (faces : list TopoDS_Face) : Prop :=
  id ≠ CG_NULL_ID ∧
  ∃ shape, registry_get_shape id w = Found shape ∧
           BRepMesh_IncrementalMesh K shape chord_tol angle_tol = Returns true ∧
           TopExp_Explorer_faces K shape chord_tol angle_tol = Returns faces.

(** The triangles the kernel delivers refer to nodes of their own
    triangulation. *)
Definition kernel_nodes_ok : Prop :=
  (∀ p tri, RWStl_ReadFile K p = Returns (Some tri) →
     Forall (triangle_ok tri) (triangles tri)) ∧
  (∀ shape chord_tol angle_tol faces,
     TopExp_Explorer_faces K shape chord_tol angle_tol = Returns faces →
     Forall face_nodes_ok faces).

(** A kernel that loads no file. *)
Definition loads_nothing : Prop :=
  (∀ path shape, ¬ step_loads path shape) ∧ (∀ path tri, ¬ stl_loads path tri).

(** The state of a library in which nothing was ever stored, with the same
    message, up to emptiness, as the stand-in's. *)
Definition mirrors (w : World TopoDS_Shape) (g_stub_last_error : string) : Prop :=
  registry w = new_registry ∧ mesh_store w = new_mesh_store ∧
  (g_last_error w = "" ↔ g_stub_last_error = "").

(** What holds of a state after at most [n] calls. *)
Definition world_inv (n : Z) (w : World TopoDS_Shape) : Prop :=
  registry_inv (registry w) ∧ next_id_ (registry w) ≤ 1 + n ∧
  mesh_store_inv (mesh_store w) ∧ g_mesh_next_id (mesh_store w) ≤ 1 + n ∧
  meshes_ (registry w) = ∅ ∧
  ∀ id m, mesh_store_get id (mesh_store w) = Some m →
    well_shaped m ∧ (kernel_nodes_ok → indices_valid m).

End RunNotions.

(** ** Examples

    The patches of the specification's example: a triangle, and the same
    triangle translated and reversed; a face without triangulation; a
    triangle too small to normalize; a triangulation without triangles. *)
Definition unit_triangle : Poly_Triangulation :=
  mk_Tri [mk_Pnt 0 0 0; mk_Pnt 1 0 0; mk_Pnt 0 1 0] [(1, 2, 3)].

Definition shifted_by_5 : TopLoc_Location :=
  mk_Loc false (λ p, mk_Pnt (pnt_X p + 5) (pnt_Y p) (pnt_Z p)).

Definition face_A : TopoDS_Face :=
  mk_Face (Some (unit_triangle, identity_location)) TopAbs_FORWARD.
Definition face_B : TopoDS_Face :=
  mk_Face (Some (unit_triangle, shifted_by_5)) TopAbs_REVERSED.
Definition unmeshed_face : TopoDS_Face := mk_Face None TopAbs_FORWARD.

Definition tiny_triangle : Poly_Triangulation :=
  mk_Tri [mk_Pnt 0 0 0; mk_Pnt 0x1p-24 0 0; mk_Pnt 0 0x1p-24 0] [(1, 2, 3)].
Definition tiny_face : TopoDS_Face :=
  mk_Face (Some (tiny_triangle, identity_location)) TopAbs_FORWARD.

Definition lonely_node : Poly_Triangulation := mk_Tri [mk_Pnt 1 2 3] [].
Definition lonely_face : TopoDS_Face :=
  mk_Face (Some (lonely_node, identity_location)) TopAbs_FORWARD.

(** A kernel for the examples: a shape is the list of its meshed faces. *)
Definition demo_shape : list TopoDS_Face := [face_A; unmeshed_face; face_B].

Definition demo_kernel : Kernel (list TopoDS_Face) := {|
  STEP_ReadFile := λ _, Returns true;
  STEP_TransferRoots := λ _, Returns 1;
  STEP_OneShape_healed := λ _, Returns demo_shape;
  RWStl_ReadFile := λ _, Returns (Some unit_triangle);
  BRepBndLib_AddOptimal := λ _, Returns None;
  BRepMesh_IncrementalMesh := λ _ _ _, Returns true;
  TopExp_Explorer_faces := λ shape _ _, Returns shape
|}.

(** The state after [cg_load_step ("box.step")] in a fresh process. *)
Definition step_world : World (list TopoDS_Face) :=
  (cg_load_step demo_kernel (Some "box.step") initial_world).2.

(** The mesh of [unit_triangle], and the state after
    [cg_load_stl ("box.stl")] in a fresh process. *)
Definition mesh_A : CgMeshData :=
  mk_Mesh [0; 0; 0; 1; 0; 0; 0; 1; 0]%float [0; 0; 1; 0; 0; 1; 0; 0; 1]%float
          [0; 1; 2].

Definition stl_world : World (list TopoDS_Face) :=
  mk_World new_registry (mk_MeshStore {[1 := mesh_A]} 2) "" [into_RWStl].

(** A kernel without files, over shapes of which there are none. *)
Definition offline_kernel : Kernel Empty_set := {|
  STEP_ReadFile := λ _, Returns false;
  STEP_TransferRoots := λ _, Returns 0;
  STEP_OneShape_healed := λ _, Throws unknown_exception;
  RWStl_ReadFile := λ _, Returns None;
  BRepBndLib_AddOptimal := λ shape : Empty_set, match shape with end;
  BRepMesh_IncrementalMesh := λ (shape : Empty_set) _ _, match shape with end;
  TopExp_Explorer_faces := λ (shape : Empty_set) _ _, match shape with end
|}.

(** A kernel with one shape, which it meshes into the three example faces
    whatever the tolerances. *)
Definition box_kernel : Kernel unit := {|
  STEP_ReadFile := λ _, Returns true;
  STEP_TransferRoots := λ _, Returns 1;
  STEP_OneShape_healed := λ _, Returns tt;
  RWStl_ReadFile := λ _, Returns (Some unit_triangle);
  BRepBndLib_AddOptimal := λ _, Returns (Some (mk_Bbox 0 0 0 6 1 0));
  BRepMesh_IncrementalMesh := λ _ _ _, Returns true;
  TopExp_Explorer_faces := λ _ _ _, Returns demo_shape
|}.

(** A session: load a shape, tessellate it, load an STL file, free the
    tessellation. *)
Definition demo_session : list api_call :=
  [ call_cg_load_step (Some "box.step");
    call_cg_shape_tessellate 1 0.1 0.5;
    call_cg_load_stl (Some "box.stl");
    call_cg_mesh_free 1 ].

(** Calls the unit tests make on the stand-in. *)
Definition stub_session : list api_call :=
  [ call_cg_last_error_message;
    call_cg_mesh_vertex_count CG_NULL_ID;
    call_cg_load_step (Some "/nonexistent/path/file.step");
    call_cg_last_error_message;
    call_cg_shape_bounding_box CG_NULL_ID;
    call_cg_mesh_copy_vertices CG_NULL_ID (Some [0; 0; 0]%float);
    call_cg_shape_heal 1;
    call_cg_mesh_free 1;
    call_cg_stub cg_shape_distance ].

(** The state after [cg_load_step ("box.step")] and [cg_load_stl
    ("box.stl")] in a fresh process. *)
Definition stl_step_world : World (list TopoDS_Face) :=
  mk_World (registry step_world) (mk_MeshStore {[1 := mesh_A]} 2) ""
    [into_RWStl; into_STEPControl_Reader].

(** * Properties *)

(** ** Buffers of triples *)

Lemma wrap32_small z : 0 ≤ z < 2 ^ 32 → wrap32 z = z.
Proof. intros. unfold wrap32. apply Z.mod_small. lia. Qed.

Lemma div3_of_nat (n : nat) : Z.of_nat (3 * n) / 3 = Z.of_nat n.
Proof. zify. Z.div_mod_to_equations. lia. Qed.

Lemma length_flat3 {A} (cs : list (A * A * A)) : length (flat3 cs) = (3 * length cs)%nat.
Proof. induction cs as [|[[x y] z] cs IH]; simpl; lia. Qed.

Lemma flat3_app {A} (cs1 cs2 : list (A * A * A)) : flat3 (cs1 ++ cs2) = flat3 cs1 ++ flat3 cs2.
Proof. apply flat_map_app. Qed.

Lemma flat3_replicate n : flat3 (replicate n (0, 0, 0)%float) = replicate (3 * n) 0%float.
Proof.
  induction n as [|n IH]; [done|].
  replace (3 * S n)%nat with (S (S (S (3 * n))))%nat by lia.
  simpl. by rewrite IH.
Qed.

Local Arguments Nat.mul : simpl never.
Local Arguments Nat.add : simpl never.

Lemma flat3_lookup {A} (cs : list (A * A * A)) (n : nat) :
  flat3 cs !! (3 * n)%nat = (λ c, c.1.1) <$> cs !! n ∧
  flat3 cs !! (3 * n + 1)%nat = (λ c, c.1.2) <$> cs !! n ∧
  flat3 cs !! (3 * n + 2)%nat = (λ c, c.2) <$> cs !! n.
Proof.
  revert cs; induction n as [|n IH]; intros [|[[x y] z] cs]; try done.
  replace (3 * S n)%nat with (S (S (S (3 * n))))%nat by lia.
  replace (S (S (S (3 * n))) + 1)%nat with (S (S (S (3 * n + 1))))%nat by lia.
  replace (S (S (S (3 * n))) + 2)%nat with (S (S (S (3 * n + 2))))%nat by lia.
  simpl. apply IH.
Qed.

Lemma flat3_insert {A} (cs : list (A * A * A)) (n : nat) v :
  <[(3 * n)%nat := v]> (flat3 cs) = flat3 (alter (set_x v) n cs) ∧
  <[(3 * n + 1)%nat := v]> (flat3 cs) = flat3 (alter (set_y v) n cs) ∧
  <[(3 * n + 2)%nat := v]> (flat3 cs) = flat3 (alter (set_z v) n cs).
Proof.
  revert cs; induction n as [|n IH]; intros [|[[x y] z] cs]; try done.
  replace (3 * S n)%nat with (S (S (S (3 * n))))%nat by lia.
  replace (S (S (S (3 * n))) + 1)%nat with (S (S (S (3 * n + 1))))%nat by lia.
  replace (S (S (S (3 * n))) + 2)%nat with (S (S (S (3 * n + 2))))%nat by lia.
  simpl. destruct (IH cs) as (-> & -> & ->). done.
Qed.

(** Reading slot [3 g + k] of a buffer of triples. *)
Lemma vec_get_flat3 {A} (cs : list (A * A * A)) (g : Z) c :
  0 ≤ g → cs !! Z.to_nat g = Some c →
  vec_get (flat3 cs) (3 * g + 0) = Some c.1.1 ∧
  vec_get (flat3 cs) (3 * g + 1) = Some c.1.2 ∧
  vec_get (flat3 cs) (3 * g + 2) = Some c.2.
Proof.
  intros Hg Hc. unfold vec_get.
  destruct (flat3_lookup cs (Z.to_nat g)) as (E0 & E1 & E2).
  rewrite Hc in E0, E1, E2. simpl in E0, E1, E2.
  rewrite !decide_True by lia.
  replace (Z.to_nat (3 * g + 0)) with (3 * Z.to_nat g)%nat by lia.
  replace (Z.to_nat (3 * g + 1)) with (3 * Z.to_nat g + 1)%nat by lia.
  replace (Z.to_nat (3 * g + 2)) with (3 * Z.to_nat g + 2)%nat by lia.
  done.
Qed.

Lemma vec_set_flat3 {A} (cs : list (A * A * A)) (g : Z) v :
  0 ≤ g < Z.of_nat (length cs) →
  vec_set (flat3 cs) (3 * g + 0) v = Some (flat3 (alter (set_x v) (Z.to_nat g) cs)) ∧
  vec_set (flat3 cs) (3 * g + 1) v = Some (flat3 (alter (set_y v) (Z.to_nat g) cs)) ∧
  vec_set (flat3 cs) (3 * g + 2) v = Some (flat3 (alter (set_z v) (Z.to_nat g) cs)).
Proof.
  intros Hg. unfold vec_set. rewrite length_flat3.
  destruct (flat3_insert cs (Z.to_nat g) v) as (E0 & E1 & E2).
  rewrite !decide_True by lia.
  replace (Z.to_nat (3 * g + 0)) with (3 * Z.to_nat g)%nat by lia.
  replace (Z.to_nat (3 * g + 1)) with (3 * Z.to_nat g + 1)%nat by lia.
  replace (Z.to_nat (3 * g + 2)) with (3 * Z.to_nat g + 2)%nat by lia.
  by rewrite E0, E1, E2.
Qed.

(** Every buffer of [3 n] doubles is a buffer of [n] triples. *)
Lemma flat3_surjective {A} (l : list A) (n : nat) :
  length l = (3 * n)%nat → ∃ cs, l = flat3 cs ∧ length cs = n.
Proof.
  revert l; induction n as [|n IH]; intros l Hl.
  - exists []. destruct l; [done | simpl in Hl; lia].
  - destruct l as [|x [|y [|z l]]]; simpl in Hl; try lia.
    destruct (IH l) as (cs & -> & Hcs); [lia|].
    exists ((x, y, z) :: cs). simpl. by rewrite Hcs.
Qed.

(** The slots the C++ index arithmetic addresses, when nothing wraps. *)
Lemma global_index_small base n :
  0 ≤ base → 1 ≤ n → base + n - 1 < 2 ^ 32 → global_index base n = base + n - 1.
Proof.
  intros. unfold global_index.
  rewrite (wrap32_small (n - 1)) by lia. rewrite wrap32_small by lia. lia.
Qed.

Lemma slot_small g k :
  0 ≤ g → 0 ≤ k ≤ 2 → 3 * g + 2 < 2 ^ 32 →
  wrap32 (wrap32 (g * 3) + k) = 3 * g + k.
Proof.
  intros. rewrite (wrap32_small (g * 3)) by lia. rewrite wrap32_small by lia. lia.
Qed.

Lemma set_xyz_alter {A} (cs1 cs2 : list (A * A * A)) c x y z :
  alter (set_z z) (length cs1)
    (alter (set_y y) (length cs1) (alter (set_x x) (length cs1) (cs1 ++ c :: cs2)))
  = cs1 ++ (x, y, z) :: cs2.
Proof.
  rewrite <- (Nat.add_0_r (length cs1)). rewrite !alter_app_r. done.
Qed.

Lemma copy_nodes_spec loc base ps : ∀ i (front tail : list vec3),
  0 ≤ base → 1 ≤ i →
  base + (i - 1) = Z.of_nat (length front) →
  length tail = length ps →
  3 * Z.of_nat (length front + length ps) ≤ 2 ^ 32 →
  copy_nodes loc base i ps (flat3 (front ++ tail))
  = Some (flat3 (front ++ map (place loc) ps)).
Proof.
  induction ps as [|p0 ps IH]; intros i front tail Hb Hi Hd Ht Hs.
  - destruct tail; [|done]. done.
  - destruct tail as [|c tail]; [done|]. simpl in Ht, Hs.
    cbn [copy_nodes].
    assert (Hg : global_index base i = Z.of_nat (length front)).
    { rewrite global_index_small by lia. lia. }
    rewrite Hg. rewrite !slot_small by lia.
    set (p := if negb (IsIdentity loc) then Transformation loc p0 else p0).
    destruct (vec_set_flat3 (front ++ c :: tail) (Z.of_nat (length front)) (pnt_X p))
      as (-> & _ & _). { rewrite length_app; simpl; lia. }
    cbn [mbind option_bind].
    destruct (vec_set_flat3 (alter (set_x (pnt_X p)) (Z.to_nat (Z.of_nat (length front)))
                (front ++ c :: tail)) (Z.of_nat (length front)) (pnt_Y p))
      as (_ & -> & _). { rewrite length_alter, length_app; simpl; lia. }
    cbn [mbind option_bind].
    destruct (vec_set_flat3 (alter (set_y (pnt_Y p)) (Z.to_nat (Z.of_nat (length front)))
                (alter (set_x (pnt_X p)) (Z.to_nat (Z.of_nat (length front)))
                (front ++ c :: tail))) (Z.of_nat (length front)) (pnt_Z p))
      as (_ & _ & ->). { rewrite !length_alter, length_app; simpl; lia. }
    cbn [mbind option_bind].
    rewrite Nat2Z.id, set_xyz_alter.
    replace (front ++ (pnt_X p, pnt_Y p, pnt_Z p) :: tail)
      with ((front ++ [place loc p0]) ++ tail) by (by rewrite <- app_assoc).
    rewrite (IH (i + 1) (front ++ [place loc p0]) tail); try lia.
    + by rewrite <- app_assoc.
    + rewrite length_app; simpl; lia.
    + rewrite length_app; simpl; lia.
Qed.

Lemma vec_add_flat3 (cs : list vec3) (g : Z) c d :
  0 ≤ g → cs !! Z.to_nat g = Some c →
  vec_add (flat3 cs) (3 * g + 0) d
    = Some (flat3 (alter (set_x (c.1.1 + d)%float) (Z.to_nat g) cs)) ∧
  vec_add (flat3 cs) (3 * g + 1) d
    = Some (flat3 (alter (set_y (c.1.2 + d)%float) (Z.to_nat g) cs)) ∧
  vec_add (flat3 cs) (3 * g + 2) d
    = Some (flat3 (alter (set_z (c.2 + d)%float) (Z.to_nat g) cs)).
Proof.
  intros Hg Hc. unfold vec_add.
  destruct (vec_get_flat3 cs g c Hg Hc) as (-> & -> & ->).
  cbn [mbind option_bind].
  assert (0 ≤ g < Z.of_nat (length cs)).
  { apply lookup_lt_Some in Hc. lia. }
  destruct (vec_set_flat3 cs g (c.1.1 + d)%float) as (-> & _ & _); [done|].
  destruct (vec_set_flat3 cs g (c.1.2 + d)%float) as (_ & -> & _); [done|].
  destruct (vec_set_flat3 cs g (c.2 + d)%float) as (_ & _ & ->); [done|].
  done.
Qed.

Lemma accumulate_normal_spec base fn (ns : list vec3) n :
  0 ≤ base → 1 ≤ n → base + n - 1 < Z.of_nat (length ns) →
  3 * Z.of_nat (length ns) ≤ 2 ^ 32 →
  accumulate_normal base fn (flat3 ns) n
  = Some (flat3 (alter (vadd fn) (Z.to_nat (base + n - 1)) ns)).
Proof.
  intros Hb Hn Hlt Hs. unfold accumulate_normal.
  rewrite global_index_small by lia.
  set (g := base + n - 1) in *.
  rewrite !slot_small by lia.
  destruct (lookup_lt_is_Some_2 ns (Z.to_nat g)) as [c Hc]; [lia|].
  destruct (vec_add_flat3 ns g c (vec_X fn)) as (-> & _ & _); [lia|done|].
  cbn [mbind option_bind].
  destruct (vec_add_flat3 (alter (set_x (c.1.1 + vec_X fn)%float) (Z.to_nat g) ns)
              g (set_x (c.1.1 + vec_X fn)%float c) (vec_Y fn)) as (_ & -> & _); [lia| |].
  { by rewrite list_lookup_alter_eq, Hc. }
  cbn [mbind option_bind].
  destruct (vec_add_flat3
              (alter (set_y ((set_x (c.1.1 + vec_X fn)%float c).1.2 + vec_Y fn)%float)
                 (Z.to_nat g)
                 (alter (set_x (c.1.1 + vec_X fn)%float) (Z.to_nat g) ns))
              g (set_y (c.1.2 + vec_Y fn)%float (set_x (c.1.1 + vec_X fn)%float c))
              (vec_Z fn)) as (_ & _ & ->); [lia| |].
  { by rewrite !list_lookup_alter_eq, Hc. }
  f_equal. f_equal. apply list_eq. intros j.
  rewrite !list_lookup_alter. case_decide; [|done].
  rewrite Hc. rewrite !decide_True by done. by destruct c as [[x y] z].
Qed.

Lemma face_normal_flat3 (ps : list vec3) (g1 g2 g3 : Z) a b c :
  0 ≤ g1 → 0 ≤ g2 → 0 ≤ g3 →
  ps !! Z.to_nat g1 = Some a → ps !! Z.to_nat g2 = Some b →
  ps !! Z.to_nat g3 = Some c →
  face_normal (flat3 ps) (3 * g1) (3 * g2) (3 * g3) = Some (corner_normal a b c).
Proof.
  intros H1 H2 H3 Ha Hb Hc. unfold face_normal.
  destruct (vec_get_flat3 ps g1 a H1 Ha) as (E1 & -> & ->).
  destruct (vec_get_flat3 ps g2 b H2 Hb) as (E2 & -> & ->).
  destruct (vec_get_flat3 ps g3 c H3 Hc) as (E3 & -> & ->).
  rewrite Z.add_0_r in E1, E2, E3. rewrite E1, E2, E3. done.
Qed.

Lemma oriented_ok tri rev t :
  triangle_ok tri t → triangle_ok tri (oriented rev t).
Proof.
  destruct t as [[n1 n2] n3], rev; unfold triangle_ok; simpl; tauto.
Qed.

Lemma length_bump vs ns t : length (bump vs ns t) = length ns.
Proof. unfold bump. by rewrite !length_alter. Qed.

Lemma add_triangle_spec tri base rev (ps ns : list vec3) idx t :
  0 ≤ base → triangle_ok tri t →
  base + NbNodes tri ≤ Z.of_nat (length ps) →
  length ns = length ps →
  3 * Z.of_nat (length ps) ≤ 2 ^ 32 →
  add_triangle base rev (mk_Mesh (flat3 ps) (flat3 ns) idx) t
  = Some (mk_Mesh (flat3 ps) (flat3 (bump (flat3 ps) ns (emitted base rev t)))
            (idx ++ flat3 [emitted base rev t])).
Proof.
  intros Hb Ht Hn Hl Hs. apply (oriented_ok tri rev) in Ht.
  unfold add_triangle, emitted, bump, face_normal_of.
  destruct (oriented rev t) as [[n1 n2] n3].
  destruct Ht as ([] & [] & []); simpl in *.
  cbn [vertices normals indices].
  rewrite !global_index_small by lia.
  rewrite !(wrap32_small (_ * 3)) by lia.
  replace ((base + n1 - 1) * 3) with (3 * (base + n1 - 1)) by lia.
  replace ((base + n2 - 1) * 3) with (3 * (base + n2 - 1)) by lia.
  replace ((base + n3 - 1) * 3) with (3 * (base + n3 - 1)) by lia.
  destruct (lookup_lt_is_Some_2 ps (Z.to_nat (base + n1 - 1))) as [a Ha]; [lia|].
  destruct (lookup_lt_is_Some_2 ps (Z.to_nat (base + n2 - 1))) as [b Hb']; [lia|].
  destruct (lookup_lt_is_Some_2 ps (Z.to_nat (base + n3 - 1))) as [c Hc]; [lia|].
  rewrite (face_normal_flat3 ps _ _ _ a b c) by (done || lia).
  cbn [mbind option_bind default].
  rewrite accumulate_normal_spec by lia. cbn [mbind option_bind].
  rewrite accumulate_normal_spec by (rewrite ?length_alter; lia).
  cbn [mbind option_bind].
  rewrite accumulate_normal_spec by (rewrite ?length_alter; lia).
  done.
Qed.

Lemma copy_triangles_spec tri base rev (ps : list vec3) ts : ∀ (ns : list vec3) idx,
  0 ≤ base → Forall (triangle_ok tri) ts →
  base + NbNodes tri ≤ Z.of_nat (length ps) →
  length ns = length ps →
  3 * Z.of_nat (length ps) ≤ 2 ^ 32 →
  copy_triangles base rev ts (mk_Mesh (flat3 ps) (flat3 ns) idx)
  = Some (mk_Mesh (flat3 ps)
            (flat3 (foldl (bump (flat3 ps)) ns (map (emitted base rev) ts)))
            (idx ++ flat3 (map (emitted base rev) ts))).
Proof.
  induction ts as [|t ts IH]; intros ns idx Hb Hts Hn Hl Hs.
  - simpl. by rewrite app_nil_r.
  - apply Forall_cons in Hts as [Ht Hts]. cbn [copy_triangles].
    rewrite (add_triangle_spec tri) by done. cbn [mbind option_bind].
    rewrite IH; try done; [|by rewrite length_bump].
    by rewrite <- app_assoc, <- flat3_app.
Qed.

Lemma append_triangulation_spec (ps ns : list vec3) idx tri loc rev :
  length ns = length ps →
  tri_fits (Z.of_nat (length ps)) tri →
  let V := Z.of_nat (length ps) in
  let ps' := ps ++ map (place loc) (nodes tri) in
  append_triangulation (mk_Mesh (flat3 ps) (flat3 ns) idx) tri loc rev
  = Some (mk_Mesh (flat3 ps')
            (flat3 (foldl (bump (flat3 ps'))
                      (ns ++ replicate (length (nodes tri)) (0, 0, 0)%float)
                      (map (emitted V rev) (triangles tri))))
            (idx ++ flat3 (map (emitted V rev) (triangles tri)))).
Proof.
  intros Hl (Hi1 & Hi2 & Hs & Hts) V ps'. unfold append_triangulation.
  rewrite decide_True by done. cbn [vertices normals indices].
  rewrite length_flat3.
  rewrite div3_of_nat. fold V.
  unfold NbNodes, NbTriangles, INT_MAX in *.
  rewrite wrap32_small by lia.
  replace (Z.to_nat (Z.of_nat (length (nodes tri)) * 3))
    with (3 * length (nodes tri))%nat by lia.
  rewrite <- flat3_replicate, <- !flat3_app.
  rewrite copy_nodes_spec; try (unfold V; lia); [|by rewrite length_replicate].
  cbn [mbind option_bind]. fold ps'.
  rewrite (copy_triangles_spec tri); try done; try lia.
  - unfold ps', NbNodes. rewrite length_app, length_map. lia.
  - unfold ps'. rewrite !length_app, length_map, length_replicate. lia.
  - unfold ps'. rewrite !length_app, length_map. lia.
Qed.

Lemma normalize_loop_spec (rest : list vec3) : ∀ front : list vec3,
  normalize_loop (length rest) (Z.of_nat (length front)) (flat3 (front ++ rest))
  = Some (flat3 (front ++ map normalize_vec rest)).
Proof.
  induction rest as [|c rest IH]; intros front; [done|].
  cbn [normalize_loop length].
  set (g := Z.of_nat (length front)).
  assert (Hc : (front ++ c :: rest) !! Z.to_nat g = Some c).
  { unfold g. rewrite Nat2Z.id. apply list_lookup_middle. done. }
  replace (g * 3 + 0) with (3 * g + 0) by lia.
  replace (g * 3 + 1) with (3 * g + 1) by lia.
  replace (g * 3 + 2) with (3 * g + 2) by lia.
  destruct (vec_get_flat3 _ g c ltac:(lia) Hc) as (-> & -> & ->).
  cbn [mbind option_bind].
  assert (Hstep : ∀ c' : vec3,
    normalize_loop (length rest) (g + 1) (flat3 (front ++ c' :: rest))
    = Some (flat3 (front ++ c' :: map normalize_vec rest))).
  { intros c'. specialize (IH (front ++ [c'])).
    rewrite length_app, <- !app_assoc in IH. simpl in IH.
    replace (g + 1) with (Z.of_nat (length front + 1)) by lia. done. }
  destruct c as [[nx ny] nz]. cbn [fst snd map].
  assert (Hv : normalize_vec (nx, ny, nz) =
    if PrimFloat.ltb normal_threshold (PrimFloat.sqrt (nx * nx + ny * ny + nz * nz))
    then (nx / PrimFloat.sqrt (nx * nx + ny * ny + nz * nz),
          ny / PrimFloat.sqrt (nx * nx + ny * ny + nz * nz),
          nz / PrimFloat.sqrt (nx * nx + ny * ny + nz * nz))%float
    else (nx, ny, nz)) by done.
  rewrite Hv. clear Hv.
  destruct (PrimFloat.ltb normal_threshold
              (PrimFloat.sqrt (nx * nx + ny * ny + nz * nz))).
  - destruct (vec_set_flat3 (front ++ (nx, ny, nz) :: rest) g
                (nx / PrimFloat.sqrt (nx * nx + ny * ny + nz * nz))%float)
      as (-> & _ & _). { rewrite length_app; simpl; lia. }
    cbn [mbind option_bind].
    destruct (vec_set_flat3
                (alter (set_x (nx / PrimFloat.sqrt (nx * nx + ny * ny + nz * nz))%float)
                   (Z.to_nat g) (front ++ (nx, ny, nz) :: rest)) g
                (ny / PrimFloat.sqrt (nx * nx + ny * ny + nz * nz))%float)
      as (_ & -> & _). { rewrite length_alter, length_app; simpl; lia. }
    cbn [mbind option_bind].
    destruct (vec_set_flat3
                (alter (set_y (ny / PrimFloat.sqrt (nx * nx + ny * ny + nz * nz))%float)
                   (Z.to_nat g)
                (alter (set_x (nx / PrimFloat.sqrt (nx * nx + ny * ny + nz * nz))%float)
                   (Z.to_nat g) (front ++ (nx, ny, nz) :: rest))) g
                (nz / PrimFloat.sqrt (nx * nx + ny * ny + nz * nz))%float)
      as (_ & _ & ->). { rewrite !length_alter, length_app; simpl; lia. }
    cbn [mbind option_bind].
    replace (Z.to_nat g) with (length front) by (unfold g; lia).
    rewrite set_xyz_alter. apply Hstep.
  - cbn [mbind option_bind]. apply Hstep.
Qed.

Lemma normalize_normals_spec (ps ns : list vec3) idx :
  length ns = length ps →
  normalize_normals (mk_Mesh (flat3 ps) (flat3 ns) idx)
  = Some (mk_Mesh (flat3 ps) (flat3 (map normalize_vec ns)) idx).
Proof.
  intros Hl. unfold normalize_normals. cbn [vertices normals indices].
  rewrite length_flat3, div3_of_nat, Nat2Z.id, <- Hl.
  change ns with ([] ++ ns) at 2.
  change 0 with (Z.of_nat (length (@nil vec3))).
  rewrite normalize_loop_spec. done.
Qed.

Lemma triples_flat3 {A} (ts : list (A * A * A)) : triples (flat3 ts) = ts.
Proof. induction ts as [|[[x y] z] ts IH]; simpl; [done|]. by rewrite IH. Qed.

Lemma alter_touch fn (ns : list vec3) (g : Z) (v : nat) c :
  0 ≤ g → ns !! v = Some c →
  alter (vadd fn) (Z.to_nat g) ns !! v = Some (touch (Z.of_nat v) fn g c).
Proof.
  intros Hg Hc. rewrite list_lookup_alter. unfold touch.
  destruct (decide (Z.to_nat g = v)), (decide (g = Z.of_nat v)); try lia.
  - subst v. by rewrite Hc.
  - done.
Qed.

Lemma bump_lookup vs (ns : list vec3) t (v : nat) c :
  0 ≤ t.1.1 → 0 ≤ t.1.2 → 0 ≤ t.2 →
  ns !! v = Some c →
  bump vs ns t !! v = Some (accumulate_step vs (Z.of_nat v) c t).
Proof.
  intros H1 H2 H3 Hc. unfold bump, accumulate_step.
  repeat (apply alter_touch; [done|]). done.
Qed.

Lemma bump_fold_lookup vs ts : ∀ (ns : list vec3) (v : nat) c,
  Forall (λ t : index_triple, 0 ≤ t.1.1 ∧ 0 ≤ t.1.2 ∧ 0 ≤ t.2) ts →
  ns !! v = Some c →
  foldl (bump vs) ns ts !! v = Some (foldl (accumulate_step vs (Z.of_nat v)) c ts).
Proof.
  induction ts as [|t ts IH]; intros ns v c Hts Hc; [done|].
  apply Forall_cons in Hts as [(? & ? & ?) Hts]. simpl.
  apply IH; [done|]. by apply bump_lookup.
Qed.

Lemma length_bump_fold vs ts : ∀ ns : list vec3,
  length (foldl (bump vs) ns ts) = length ns.
Proof.
  induction ts as [|t ts IH]; intros ns; [done|].
  simpl. by rewrite IH, length_bump.
Qed.

Lemma face_normal_of_app (ps new : list vec3) t :
  triple_below (Z.of_nat (length ps)) t →
  face_normal_of (flat3 (ps ++ new)) t = face_normal_of (flat3 ps) t.
Proof.
  intros ([] & [] & []). unfold face_normal_of.
  destruct (lookup_lt_is_Some_2 ps (Z.to_nat t.1.1)) as [a Ha]; [lia|].
  destruct (lookup_lt_is_Some_2 ps (Z.to_nat t.1.2)) as [b Hb]; [lia|].
  destruct (lookup_lt_is_Some_2 ps (Z.to_nat t.2)) as [c Hc]; [lia|].
  rewrite (face_normal_flat3 ps _ _ _ a b c) by done.
  rewrite (face_normal_flat3 (ps ++ new) _ _ _ a b c);
    try done; by apply lookup_app_l_Some.
Qed.

Lemma accumulated_app_vertices (ps new : list vec3) ts v : ∀ c,
  Forall (triple_below (Z.of_nat (length ps))) ts →
  foldl (accumulate_step (flat3 (ps ++ new)) v) c ts
  = foldl (accumulate_step (flat3 ps) v) c ts.
Proof.
  induction ts as [|t ts IH]; intros c Hts; [done|].
  apply Forall_cons in Hts as [Ht Hts]. simpl.
  rewrite IH by done. unfold accumulate_step.
  by rewrite face_normal_of_app.
Qed.

Lemma accumulated_untouched vs ts v : ∀ c,
  Forall (λ t : index_triple, t.1.1 ≠ v ∧ t.1.2 ≠ v ∧ t.2 ≠ v) ts →
  foldl (accumulate_step vs v) c ts = c.
Proof.
  induction ts as [|t ts IH]; intros c Hts; [done|].
  apply Forall_cons in Hts as [(? & ? & ?) Hts]. simpl.
  rewrite IH by done. unfold accumulate_step, touch.
  by rewrite !decide_False.
Qed.

Lemma emitted_below tri V rev t :
  0 ≤ V → triangle_ok tri t →
  triple_below (V + NbNodes tri) (emitted V rev t) ∧
  V ≤ (emitted V rev t).1.1 ∧ V ≤ (emitted V rev t).1.2 ∧ V ≤ (emitted V rev t).2.
Proof.
  intros HV Ht. apply (oriented_ok tri rev) in Ht. unfold emitted, triple_below.
  destruct (oriented rev t) as [[n1 n2] n3].
  destruct Ht as ([] & [] & []); simpl in *. lia.
Qed.

Lemma assembled_empty : assembled empty_mesh.
Proof. exists [], [], []. repeat split; try done. Qed.

Lemma vertex_count_flat3 (ps : list vec3) ns idx :
  vertex_count (mk_Mesh (flat3 ps) ns idx) = Z.of_nat (length ps).
Proof. unfold vertex_count. simpl. by rewrite length_flat3, div3_of_nat. Qed.

Lemma append_assembled m tri loc rev :
  assembled m → tri_fits (vertex_count m) tri →
  ∃ m', append_triangulation m tri loc rev = Some m' ∧ assembled m' ∧
        vertex_count m' = vertex_count m + NbNodes tri.
Proof.
  intros (ps & ns & gts & -> & Hl & Hgts & Hacc) Hfit.
  rewrite vertex_count_flat3 in *.
  pose proof Hfit as (_ & _ & Hs & Hts).
  rewrite append_triangulation_spec by done.
  eexists. split; [done|]. rewrite vertex_count_flat3.
  set (V := Z.of_nat (length ps)) in *.
  set (ps' := ps ++ map (place loc) (nodes tri)).
  set (new := map (emitted V rev) (triangles tri)).
  assert (Hlen : Z.of_nat (length ps') = V + NbNodes tri).
  { unfold ps', V, NbNodes. rewrite length_app, length_map. lia. }
  assert (Hnew : Forall (λ t, triple_below (V + NbNodes tri) t ∧
                              V ≤ t.1.1 ∧ V ≤ t.1.2 ∧ V ≤ t.2) new).
  { unfold new. apply Forall_map. eapply Forall_impl; [exact Hts|].
    intros t Ht. apply emitted_below; [lia | done]. }
  split; [|done].
  exists ps', (foldl (bump (flat3 ps')) (ns ++ replicate (length (nodes tri)) (0, 0, 0)%float) new),
    (gts ++ new).
  split; [by rewrite flat3_app|]. split.
  { rewrite length_bump_fold. unfold ps'.
    rewrite !length_app, length_replicate, length_map. lia. }
  split.
  { rewrite Hlen. apply Forall_app. split.
    - eapply Forall_impl; [exact Hgts|]. unfold triple_below, NbNodes. intros t. lia.
    - eapply Forall_impl; [exact Hnew|]. by intros t [? _]. }
  intros v c Hv.
  unfold accumulated_normal. rewrite foldl_app.
  assert (Hold : foldl (accumulate_step (flat3 ps') (Z.of_nat v)) (0, 0, 0)%float gts
                 = foldl (accumulate_step (flat3 ps) (Z.of_nat v)) (0, 0, 0)%float gts).
  { unfold ps'. by apply accumulated_app_vertices. }
  rewrite Hold.
  assert (Hnn : Forall (λ t : index_triple, 0 ≤ t.1.1 ∧ 0 ≤ t.1.2 ∧ 0 ≤ t.2) new).
  { eapply Forall_impl; [exact Hnew|]. unfold triple_below. intros t. lia. }
  destruct (decide (v < length ns)%nat) as [Hlt|Hge].
  - destruct (lookup_lt_is_Some_2 ns v Hlt) as [c0 Hc0].
    rewrite (bump_fold_lookup _ _ _ v c0) in Hv; [|done|by apply lookup_app_l_Some].
    apply Hacc in Hc0. unfold accumulated_normal in Hc0. rewrite <- Hc0. congruence.
  - assert (Hz : (ns ++ replicate (length (nodes tri)) (0, 0, 0)%float) !! v
                 = Some (0, 0, 0)%float).
    { apply lookup_lt_Some in Hv. rewrite length_bump_fold, length_app, length_replicate in Hv.
      rewrite lookup_app_r by lia. apply lookup_replicate_2. lia. }
    rewrite (bump_fold_lookup _ _ _ v _ Hnn Hz) in Hv.
    rewrite (accumulated_untouched _ gts); [congruence|].
    eapply Forall_impl; [exact Hgts|]. unfold triple_below. intros t. lia.
Qed.

Lemma triple_at_flat3 {A} (cs : list (A * A * A)) (v : Z) :
  0 ≤ v → triple_at (flat3 cs) v = cs !! Z.to_nat v.
Proof.
  intros Hv. unfold triple_at, vec_get. rewrite !decide_True by lia.
  destruct (flat3_lookup cs (Z.to_nat v)) as (E0 & E1 & E2).
  replace (Z.to_nat (3 * v + 0)) with (3 * Z.to_nat v)%nat by lia.
  replace (Z.to_nat (3 * v + 1)) with (3 * Z.to_nat v + 1)%nat by lia.
  replace (Z.to_nat (3 * v + 2)) with (3 * Z.to_nat v + 2)%nat by lia.
  rewrite E0, E1, E2. by destruct (cs !! Z.to_nat v) as [[[x y] z]|].
Qed.

Lemma merge_faces_assembled faces : ∀ m,
  assembled m → faces_fit (vertex_count m) faces →
  ∃ m', merge_faces faces m = Some m' ∧ assembled m'.
Proof.
  induction faces as [|face faces IH]; intros m Hm Hfit; [by exists m|].
  simpl in *. destruct (face_triangulation face) as [[tri loc]|]; [|by apply IH].
  destruct Hfit as [Htri Hfit].
  destruct (append_assembled m tri loc
              (bool_decide (face_orientation face = TopAbs_REVERSED)) Hm Htri)
    as (m1 & -> & Hm1 & Hv).
  cbn [mbind option_bind]. apply IH; [done|]. by rewrite Hv.
Qed.

Lemma Forall_flat3 {A} (P : A → Prop) (ts : list (A * A * A)) :
  Forall (λ t, P t.1.1 ∧ P t.1.2 ∧ P t.2) ts → Forall P (flat3 ts).
Proof.
  induction 1 as [|[[x y] z] ts (? & ? & ?) _ IH]; simpl; [done|].
  by repeat constructor.
Qed.

Lemma assembled_normalize m :
  assembled m →
  ∃ m', normalize_normals m = Some m' ∧
    vertices m' = vertices m ∧ indices m' = indices m ∧
    length (normals m') = length (normals m) ∧
    ∀ v, 0 ≤ v < vertex_count m →
      triple_at (normals m) v
        = Some (accumulated_normal (vertices m) (triples (indices m)) v) ∧
      triple_at (normals m') v
        = Some (normalize_vec (accumulated_normal (vertices m) (triples (indices m)) v)).
Proof.
  intros (ps & ns & gts & -> & Hl & Hgts & Hacc). rewrite vertex_count_flat3.
  rewrite normalize_normals_spec by done. eexists. split; [done|].
  cbn [vertices normals indices]. repeat split.
  - by rewrite !length_flat3, length_map.
  - rewrite triple_at_flat3, triples_flat3 by lia.
    destruct (lookup_lt_is_Some_2 ns (Z.to_nat v)) as [c Hc]; [lia|].
    rewrite Hc. f_equal. apply Hacc in Hc. by rewrite Z2Nat.id in Hc by lia.
  - rewrite triple_at_flat3, triples_flat3 by lia.
    destruct (lookup_lt_is_Some_2 ns (Z.to_nat v)) as [c Hc]; [lia|].
    rewrite list_lookup_fmap, Hc. simpl. f_equal. f_equal.
    apply Hacc in Hc. by rewrite Z2Nat.id in Hc by lia.
Qed.

Lemma mesh_shape_flat3 V T out :
  mesh_shape V T out →
  ∃ (ps ns : list vec3) (gts : list index_triple),
    out = mk_Mesh (flat3 ps) (flat3 ns) (flat3 gts) ∧
    length ps = V ∧ length ns = V ∧ length gts = T.
Proof.
  destruct out as [vs ns idx]. intros (Hv & Hn & Hi). simpl in *.
  destruct (flat3_surjective vs V Hv) as (ps & -> & ?).
  destruct (flat3_surjective ns V Hn) as (ns' & -> & ?).
  destruct (flat3_surjective idx T Hi) as (gts & -> & ?).
  by exists ps, ns', gts.
Qed.

(** ** Emitted indices

    C4.  Appending a patch to a buffer of [V] vertices and [T] triangles,
    with the patch fitting behind the buffer (node numbers within the
    patch, no wrap-around of the 32-bit index arithmetic), succeeds, and the
    [k]-th triangle [(n1, n2, n3)] of the patch is emitted as triangle
    [T + k] of the merged buffer with the 0-based global indices
    [(V + n1 - 1, V + n2 - 1, V + n3 - 1)], the first two swapped exactly
    when the winding-reversed flag is set.  The same triangle in a reversed
    and in an unreversed patch thus yields triples whose first two entries
    are swapped relative to each other. *)
Theorem append_triangulation_emits out tri loc rev (V T : nat) :
  mesh_shape V T out → tri_fits (Z.of_nat V) tri →
  ∃ out', append_triangulation out tri loc rev = Some out' ∧
    length (indices out') = (3 * (T + length (triangles tri)))%nat ∧
    ∀ (k : nat) n1 n2 n3, triangles tri !! k = Some (n1, n2, n3) →
      triple_at (indices out') (Z.of_nat (T + k))
      = Some (if rev
              then (Z.of_nat V + n2 - 1, Z.of_nat V + n1 - 1, Z.of_nat V + n3 - 1)
              else (Z.of_nat V + n1 - 1, Z.of_nat V + n2 - 1, Z.of_nat V + n3 - 1)).
Proof.
  intros Hshape Hfit.
  destruct (mesh_shape_flat3 V T out Hshape) as (ps & ns & gts & -> & HV & Hn & HT).
  subst V. rewrite append_triangulation_spec by (done || congruence).
  eexists. split; [done|]. cbn [indices]. rewrite <- flat3_app. split.
  - by rewrite length_flat3, length_app, length_map, HT.
  - intros k n1 n2 n3 Hk. rewrite triple_at_flat3 by lia.
    rewrite Nat2Z.id, <- HT, lookup_app_r by lia.
    replace (length gts + k - length gts)%nat with k by lia.
    rewrite list_lookup_fmap, Hk. simpl. by destruct rev.
Qed.

Lemma take_alter_ge {A} (f : A → A) (l : list A) (n i : nat) :
  (n ≤ i)%nat → take n (alter f i l) = take n l.
Proof.
  intros Hi. apply list_eq. intros j.
  destruct (decide (j < n)%nat).
  - rewrite !lookup_take_lt by done. apply list_lookup_alter_ne. lia.
  - rewrite !lookup_take_ge by lia. done.
Qed.

Lemma take_bump_fold vs (n : nat) ts : ∀ ns : list vec3,
  Forall (λ t : index_triple, Z.of_nat n ≤ t.1.1 ∧ Z.of_nat n ≤ t.1.2 ∧ Z.of_nat n ≤ t.2) ts →
  take n (foldl (bump vs) ns ts) = take n ns.
Proof.
  induction ts as [|t ts IH]; intros ns Hts; [done|].
  apply Forall_cons in Hts as [(? & ? & ?) Hts]. simpl.
  rewrite IH by done. unfold bump. rewrite !take_alter_ge by lia. done.
Qed.

Lemma take_flat3 {A} (n : nat) (cs : list (A * A * A)) :
  take (3 * n) (flat3 cs) = flat3 (take n cs).
Proof.
  revert cs. induction n as [|n IH]; intros [|[[x y] z] cs]; try done.
  replace (3 * S n)%nat with (S (S (S (3 * n)))) by lia. simpl. by rewrite IH.
Qed.

(** ** Appending only appends

    C10.  Appending a patch that fits behind a buffer of [V] vertices and
    [T] triangles leaves the first [3 V] vertex slots, the first [3 V]
    normal slots and the first [3 T] index entries as they were: the
    triangles of the patch accumulate normals only at or above the base
    offset. *)
Theorem append_triangulation_frame out tri loc rev (V T : nat) :
  mesh_shape V T out → tri_fits (Z.of_nat V) tri →
  ∃ out', append_triangulation out tri loc rev = Some out' ∧
    take (3 * V) (vertices out') = vertices out ∧
    take (3 * V) (normals out') = normals out ∧
    take (3 * T) (indices out') = indices out.
Proof.
  intros Hshape Hfit.
  destruct (mesh_shape_flat3 V T out Hshape) as (ps & ns & gts & -> & HV & Hn & HT).
  subst V. rewrite append_triangulation_spec by (done || congruence).
  eexists. split; [done|]. cbn [vertices normals indices].
  destruct Hfit as (_ & _ & _ & Hts).
  rewrite <- flat3_app, !take_flat3. repeat split.
  - by rewrite take_app_length.
  - rewrite take_bump_fold.
    + by rewrite <- Hn, take_app_length.
    + apply Forall_map. eapply Forall_impl; [exact Hts|].
      intros t Ht.
      apply (emitted_below tri (Z.of_nat (length ps)) rev) in Ht; [tauto|lia].
  - by rewrite <- HT, take_app_length.
Qed.

(** [cg_load_stl] assembles its mesh as the merge of a single, unreversed
    face without location. *)
Lemma stl_assembly tri :
  append_triangulation empty_mesh tri identity_location false
  = merge_faces [mk_Face (Some (tri, identity_location)) TopAbs_FORWARD] empty_mesh.
Proof.
  cbn [merge_faces face_triangulation face_orientation].
  rewrite bool_decide_eq_false_2 by done.
  by destruct (append_triangulation empty_mesh tri identity_location false).
Qed.

(** ** The mesh buffer invariant *)

Lemma vec_set_length {A} (v v' : list A) i x :
  vec_set v i x = Some v' → length v' = length v.
Proof.
  unfold vec_set. case_decide; [|done]. intros [= <-]. apply length_insert.
Qed.

Lemma vec_add_length v v' i x : vec_add v i x = Some v' → length v' = length v.
Proof.
  unfold vec_add. destruct (vec_get v i); [|done]. simpl. apply vec_set_length.
Qed.

Lemma copy_nodes_length loc base ps : ∀ i vs vs',
  copy_nodes loc base i ps vs = Some vs' → length vs' = length vs.
Proof.
  induction ps as [|p ps IH]; intros i vs vs'; simpl; [by intros [= <-]|].
  intros H.
  apply bind_Some in H as (v1 & H1 & H). apply bind_Some in H as (v2 & H2 & H).
  apply bind_Some in H as (v3 & H3 & H).
  apply vec_set_length in H1, H2, H3. apply IH in H. congruence.
Qed.

Lemma accumulate_normal_length base fn ns vi ns' :
  accumulate_normal base fn ns vi = Some ns' → length ns' = length ns.
Proof.
  unfold accumulate_normal. intros H.
  apply bind_Some in H as (v1 & H1 & H). apply bind_Some in H as (v2 & H2 & H).
  apply vec_add_length in H1, H2, H. congruence.
Qed.

Lemma add_triangle_inv base rev out t out' :
  add_triangle base rev out t = Some out' →
  vertices out' = vertices out ∧
  length (normals out') = length (normals out) ∧
  indices out' = indices out ++ flat3 [emitted_u32 base rev t].
Proof.
  unfold add_triangle, emitted_u32. destruct (oriented rev t) as [[n1 n2] n3].
  intros H.
  apply bind_Some in H as (fn & _ & H). apply bind_Some in H as (v1 & H1 & H).
  apply bind_Some in H as (v2 & H2 & H). apply bind_Some in H as (v3 & H3 & H).
  injection H as <-. simpl.
  apply accumulate_normal_length in H1, H2, H3. split; [done|]. split; [congruence|done].
Qed.

Lemma copy_triangles_inv base rev ts : ∀ out out',
  copy_triangles base rev ts out = Some out' →
  vertices out' = vertices out ∧
  length (normals out') = length (normals out) ∧
  indices out' = indices out ++ flat3 (map (emitted_u32 base rev) ts).
Proof.
  induction ts as [|t ts IH]; intros out out'; simpl.
  - intros [= <-]. by rewrite app_nil_r.
  - intros H. apply bind_Some in H as (o1 & H1 & H).
    apply add_triangle_inv in H1 as (Ev & En & Ei).
    apply IH in H as (Ev' & En' & Ei').
    split; [congruence|]. split; [congruence|].
    rewrite Ei', Ei, <- app_assoc. f_equal.
    by destruct (emitted_u32 base rev t) as [[??]?].
Qed.

Lemma append_triangulation_inv out tri loc rev out' :
  append_triangulation out tri loc rev = Some out' →
  length (vertices out') = (length (vertices out) + 3 * length (nodes tri))%nat ∧
  length (normals out') = (length (normals out) + 3 * length (nodes tri))%nat ∧
  indices out' = indices out ++
    flat3 (map (emitted_u32 (wrap32 (Z.of_nat (length (vertices out)) / 3)) rev)
             (triangles tri)).
Proof.
  unfold append_triangulation. case_decide as Hint; [|done]. intros H.
  apply bind_Some in H as (vs & Hvs & H).
  apply copy_nodes_length in Hvs. apply copy_triangles_inv in H as (Ev & En & Ei).
  simpl in *. rewrite Ev, En, Hvs, Ei, !length_app, !length_replicate.
  unfold NbNodes. repeat split; lia.
Qed.

Lemma wrap32_bound z : 0 ≤ wrap32 z < 2 ^ 32.
Proof. unfold wrap32. apply Z.mod_pos_bound. lia. Qed.

(** An emitted index is below the new vertex count, wrapped or not. *)
Lemma global_index_below (V N n : Z) :
  0 ≤ V → 1 ≤ n ≤ N → 0 ≤ global_index (wrap32 V) n < V + N.
Proof.
  intros HV Hn. pose proof (wrap32_bound (wrap32 V + wrap32 (n - 1))).
  unfold global_index. split; [lia|].
  destruct (decide (V + N ≤ 2 ^ 32)) as [Hsmall|Hbig]; [|lia].
  rewrite (wrap32_small V), (wrap32_small (n - 1)), wrap32_small by lia. lia.
Qed.

Lemma append_triangulation_bounds out tri loc rev out' (V : nat) :
  append_triangulation out tri loc rev = Some out' →
  length (vertices out) = (3 * V)%nat → same_vertex_count out →
  length (vertices out') = (3 * (V + length (nodes tri)))%nat ∧
  same_vertex_count out' ∧
  (Forall (triangle_ok tri) (triangles tri) → indices_valid out → indices_valid out').
Proof.
  intros H HV Hsame. apply append_triangulation_inv in H as (Ev & En & Ei).
  unfold same_vertex_count, indices_valid, vertex_count in *.
  split; [lia|]. split; [lia|]. intros Hts Hidx.
  rewrite Ei, Ev, HV.
  replace (3 * V + 3 * length (nodes tri))%nat with (3 * (V + length (nodes tri)))%nat by lia.
  rewrite !div3_of_nat in *. apply Forall_app. split.
  - eapply Forall_impl; [exact Hidx|]. simpl. intros i. rewrite HV, div3_of_nat. lia.
  - apply Forall_flat3, Forall_map. eapply Forall_impl; [exact Hts|].
    intros t Ht. apply (oriented_ok tri rev) in Ht. unfold emitted_u32.
    destruct (oriented rev t) as [[n1 n2] n3]. destruct Ht as (H1 & H2 & H3).
    unfold node_ok, NbNodes in *. simpl in *.
    rewrite Nat2Z.inj_add.
    split; [|split]; apply global_index_below; lia.
Qed.

Lemma merge_faces_bounds faces : ∀ out out' (V : nat),
  merge_faces faces out = Some out' →
  length (vertices out) = (3 * V)%nat → same_vertex_count out →
  (∃ V' : nat, length (vertices out') = (3 * V')%nat) ∧
  same_vertex_count out' ∧
  (Forall face_nodes_ok faces → indices_valid out → indices_valid out').
Proof.
  induction faces as [|face faces IH]; intros out out' V; simpl.
  - intros [= <-] HV Hsame. split; [by exists V|]. by split.
  - rewrite Forall_cons. unfold face_nodes_ok at 1.
    destruct (face_triangulation face) as [[tri loc]|] eqn:Hface.
    + intros H HV Hsame. apply bind_Some in H as (o1 & H1 & H).
      destruct (append_triangulation_bounds _ _ _ _ _ V H1 HV Hsame) as (HV1 & Hs1 & Hi1).
      destruct (IH o1 out' _ H HV1 Hs1) as (HV' & Hs' & Hi').
      split; [done|]. split; [done|]. intros [Hts Hrest] Hidx. auto.
    + intros H HV Hsame. destruct (IH out out' V H HV Hsame) as (HV' & Hs' & Hi').
      split; [done|]. split; [done|]. intros [_ Hrest] Hidx. auto.
Qed.

Lemma normalize_loop_length count : ∀ i ns ns',
  normalize_loop count i ns = Some ns' → length ns' = length ns.
Proof.
  induction count as [|count IH]; intros i ns ns'; simpl; [by intros [= <-]|].
  intros H.
  apply bind_Some in H as (nx & _ & H). apply bind_Some in H as (ny & _ & H).
  apply bind_Some in H as (nz & _ & H). apply bind_Some in H as (ns1 & H1 & H).
  apply IH in H. rewrite H.
  destruct (PrimFloat.ltb _ _); [|by injection H1 as <-].
  apply bind_Some in H1 as (v1 & E1 & H1). apply bind_Some in H1 as (v2 & E2 & H1).
  apply vec_set_length in E1, E2, H1. congruence.
Qed.

Lemma normalize_normals_inv m m' :
  normalize_normals m = Some m' →
  vertices m' = vertices m ∧ indices m' = indices m ∧
  length (normals m') = length (normals m).
Proof.
  unfold normalize_normals. intros H. apply bind_Some in H as (ns & Hns & H).
  injection H as <-. simpl. apply normalize_loop_length in Hns. done.
Qed.

(** C9.  Whatever faces are merged from the empty buffer, the merged
    buffer has a vertex array and a normal array of equal length and,
    provided the triangles of every face refer to nodes of the face's own
    triangulation, every emitted index is below the merged vertex count;
    normalization keeps both.  (Wrap-around of the 32-bit indices cannot
    break either: a wrapped index is below 2^32, hence below the count.)
    Under the size bounds of [faces_fit] the merge and the normalization
    are defined, so that such a buffer is produced. *)
Theorem assembly_invariant faces :
  (∀ merged, merge_faces faces empty_mesh = Some merged →
     same_vertex_count merged ∧
     (Forall face_nodes_ok faces → indices_valid merged) ∧
     ∀ m, normalize_normals merged = Some m →
       same_vertex_count m ∧ (Forall face_nodes_ok faces → indices_valid m)) ∧
  (faces_fit 0 faces →
   ∃ merged m, merge_faces faces empty_mesh = Some merged ∧
               normalize_normals merged = Some m).
Proof.
  split.
  - intros merged Hmerge.
    destruct (merge_faces_bounds faces empty_mesh merged 0 Hmerge) as (_ & Hs & Hi);
      [done..|].
    split; [done|]. split; [intros Hok; apply Hi; [done|constructor]|].
    intros m Hm. apply normalize_normals_inv in Hm as (Ev & Ei & En).
    unfold same_vertex_count, indices_valid, vertex_count in *.
    rewrite Ev, Ei, En. split; [done|]. intros Hok. apply Hi; [done|constructor].
  - intros Hfit.
    destruct (merge_faces_assembled faces empty_mesh assembled_empty Hfit)
      as (merged & Hmerge & Hasm).
    destruct (assembled_normalize merged Hasm) as (m & Hnorm & _).
    by exists merged, m.
Qed.

Lemma unit_triangle_fits V : 0 ≤ V ≤ 1000 → tri_fits V unit_triangle.
Proof.
  intros HV. unfold tri_fits, NbNodes, NbTriangles, INT_MAX. simpl.
  repeat split; try lia.
  apply Forall_cons; split; [|constructor].
  unfold triangle_ok, node_ok, NbNodes; simpl; lia.
Qed.

Lemma faces_AB_fit : faces_fit 0 [face_A; unmeshed_face; face_B].
Proof.
  unfold faces_fit, face_A, unmeshed_face, face_B. cbn [face_triangulation].
  split; [apply unit_triangle_fits; lia|].
  split; [apply unit_triangle_fits; unfold NbNodes; simpl; lia | done].
Qed.

Lemma faces_AB_nodes_ok : Forall face_nodes_ok [face_A; unmeshed_face; face_B].
Proof.
  repeat (apply Forall_cons; split); try done; try apply Forall_nil;
    unfold face_nodes_ok; simpl; (apply Forall_cons; split; [|constructor]);
    unfold triangle_ok, node_ok, NbNodes; simpl; lia.
Qed.

(** The theorem at two triangles around an unmeshed face. *)
Lemma assembly_invariant_witness :
  ∃ merged m,
    merge_faces [face_A; unmeshed_face; face_B] empty_mesh = Some merged ∧
    normalize_normals merged = Some m ∧
    (same_vertex_count merged ∧ indices_valid merged) ∧
    (same_vertex_count m ∧ indices_valid m).
Proof.
  destruct (assembly_invariant [face_A; unmeshed_face; face_B]) as [Hinv Hdefined].
  destruct (Hdefined faces_AB_fit) as (merged & m & Hmerge & Hnorm).
  destruct (Hinv merged Hmerge) as (Hs & Hi & Hm).
  destruct (Hm m Hnorm) as (Hs' & Hi').
  exists merged, m. split; [exact Hmerge|]. split; [exact Hnorm|].
  split; (split; [assumption|]); [apply Hi | apply Hi']; exact faces_AB_nodes_ok.
Defined.

(** ** Vertex normals

    C6, amended.  After assembly, the normal of every vertex is its
    accumulated sum (the face normals of the triangles touching the vertex,
    added in triangle order) divided by the sum's magnitude when the
    magnitude exceeds the threshold 1e-12, and the accumulated sum itself,
    unchanged, otherwise; in particular a vertex whose accumulated sum is
    the zero vector keeps the normal (0,0,0). *)
Theorem normals_after_assembly faces :
  faces_fit 0 faces →
  ∃ merged m,
    merge_faces faces empty_mesh = Some merged ∧
    normalize_normals merged = Some m ∧
    vertices m = vertices merged ∧ indices m = indices merged ∧
    ∀ v, 0 ≤ v < vertex_count m →
      ∃ nx ny nz,
        accumulated_normal (vertices m) (triples (indices m)) v = (nx, ny, nz) ∧
        triple_at (normals merged) v = Some (nx, ny, nz) ∧
        let len := PrimFloat.sqrt (nx * nx + ny * ny + nz * nz)%float in
        triple_at (normals m) v
        = Some (if PrimFloat.ltb normal_threshold len
                then (nx / len, ny / len, nz / len)%float
                else (nx, ny, nz)) ∧
        ((nx, ny, nz) = (0, 0, 0)%float →
         triple_at (normals m) v = Some (0, 0, 0)%float).
Proof.
  intros Hfit.
  destruct (merge_faces_assembled faces empty_mesh assembled_empty Hfit)
    as (merged & Hmerge & Hasm).
  destruct (assembled_normalize merged Hasm) as (m & Hnorm & Hv & Hi & Hn & Hacc).
  exists merged, m. repeat (split; [done|]).
  intros v Hrange. unfold vertex_count in Hrange. rewrite Hv in Hrange.
  destruct (Hacc v Hrange) as [Hm1 Hm2]. rewrite Hv, Hi.
  destruct (accumulated_normal (vertices merged) (triples (indices merged)) v)
    as [[nx ny] nz] eqn:Hs.
  exists nx, ny, nz. split; [done|]. split; [done|].
  split; [exact Hm2|]. intros [= -> -> ->]. exact Hm2.
Qed.

(** The theorem at two triangles around an unmeshed face. *)
Lemma normals_after_assembly_witness :
  ∃ merged m,
    merge_faces [face_A; unmeshed_face; face_B] empty_mesh = Some merged ∧
    normalize_normals merged = Some m ∧
    vertices m = vertices merged ∧ indices m = indices merged ∧
    ∀ v, 0 ≤ v < vertex_count m →
      ∃ nx ny nz,
        accumulated_normal (vertices m) (triples (indices m)) v = (nx, ny, nz) ∧
        triple_at (normals merged) v = Some (nx, ny, nz) ∧
        let len := PrimFloat.sqrt (nx * nx + ny * ny + nz * nz)%float in
        triple_at (normals m) v
        = Some (if PrimFloat.ltb normal_threshold len
                then (nx / len, ny / len, nz / len)%float
                else (nx, ny, nz)) ∧
        ((nx, ny, nz) = (0, 0, 0)%float →
         triple_at (normals m) v = Some (0, 0, 0)%float).
Proof. apply (normals_after_assembly [face_A; unmeshed_face; face_B]), faces_AB_fit. Defined.

(** C6, as stated, fails: a triangle with legs of length 2^-24 has the
    cross product (0, 0, 2^-48), of magnitude below the threshold; its
    corners keep this normal, which is neither (0,0,0) nor of unit length. *)
Lemma tiny_triangle_normal_kept :
  ∃ merged m,
    merge_faces [tiny_face] empty_mesh = Some merged ∧
    normalize_normals merged = Some m ∧
    ∃ nx ny nz,
      triple_at (normals merged) 0 = Some (nx, ny, nz) ∧
      PrimFloat.ltb normal_threshold
        (PrimFloat.sqrt (nx * nx + ny * ny + nz * nz)%float) = false ∧
      triple_at (normals m) 0 = Some (nx, ny, nz) ∧
      (nx, ny, nz) ≠ (0, 0, 0)%float.
Proof.
  eexists _, _. split; [vm_compute; reflexivity|]. split; [vm_compute; reflexivity|].
  eexists _, _, _. split; [vm_compute; reflexivity|]. split; [vm_compute; reflexivity|].
  split; [vm_compute; reflexivity|]. vm_compute. discriminate.
Qed.

(** The example of the specification: patch A, and the same triangle
    translated and winding-reversed as patch B, give 6 vertices, 2
    triangles, and B's first two indices swapped. *)
Example two_patches_example :
  ∃ m, merge_faces [face_A; face_B] empty_mesh = Some m ∧
       vertex_count m = 6 ∧ triangle_count m = 2 ∧
       indices m = [0; 1; 2; 4; 3; 5].
Proof. eexists. split; [vm_compute; reflexivity|]. by vm_compute. Qed.

(** ** Faces without triangles

    C5, amended.  A face whose triangulation is a null handle is skipped:
    the merged buffer stays as it was.  A face with a triangulation that
    has nodes but no triangles emits no index, and its nodes are appended
    as vertices, with zero normals. *)
Theorem untriangulated_face_contribution out face (V T : nat) :
  mesh_shape V T out → faces_fit (Z.of_nat V) [face] →
  (∀ tri loc, face_triangulation face = Some (tri, loc) → triangles tri = []) →
  ∃ out', merge_faces [face] out = Some out' ∧ indices out' = indices out ∧
    match face_triangulation face with
    | None => out' = out
    | Some (tri, loc) =>
        vertices out' = vertices out ++ flat3 (map (place loc) (nodes tri)) ∧
        normals out' = normals out ++ replicate (3 * length (nodes tri)) 0%float
    end.
Proof.
  intros Hshape Hfit Hempty. cbn [merge_faces faces_fit] in *.
  destruct (face_triangulation face) as [[tri loc]|]; [|by exists out].
  destruct Hfit as [Hfit _]. specialize (Hempty tri loc eq_refl).
  destruct (mesh_shape_flat3 V T out Hshape) as (ps & ns & gts & -> & HV & Hn & HT).
  subst V. rewrite append_triangulation_spec by (done || congruence).
  cbn [mbind option_bind]. eexists. split; [done|].
  cbn [vertices normals indices]. rewrite Hempty. simpl.
  rewrite !flat3_app, flat3_replicate, app_nil_r. done.
Qed.

(** The theorem at an unmeshed face. *)
Lemma untriangulated_face_contribution_witness :
  ∃ out', merge_faces [unmeshed_face] empty_mesh = Some out' ∧
    indices out' = indices empty_mesh ∧ out' = empty_mesh.
Proof.
  apply (untriangulated_face_contribution empty_mesh unmeshed_face 0 0);
    [done | done | intros ? ? [=]].
Defined.

(** C5, as stated, fails: a triangulation of one node and no triangle adds
    the node to the vertex list. *)
Lemma empty_patch_adds_vertices :
  triangles lonely_node = [] ∧
  ∃ out', merge_faces [lonely_face] empty_mesh = Some out' ∧
          vertices out' ≠ vertices empty_mesh.
Proof.
  split; [done|]. eexists. split; [vm_compute; reflexivity|]. discriminate.
Qed.

Lemma mesh_A_shape : mesh_shape 3 1 mesh_A.
Proof. done. Qed.

(** The theorem at patch B behind patch A. *)
Lemma append_triangulation_emits_witness :
  ∃ out', append_triangulation mesh_A unit_triangle shifted_by_5 true = Some out' ∧
    length (indices out') = (3 * (1 + length (triangles unit_triangle)))%nat ∧
    ∀ (k : nat) n1 n2 n3, triangles unit_triangle !! k = Some (n1, n2, n3) →
      triple_at (indices out') (Z.of_nat (1 + k))
      = Some (Z.of_nat 3 + n2 - 1, Z.of_nat 3 + n1 - 1, Z.of_nat 3 + n3 - 1).
Proof.
  apply (append_triangulation_emits mesh_A unit_triangle shifted_by_5 true 3 1);
    [exact mesh_A_shape | apply unit_triangle_fits; lia].
Defined.

(** The theorem at patch B behind patch A. *)
Lemma append_triangulation_frame_witness :
  ∃ out', append_triangulation mesh_A unit_triangle shifted_by_5 true = Some out' ∧
    take (3 * 3) (vertices out') = vertices mesh_A ∧
    take (3 * 3) (normals out') = normals mesh_A ∧
    take (3 * 1) (indices out') = indices mesh_A.
Proof.
  apply (append_triangulation_frame mesh_A unit_triangle shifted_by_5 true 3 1);
    [exact mesh_A_shape | apply unit_triangle_fits; lia].
Defined.

Section StoreProperties.
Context {ShapeT MeshT : Type}.

Lemma wrap64_succ a : 0 ≤ a → a + 1 < 2 ^ 64 → wrap64 (a + 1) = a + 1.
Proof. intros. unfold wrap64. apply Z.mod_small. lia. Qed.

Lemma ids_cons (k : id_kind) (id : Z) (l : list (id_kind * Z)) :
  registry_ids ((k, id) :: l)
    = (if decide (k = mesh_buffer_id) then registry_ids l else id :: registry_ids l) ∧
  mesh_buffer_ids ((k, id) :: l)
    = (if decide (k = mesh_buffer_id) then id :: mesh_buffer_ids l else mesh_buffer_ids l).
Proof.
  unfold registry_ids, mesh_buffer_ids. rewrite !filter_cons. simpl.
  destruct (decide (k = mesh_buffer_id)) as [->|Hk].
  - by rewrite decide_False by (intros H; by apply H).
  - by rewrite decide_True by done.
Qed.

(** One operation: the ID it issues, if any, and the counters it leaves. *)
Lemma issued_cons (op : store_op ShapeT MeshT) ops r s :
  ∃ r' s',
    (ids_issued (op :: ops) (r, s) =
       match op with
       | op_store_shape _ => (shape_id, next_id_ r) :: ids_issued ops (r', s')
       | op_store_mesh _ => (mesh_id, next_id_ r) :: ids_issued ops (r', s')
       | op_mesh_store_insert _ => (mesh_buffer_id, g_mesh_next_id s) :: ids_issued ops (r', s')
       | _ => ids_issued ops (r', s')
       end) ∧
    next_id_ r' =
      match op with
      | op_store_shape _ | op_store_mesh _ => wrap64 (next_id_ r + 1)
      | _ => next_id_ r
      end ∧
    g_mesh_next_id s' =
      match op with
      | op_mesh_store_insert _ => wrap64 (g_mesh_next_id s + 1)
      | _ => g_mesh_next_id s
      end.
Proof. destruct op; eexists _, _; (split; [reflexivity|]); done. Qed.

Lemma issued_range (ops : list (store_op ShapeT MeshT)) : ∀ r s,
  1 ≤ next_id_ r → 1 ≤ g_mesh_next_id s →
  next_id_ r + Z.of_nat (length ops) < 2 ^ 64 →
  g_mesh_next_id s + Z.of_nat (length ops) < 2 ^ 64 →
  Forall (λ id, next_id_ r ≤ id < next_id_ r + Z.of_nat (length ops))
    (registry_ids (ids_issued ops (r, s))) ∧
  Forall (λ id, g_mesh_next_id s ≤ id < g_mesh_next_id s + Z.of_nat (length ops))
    (mesh_buffer_ids (ids_issued ops (r, s))).
Proof.
  induction ops as [|op ops IH]; intros r s Hr Hs Hbr Hbs; [by split; constructor|].
  cbn [length] in *.
  destruct (issued_cons op ops r s) as (r' & s' & -> & Er & Es).
  destruct (IH r' s') as [IHr IHs].
  1-4: destruct op; rewrite ?Er, ?Es, ?wrap64_succ by lia; lia.
  rewrite Er in IHr. rewrite Es in IHs.
  destruct op; rewrite ?wrap64_succ in IHr, IHs by lia;
    rewrite ?(proj1 (ids_cons _ _ _)), ?(proj2 (ids_cons _ _ _)); simpl.
  all: split.
  all: repeat (apply Forall_cons; split; [lia|]).
  all: (eapply Forall_impl; [eassumption|]); simpl; intros x Hx;
    rewrite ?wrap64_succ in Hx by lia; lia.
Qed.

Lemma issued_NoDup (ops : list (store_op ShapeT MeshT)) : ∀ r s,
  1 ≤ next_id_ r → 1 ≤ g_mesh_next_id s →
  next_id_ r + Z.of_nat (length ops) < 2 ^ 64 →
  g_mesh_next_id s + Z.of_nat (length ops) < 2 ^ 64 →
  NoDup (registry_ids (ids_issued ops (r, s))) ∧
  NoDup (mesh_buffer_ids (ids_issued ops (r, s))).
Proof.
  induction ops as [|op ops IH]; intros r s Hr Hs Hbr Hbs; [by split; constructor|].
  cbn [length] in *.
  destruct (issued_cons op ops r s) as (r' & s' & -> & Er & Es).
  destruct (IH r' s') as [IHr IHs].
  1-4: destruct op; rewrite ?Er, ?Es, ?wrap64_succ by lia; lia.
  destruct (issued_range ops r' s') as [Rr Rs].
  1-4: destruct op; rewrite ?Er, ?Es, ?wrap64_succ by lia; lia.
  rewrite Er in Rr. rewrite Es in Rs.
  destruct op; rewrite ?wrap64_succ in Rr, Rs by lia;
    rewrite ?(proj1 (ids_cons _ _ _)), ?(proj2 (ids_cons _ _ _)); simpl.
  all: split; try done.
  all: apply NoDup_cons; (split; [|done]).
  all: intros Hin; eapply Forall_forall in Hin; [|eassumption]; simpl in Hin;
    rewrite ?wrap64_succ in Hin by lia; lia.
Qed.

(** C1, amended.  Over every sequence of fewer than 2^64 - 1 store and free
    operations from the initial state, the IDs issued by the handle
    registry are pairwise distinct, shape IDs and registry mesh IDs alike
    (they share one counter); the IDs issued by the mesh-buffer store of
    the C API, which has a counter of its own, are pairwise distinct among
    themselves; and no issued ID is 0.  An ID is thus never issued a second
    time, whether or not its entry was freed in between. *)
Theorem issued_ids_distinct (ops : list (store_op ShapeT MeshT)) :
  1 + Z.of_nat (length ops) < 2 ^ 64 →
  let ids := ids_issued ops (new_registry, new_mesh_store) in
  NoDup (registry_ids ids) ∧ NoDup (mesh_buffer_ids ids) ∧
  Forall (λ e, e.2 ≠ CG_NULL_ID) ids.
Proof.
  intros Hlen ids.
  destruct (issued_NoDup ops new_registry new_mesh_store) as [Hr Hs]; try done.
  destruct (issued_range ops new_registry new_mesh_store) as [Rr Rs]; try done.
  split; [done|]. split; [done|].
  apply Forall_forall. intros [k id] Hin. simpl.
  destruct (decide (k = mesh_buffer_id)) as [->|Hk].
  - eapply Forall_forall in Rs;
      [|apply list_elem_of_fmap; exists (mesh_buffer_id, id); split; [done|];
        by apply list_elem_of_filter]. simpl in Rs. unfold CG_NULL_ID. lia.
  - eapply Forall_forall in Rr;
      [|apply list_elem_of_fmap; exists (k, id); split; [done|];
        by apply list_elem_of_filter]. simpl in Rr. unfold CG_NULL_ID. lia.
Qed.

Lemma emplace_fresh {V} (id : Z) (v : V) (m : gmap Z V) :
  m !! id = None → emplace id v m !! id = Some v.
Proof. intros H. unfold emplace. rewrite H. apply lookup_insert_eq. Qed.

Lemma emplace_preserves {V} (id id' : Z) (v x : V) (m : gmap Z V) :
  m !! id = Some x → emplace id' v m !! id = Some x.
Proof.
  intros H. unfold emplace. destruct (m !! id') eqn:E; [done|].
  rewrite lookup_insert_ne; [done|]. congruence.
Qed.

Lemma registry_step_keeps_shape (c : registry_call ShapeT MeshT) r id x :
  c ≠ call_free_shape id →
  shapes_ r !! id = Some x → shapes_ (registry_step c r).2 !! id = Some x.
Proof.
  intros Hc Hx. destruct c as [s|m|i|i|i|i]; simpl; try done.
  - by apply emplace_preserves.
  - rewrite lookup_delete_ne; [done|]. congruence.
Qed.

Lemma registry_step_keeps_mesh (c : registry_call ShapeT MeshT) r id x :
  c ≠ call_free_mesh id →
  meshes_ r !! id = Some x → meshes_ (registry_step c r).2 !! id = Some x.
Proof.
  intros Hc Hx. destruct c as [s|m|i|i|i|i]; simpl; try done.
  - by apply emplace_preserves.
  - rewrite lookup_delete_ne; [done|]. congruence.
Qed.

Lemma registry_run_cons (c : registry_call ShapeT MeshT) cs r :
  (registry_run (c :: cs) r).2 = (registry_run cs (registry_step c r).2).2.
Proof.
  cbn [registry_run]. destruct (registry_step c r) as [a r1]. cbn [snd].
  by destruct (registry_run cs r1) as [answers r2].
Qed.

Lemma registry_run_keeps_shape (cs : list (registry_call ShapeT MeshT)) : ∀ r id x,
  Forall (λ c, c ≠ call_free_shape id) cs →
  shapes_ r !! id = Some x → shapes_ (registry_run cs r).2 !! id = Some x.
Proof.
  induction cs as [|c cs IH]; intros r id x Hcs Hx; [done|].
  apply Forall_cons in Hcs as [Hc Hcs]. rewrite registry_run_cons.
  apply IH; [done|]. by apply registry_step_keeps_shape.
Qed.

Lemma registry_run_keeps_mesh (cs : list (registry_call ShapeT MeshT)) : ∀ r id x,
  Forall (λ c, c ≠ call_free_mesh id) cs →
  meshes_ r !! id = Some x → meshes_ (registry_run cs r).2 !! id = Some x.
Proof.
  induction cs as [|c cs IH]; intros r id x Hcs Hx; [done|].
  apply Forall_cons in Hcs as [Hc Hcs]. rewrite registry_run_cons.
  apply IH; [done|]. by apply registry_step_keeps_mesh.
Qed.

Lemma shape_lifecycle (r : HandleRegistryBase ShapeT MeshT) id x :
  shapes_ r !! id = Some x →
  get_shape id r = Found x ∧
  (free_shape id r).1 = true ∧
  get_shape id (free_shape id r).2 = NotFound "HandleRegistry: invalid shape ID" ∧
  free_shape id (free_shape id r).2 = (false, (free_shape id r).2).
Proof.
  intros Hx. unfold get_shape, free_shape, erase. simpl.
  rewrite Hx, lookup_delete_eq, delete_delete_eq.
  rewrite bool_decide_eq_true_2 by eauto.
  rewrite bool_decide_eq_false_2 by (by intros [? ?]). done.
Qed.

Lemma mesh_lifecycle (r : HandleRegistryBase ShapeT MeshT) id x :
  meshes_ r !! id = Some x →
  get_mesh id r = Found x ∧
  (free_mesh id r).1 = true ∧
  get_mesh id (free_mesh id r).2 = NotFound "HandleRegistry: invalid mesh ID" ∧
  free_mesh id (free_mesh id r).2 = (false, (free_mesh id r).2).
Proof.
  intros Hx. unfold get_mesh, free_mesh, erase. simpl.
  rewrite Hx, lookup_delete_eq, delete_delete_eq.
  rewrite bool_decide_eq_true_2 by eauto.
  rewrite bool_decide_eq_false_2 by (by intros [? ?]). done.
Qed.

Lemma emplace_is_Some {V} (id k : Z) (v : V) (m : gmap Z V) :
  is_Some (emplace id v m !! k) → k = id ∨ is_Some (m !! k).
Proof.
  unfold emplace. destruct (m !! id) eqn:E; [by right|].
  destruct (decide (k = id)) as [->|Hne]; [by left|].
  rewrite lookup_insert_ne by done. by right.
Qed.

Lemma delete_is_Some {V} (id k : Z) (m : gmap Z V) :
  is_Some (delete id m !! k) → is_Some (m !! k).
Proof.
  destruct (decide (k = id)) as [->|Hne].
  - rewrite lookup_delete_eq. by intros [? ?].
  - by rewrite lookup_delete_ne.
Qed.

Lemma registry_step_inv (c : registry_call ShapeT MeshT) r :
  registry_inv r → next_id_ r + 1 < 2 ^ 64 →
  registry_inv (registry_step c r).2 ∧
  next_id_ r ≤ next_id_ (registry_step c r).2 ≤ next_id_ r + 1.
Proof.
  intros (H1 & Hs & Hm) Hb.
  destruct c as [s|m|i|i|i|i]; unfold registry_inv; simpl;
    rewrite ?wrap64_succ by lia.
  all: (split; [|lia]); (split; [lia|]); split; intros k Hk;
    try apply emplace_is_Some in Hk as [->|Hk];
    try apply delete_is_Some in Hk;
    try lia; try (apply Hs in Hk; lia); try (apply Hm in Hk; lia).
Qed.

Lemma registry_run_inv (cs : list (registry_call ShapeT MeshT)) : ∀ r,
  registry_inv r → next_id_ r + Z.of_nat (length cs) < 2 ^ 64 →
  registry_inv (registry_run cs r).2 ∧
  next_id_ (registry_run cs r).2 ≤ next_id_ r + Z.of_nat (length cs).
Proof.
  induction cs as [|c cs IH]; intros r Hr Hb; [simpl in *; split; [done|lia]|].
  cbn [length] in Hb. rewrite registry_run_cons.
  destruct (registry_step_inv c r Hr) as [Hr1 Hn1]; [lia|].
  destruct (IH (registry_step c r).2 Hr1) as [Hr2 Hn2]; [lia|].
  split; [done|]. cbn [length]. lia.
Qed.

Lemma new_registry_inv :
  registry_inv (new_registry : HandleRegistryBase ShapeT MeshT).
Proof.
  split; [done|]. split; intros k [x Hx]; simpl in Hx;
    by rewrite lookup_empty in Hx.
Qed.

Lemma registry_inv_unused (r : HandleRegistryBase ShapeT MeshT) :
  registry_inv r →
  shapes_ r !! next_id_ r = None ∧ meshes_ r !! next_id_ r = None.
Proof.
  intros (_ & Hs & Hm). split.
  - destruct (shapes_ r !! next_id_ r) eqn:E; [|done].
    assert (is_Some (shapes_ r !! next_id_ r)) as H%Hs by eauto. lia.
  - destruct (meshes_ r !! next_id_ r) eqn:E; [|done].
    assert (is_Some (meshes_ r !! next_id_ r)) as H%Hm by eauto. lia.
Qed.

End StoreProperties.

(** ** The life of an entry

    C2.  In a registry reached from the fresh one by fewer than 2^64 - 1
    calls, an object stored under [id] is what [get] returns for [id] after
    any further calls that do not free [id]; the first free of [id] then
    removes it, after which [get] fails with NotFound and a second free
    returns false, leaving the registry as it is.  The same holds for
    meshes.  At the C API, freeing the null ID leaves the state as it is,
    and a second free of any ID changes nothing the first has not done. *)
Theorem store_get_free_lifecycle {ShapeT MeshT TopoDS_Shape : Type}
    (before during : list (registry_call ShapeT MeshT)) (shape : ShapeT) (mesh : MeshT) :
  1 + Z.of_nat (length before) < 2 ^ 64 →
  let r := (registry_run before new_registry).2 in
  (let id := (store_shape shape r).1 in
   let r' := (registry_run during (store_shape shape r).2).2 in
   Forall (λ c, c ≠ call_free_shape id) during →
   get_shape id r' = Found shape ∧
   (free_shape id r').1 = true ∧
   get_shape id (free_shape id r').2 = NotFound "HandleRegistry: invalid shape ID" ∧
   free_shape id (free_shape id r').2 = (false, (free_shape id r').2)) ∧
  (let id := (store_mesh mesh r).1 in
   let r' := (registry_run during (store_mesh mesh r).2).2 in
   Forall (λ c, c ≠ call_free_mesh id) during →
   get_mesh id r' = Found mesh ∧
   (free_mesh id r').1 = true ∧
   get_mesh id (free_mesh id r').2 = NotFound "HandleRegistry: invalid mesh ID" ∧
   free_mesh id (free_mesh id r').2 = (false, (free_mesh id r').2)) ∧
  (∀ (w : World TopoDS_Shape) (id : Z),
     cg_shape_free CG_NULL_ID w = w ∧ cg_mesh_free CG_NULL_ID w = w ∧
     cg_shape_free id (cg_shape_free id w) = cg_shape_free id w ∧
     cg_mesh_free id (cg_mesh_free id w) = cg_mesh_free id w).
Proof.
  intros Hb r.
  destruct (registry_run_inv before new_registry new_registry_inv) as [Hinv _];
    [simpl; lia|].
  destruct (registry_inv_unused _ Hinv) as [Hs Hm]. fold r in Hs, Hm.
  split; [|split].
  - intros id r' Hduring. apply shape_lifecycle.
    apply registry_run_keeps_shape; [done|].
    simpl. by apply emplace_fresh.
  - intros id r' Hduring. apply mesh_lifecycle.
    apply registry_run_keeps_mesh; [done|].
    simpl. by apply emplace_fresh.
  - intros w id. repeat split; try done.
    + unfold cg_shape_free. destruct (decide (id = CG_NULL_ID)); [done|].
      unfold registry_free_shape, with_registry, free_shape, erase. simpl.
      by rewrite delete_delete_eq.
    + unfold cg_mesh_free. destruct (decide (id = CG_NULL_ID)); [done|].
      unfold with_mesh_store, mesh_store_erase, erase. simpl.
      by rewrite delete_delete_eq.
Qed.

Section CApiProperties.
Context {TopoDS_Shape : Type} (K : Kernel TopoDS_Shape).
Implicit Types w : World TopoDS_Shape.

Lemma set_last_error_reported w msg :
  msg ≠ "" → reported w (set_last_error msg w).
Proof. intros H. by repeat split. Qed.

Lemma append_nonempty (a b : string) : a ≠ "" → a +:+ b ≠ "".
Proof. destruct a; [done|]. intros _. simpl. discriminate. Qed.

Local Hint Resolve set_last_error_reported append_nonempty : core.

Lemma memcpy_fits {A} (dst src : list A) :
  (length src ≤ length dst)%nat → memcpy dst src = Some (src ++ drop (length src) dst).
Proof. intros H. unfold memcpy. by rewrite decide_True. Qed.

Lemma cg_mesh_copy_vertices_contract id out w :
  copy_contract cg_mesh_copy_vertices vertices id out w.
Proof.
  split.
  - intros Hnull. unfold cg_mesh_copy_vertices.
    destruct (bool_decide (id = CG_NULL_ID) || is_null out) eqn:E.
    + eexists. split; [done|]. by apply set_last_error_reported.
    + apply orb_false_elim in E as [E1 E2]. apply bool_decide_eq_false in E1.
      destruct Hnull as [ ? | [ Hn | -> ] ]; [done| |done]. rewrite Hn.
      eexists. split; [done|]. by apply set_last_error_reported.
  - intros mesh dst Hid Hmesh -> Hlen. unfold cg_mesh_copy_vertices.
    rewrite bool_decide_eq_false_2 by done. simpl. rewrite Hmesh. simpl.
    by rewrite memcpy_fits.
Qed.

Lemma cg_mesh_copy_normals_contract id out w :
  copy_contract cg_mesh_copy_normals normals id out w.
Proof.
  split.
  - intros Hnull. unfold cg_mesh_copy_normals.
    destruct (bool_decide (id = CG_NULL_ID) || is_null out) eqn:E.
    + eexists. split; [done|]. by apply set_last_error_reported.
    + apply orb_false_elim in E as [E1 E2]. apply bool_decide_eq_false in E1.
      destruct Hnull as [ ? | [ Hn | -> ] ]; [done| |done]. rewrite Hn.
      eexists. split; [done|]. by apply set_last_error_reported.
  - intros mesh dst Hid Hmesh -> Hlen. unfold cg_mesh_copy_normals.
    rewrite bool_decide_eq_false_2 by done. simpl. rewrite Hmesh. simpl.
    by rewrite memcpy_fits.
Qed.

Lemma cg_mesh_copy_indices_contract id out w :
  copy_contract cg_mesh_copy_indices indices id out w.
Proof.
  split.
  - intros Hnull. unfold cg_mesh_copy_indices.
    destruct (bool_decide (id = CG_NULL_ID) || is_null out) eqn:E.
    + eexists. split; [done|]. by apply set_last_error_reported.
    + apply orb_false_elim in E as [E1 E2]. apply bool_decide_eq_false in E1.
      destruct Hnull as [ ? | [ Hn | -> ] ]; [done| |done]. rewrite Hn.
      eexists. split; [done|]. by apply set_last_error_reported.
  - intros mesh dst Hid Hmesh -> Hlen. unfold cg_mesh_copy_indices.
    rewrite bool_decide_eq_false_2 by done. simpl. rewrite Hmesh. simpl.
    by rewrite memcpy_fits.
Qed.

(** ** The copy functions

    C8.  Each of [cg_mesh_copy_vertices], [cg_mesh_copy_normals] and
    [cg_mesh_copy_indices], given the null handle, a handle absent from the
    mesh store or a null destination, returns [CG_ERR_NULL_HANDLE], leaves
    the destination (and the stores) as they were and sets the message;
    given a live handle and a destination that is large enough, it returns
    [CG_OK] and the destination starts with exactly the stored buffer. *)
Theorem cg_mesh_copy_contract id (out_vertices out_normals : option (list float))
    (out_indices : option (list Z)) w :
  copy_contract cg_mesh_copy_vertices vertices id out_vertices w ∧
  copy_contract cg_mesh_copy_normals normals id out_normals w ∧
  copy_contract cg_mesh_copy_indices indices id out_indices w.
Proof.
  split; [apply cg_mesh_copy_vertices_contract|].
  split; [apply cg_mesh_copy_normals_contract | apply cg_mesh_copy_indices_contract].
Qed.

(** ** Null arguments

    C3, amended.  Given a null handle or a null pointer, every boundary
    operation returns its sentinel and leaves the registry, the mesh store
    and the kernel alone.  The loaders, the bounding box, the tessellation,
    the three copy functions and all stubs also set a non-empty message;
    [cg_mesh_vertex_count], [cg_mesh_triangle_count] and the four free
    functions do not: they return with the state, last-error message
    included, exactly as it was. *)
Theorem null_argument_calls w :
  ((cg_load_step K None w).1 = CG_NULL_ID ∧ reported w (cg_load_step K None w).2) ∧
  (∃ w', cg_load_stl K None w = Some (CG_NULL_ID, w') ∧ reported w w') ∧
  ((cg_shape_bounding_box K CG_NULL_ID w).1 = zero_bbox ∧
   reported w (cg_shape_bounding_box K CG_NULL_ID w).2) ∧
  (∀ chord_tol angle_tol, ∃ w',
     cg_shape_tessellate K CG_NULL_ID chord_tol angle_tol w = Some (CG_NULL_ID, w') ∧
     reported w w') ∧
  (∀ id out, id = CG_NULL_ID ∨ out = None → ∃ w',
     cg_mesh_copy_vertices id out w = Some (CG_ERR_NULL_HANDLE, out, w') ∧
     reported w w') ∧
  (∀ id out, id = CG_NULL_ID ∨ out = None → ∃ w',
     cg_mesh_copy_normals id out w = Some (CG_ERR_NULL_HANDLE, out, w') ∧
     reported w w') ∧
  (∀ id out, id = CG_NULL_ID ∨ out = None → ∃ w',
     cg_mesh_copy_indices id out w = Some (CG_ERR_NULL_HANDLE, out, w') ∧
     reported w w') ∧
  (∀ path, (cg_load_iges path w).1 = CG_NULL_ID ∧ reported w (cg_load_iges path w).2) ∧
  (∀ id, (cg_shape_heal id w).1 = CG_NULL_ID ∧ reported w (cg_shape_heal id w).2) ∧
  (∀ entry, (cg_stub entry w).1 = stub_returns entry ∧ reported w (cg_stub entry w).2) ∧
  cg_mesh_vertex_count CG_NULL_ID w = (0, w) ∧
  cg_mesh_triangle_count CG_NULL_ID w = (0, w) ∧
  cg_shape_free CG_NULL_ID w = w ∧ cg_face_free CG_NULL_ID w = w ∧
  cg_edge_free CG_NULL_ID w = w ∧ cg_mesh_free CG_NULL_ID w = w.
Proof.
  repeat match goal with |- _ ∧ _ => split end; intros; try done;
    try (by apply set_last_error_reported);
    try (eexists; split; [done|]; by apply set_last_error_reported).
  - apply (proj1 (cg_mesh_copy_vertices_contract id out w)). tauto.
  - apply (proj1 (cg_mesh_copy_normals_contract id out w)). tauto.
  - apply (proj1 (cg_mesh_copy_indices_contract id out w)). tauto.
Qed.

Lemma flat3_nil {A} (ts : list (A * A * A)) : flat3 ts = [] ↔ ts = [].
Proof. destruct ts as [|[[x y] z] ts]; split; try done. Qed.

Lemma append_indices m tri loc rev m' :
  assembled m → tri_fits (vertex_count m) tri →
  append_triangulation m tri loc rev = Some m' →
  indices m' = [] ↔ indices m = [] ∧ triangles tri = [].
Proof.
  intros (ps & ns & gts & -> & Hl & _) Hfit. rewrite vertex_count_flat3 in Hfit.
  rewrite append_triangulation_spec by done. intros [= <-]. cbn [indices].
  rewrite <- flat3_app, !flat3_nil. split.
  - intros [-> H]%app_eq_nil. split; [done|]. by apply fmap_nil_inv in H.
  - by intros [-> ->].
Qed.

Lemma merge_faces_indices faces : ∀ m m',
  assembled m → faces_fit (vertex_count m) faces →
  merge_faces faces m = Some m' →
  indices m' = [] ↔ indices m = [] ∧ no_triangles faces.
Proof.
  induction faces as [|face faces IH]; intros m m' Hm Hfit Hmerge.
  - simpl in Hmerge. injection Hmerge as <-. split; [by split; [|constructor]|tauto].
  - cbn [merge_faces faces_fit] in *. unfold no_triangles. rewrite Forall_cons.
    destruct (face_triangulation face) as [[tri loc]|].
    + destruct Hfit as [Htri Hfit].
      destruct (append_assembled m tri loc
                  (bool_decide (face_orientation face = TopAbs_REVERSED)) Hm Htri)
        as (m1 & Happ & Hm1 & Hv).
      rewrite Happ in Hmerge. cbn [mbind option_bind] in Hmerge.
      rewrite (IH m1 m' Hm1) by (done || by rewrite Hv).
      rewrite (append_indices m tri loc _ m1 Hm Htri Happ). unfold no_triangles. tauto.
    + rewrite (IH m m' Hm Hfit Hmerge). unfold no_triangles. tauto.
Qed.

(** ** Tessellation

    C7.  In a state whose mesh counter has not wrapped, and with a kernel
    whose faces fit, [cg_shape_tessellate] returns; in the failure cases
    (the null handle, an unknown shape, a mesher that throws or does not
    complete, a face iteration that throws, no triangle across all faces)
    it returns 0, leaves a non-empty message and stores no mesh; in every
    other case it returns the non-zero ID the mesh store issues and leaves
    the message as it was. *)
Theorem cg_shape_tessellate_sentinel id chord_tol angle_tol w :
  0 < g_mesh_next_id (mesh_store w) < 2 ^ 64 →
  (∀ shape faces,
     registry_get_shape id w = Found shape →
     TopExp_Explorer_faces K shape chord_tol angle_tol = Returns faces →
     faces_fit 0 faces) →
  ∃ r w',
    cg_shape_tessellate K id chord_tol angle_tol w = Some (r, w') ∧
    registry w' = registry w ∧
    (tessellation_fails K id chord_tol angle_tol w →
     r = CG_NULL_ID ∧ g_last_error w' ≠ "" ∧ mesh_store w' = mesh_store w) ∧
    (¬ tessellation_fails K id chord_tol angle_tol w →
     r ≠ CG_NULL_ID ∧ r = g_mesh_next_id (mesh_store w) ∧
     g_last_error w' = g_last_error w).
Proof.
  intros Hcounter Hfit. unfold cg_shape_tessellate, tessellation_fails.
  destruct (decide (id = CG_NULL_ID)) as [Hid|Hid].
  { eexists _, _. split; [done|]. split; [done|]. split; [done|]. tauto. }
  destruct (registry_get_shape id w) as [shape|what] eqn:Hshape.
  2: { eexists _, _. split; [done|]. split; [done|]. split; [done|]. tauto. }
  destruct (BRepMesh_IncrementalMesh K shape chord_tol angle_tol) as [[|]|e].
  2: { eexists _, _. split; [done|]. split; [done|]. split; [done|]. tauto. }
  2: { eexists _, _. split; [done|]. split; [done|]. split; [|tauto].
       intros _. split; [done|]. split; [|done]. destruct e; simpl; by auto. }
  destruct (TopExp_Explorer_faces K shape chord_tol angle_tol) as [faces|e] eqn:Hfaces.
  2: { eexists _, _. split; [done|]. split; [done|]. split; [|tauto].
       intros _. split; [done|]. split; [|done]. destruct e; simpl; by auto. }
  specialize (Hfit shape faces eq_refl Hfaces).
  destruct (merge_faces_assembled faces empty_mesh assembled_empty Hfit)
    as (merged & Hmerge & Hasm).
  pose proof (merge_faces_indices faces empty_mesh merged assembled_empty Hfit Hmerge)
    as Hnil.
  rewrite Hmerge. cbn [mbind option_bind].
  destruct (decide (indices merged = [])) as [Hempty|Hsome].
  { eexists _, _. split; [done|]. split; [done|]. split; [done|].
    intros Hnot. exfalso. apply Hnot. right. by apply Hnil. }
  destruct (assembled_normalize merged Hasm) as (m & -> & _).
  cbn [mbind option_bind mesh_store_insert fetch_add].
  eexists _, _. split; [done|]. split; [done|]. split.
  - intros [?|Hno]; [done|]. exfalso. apply Hsome. apply Hnil. by split.
  - intros _. unfold CG_NULL_ID. simpl. split; [lia|done].
Qed.

End CApiProperties.

(** ** Concrete runs *)

Example cg_load_stl_example :
  cg_load_stl demo_kernel (Some "box.stl") initial_world = Some (1, stl_world).
Proof. reflexivity. Qed.

(** C1, as stated, fails: the first shape stored in the registry and the
    first mesh buffer stored behind the C API both receive the ID 1, as do
    [cg_load_step] and [cg_load_stl] called one after the other. *)
Lemma shape_and_mesh_ids_collide :
  ids_issued [op_store_shape demo_shape; op_mesh_store_insert mesh_A]
    (new_registry : HandleRegistryBase (list TopoDS_Face) OcctMeshHandle, new_mesh_store)
  = [(shape_id, 1); (mesh_buffer_id, 1)] ∧
  (cg_load_step demo_kernel (Some "box.step") initial_world).1 = 1 ∧
  fst <$> cg_load_stl demo_kernel (Some "box.stl") step_world = Some 1.
Proof. split; [reflexivity|]. split; reflexivity. Qed.

(** The theorem at five operations. *)
Lemma issued_ids_distinct_witness :
  let ids := ids_issued
               [op_store_shape 10%nat; op_store_mesh 20%nat; op_free_shape 1;
                op_mesh_store_insert mesh_A; op_store_shape 30%nat]
               (new_registry, new_mesh_store) in
  NoDup (registry_ids ids) ∧ NoDup (mesh_buffer_ids ids) ∧
  Forall (λ e, e.2 ≠ CG_NULL_ID) ids.
Proof.
  apply (issued_ids_distinct
           [op_store_shape 10%nat; op_store_mesh 20%nat; op_free_shape 1;
            op_mesh_store_insert mesh_A; op_store_shape 30%nat]).
  simpl. lia.
Defined.

(** The theorem at a registry that has issued and freed one ID. *)
Lemma store_get_free_lifecycle_witness :
  let before := [call_store_shape 10%nat; call_free_shape 1] in
  let during := [call_get_shape 2; call_store_mesh 20%nat; call_free_shape 1] in
  let r := (registry_run before new_registry).2 in
  (let id := (store_shape 30%nat r).1 in
   let r' := (registry_run during (store_shape 30%nat r).2).2 in
   Forall (λ c, c ≠ call_free_shape id) during →
   get_shape id r' = Found 30%nat ∧
   (free_shape id r').1 = true ∧
   get_shape id (free_shape id r').2 = NotFound "HandleRegistry: invalid shape ID" ∧
   free_shape id (free_shape id r').2 = (false, (free_shape id r').2)) ∧
  (let id := (store_mesh 40%nat r).1 in
   let r' := (registry_run during (store_mesh 40%nat r).2).2 in
   Forall (λ c, c ≠ call_free_mesh id) during →
   get_mesh id r' = Found 40%nat ∧
   (free_mesh id r').1 = true ∧
   get_mesh id (free_mesh id r').2 = NotFound "HandleRegistry: invalid mesh ID" ∧
   free_mesh id (free_mesh id r').2 = (false, (free_mesh id r').2)) ∧
  (∀ (w : World unit) (id : Z),
     cg_shape_free CG_NULL_ID w = w ∧ cg_mesh_free CG_NULL_ID w = w ∧
     cg_shape_free id (cg_shape_free id w) = cg_shape_free id w ∧
     cg_mesh_free id (cg_mesh_free id w) = cg_mesh_free id w).
Proof.
  apply (store_get_free_lifecycle (TopoDS_Shape := unit)
           [call_store_shape 10%nat; call_free_shape 1]
           [call_get_shape 2; call_store_mesh 20%nat; call_free_shape 1]
           30%nat 40%nat).
  simpl. lia.
Defined.

(** C3, as stated, fails: in a fresh process the count queries on the null
    handle return 0 and the last-error message is still empty. *)
Lemma vertex_count_null_is_silent :
  cg_mesh_vertex_count CG_NULL_ID (initial_world : World (list TopoDS_Face))
    = (0, initial_world) ∧
  cg_last_error_message
    (cg_mesh_vertex_count CG_NULL_ID (initial_world : World (list TopoDS_Face))).2 = "" ∧
  cg_mesh_triangle_count CG_NULL_ID (initial_world : World (list TopoDS_Face))
    = (0, initial_world).
Proof. split; [reflexivity|]. split; reflexivity. Qed.

(** The theorem at the shape [cg_load_step] stored. *)
Lemma cg_shape_tessellate_sentinel_witness :
  ∃ r w',
    cg_shape_tessellate demo_kernel 1 0.1 0.5 step_world = Some (r, w') ∧
    registry w' = registry step_world ∧
    (tessellation_fails demo_kernel 1 0.1 0.5 step_world →
     r = CG_NULL_ID ∧ g_last_error w' ≠ "" ∧ mesh_store w' = mesh_store step_world) ∧
    (¬ tessellation_fails demo_kernel 1 0.1 0.5 step_world →
     r ≠ CG_NULL_ID ∧ r = g_mesh_next_id (mesh_store step_world) ∧
     g_last_error w' = g_last_error step_world).
Proof.
  apply (cg_shape_tessellate_sentinel demo_kernel 1 0.1 0.5 step_world).
  - simpl. lia.
  - intros shape faces Hshape Hfaces.
    injection Hshape as <-. injection Hfaces as <-. apply faces_AB_fit.
Defined.

(** The theorem at the mesh [cg_load_stl] stored. *)
Lemma cg_mesh_copy_contract_witness :
  cg_mesh_copy_vertices 1 (Some (replicate 9 0%float)) stl_world
    = Some (CG_OK, Some (vertices mesh_A ++ drop 9 (replicate 9 0%float)), stl_world) ∧
  cg_mesh_copy_indices 1 (Some [7; 7; 7; 7]) stl_world
    = Some (CG_OK, Some (indices mesh_A ++ drop 3 [7; 7; 7; 7]), stl_world).
Proof.
  destruct (cg_mesh_copy_contract 1 (Some (replicate 9 0%float)) None
              (Some [7; 7; 7; 7]) stl_world) as ((_ & Hv) & _ & (_ & Hi)).
  split.
  - apply (Hv mesh_A (replicate 9 0%float)); [done | reflexivity | done | simpl; lia].
  - apply (Hi mesh_A [7; 7; 7; 7]); [done | reflexivity | done | simpl; lia].
Defined.

(** The bound on the number of operations is what the 64-bit counters need:
    the store that receives the ID 2^64 - 1 leaves the counter at 0. *)
Example fetch_add_wraps : fetch_add (2 ^ 64 - 1) 1 = (2 ^ 64 - 1, 0).
Proof. reflexivity. Qed.

(** * Further properties

    ** The registry: counts, kinds, the null ID, the order of the IDs *)

Section RegistryProperties.
Context {ShapeT MeshT : Type}.

Lemma registry_reached (cs : list (registry_call ShapeT MeshT)) :
  1 + Z.of_nat (length cs) < 2 ^ 64 →
  registry_inv (registry_run cs new_registry).2.
Proof.
  intros Hb.
  destruct (registry_run_inv cs new_registry new_registry_inv) as [Hinv _];
    [simpl; lia | done].
Qed.

Lemma erase_absent {V} (id : Z) (m : gmap Z V) :
  m !! id = None → erase id m = (false, m).
Proof.
  intros H. unfold erase. rewrite H, delete_id by done.
  by rewrite bool_decide_eq_false_2 by (by intros [? ?]).
Qed.

(** X1.  In a registry reached from the fresh one by fewer than 2^64 - 1
    calls, a store adds exactly one entry to its own map and none to the
    other; a free that returns true removes exactly one entry of its own
    map, a free that returns false leaves the registry as it is, and
    neither changes the count of the other map. *)
Theorem counts_track_stores_and_frees
    (before : list (registry_call ShapeT MeshT)) (shape : ShapeT) (mesh : MeshT) (id : Z) :
  1 + Z.of_nat (length before) < 2 ^ 64 →
  let r := (registry_run before new_registry).2 in
  (shape_count (store_shape shape r).2 = S (shape_count r) ∧
   mesh_count (store_shape shape r).2 = mesh_count r) ∧
  (mesh_count (store_mesh mesh r).2 = S (mesh_count r) ∧
   shape_count (store_mesh mesh r).2 = shape_count r) ∧
  ((if (free_shape id r).1 then shape_count r = S (shape_count (free_shape id r).2)
    else (free_shape id r).2 = r) ∧
   mesh_count (free_shape id r).2 = mesh_count r) ∧
  ((if (free_mesh id r).1 then mesh_count r = S (mesh_count (free_mesh id r).2)
    else (free_mesh id r).2 = r) ∧
   shape_count (free_mesh id r).2 = shape_count r).
Proof.
  intros Hb r. pose proof (registry_reached before Hb) as Hinv. fold r in Hinv.
  destruct (registry_inv_unused r Hinv) as [Hs Hm].
  unfold shape_count, mesh_count, store_shape, store_mesh, free_shape, free_mesh,
    emplace, erase. simpl. rewrite Hs, Hm.
  split; [by rewrite map_size_insert_None|].
  split; [by rewrite map_size_insert_None|].
  split; (split; [|done]).
  - case_bool_decide as Hid.
    + rewrite map_size_delete_Some by done.
      pose proof (map_size_ne_0_lookup_2 _ _ Hid). lia.
    + destruct r as [n ss ms]. simpl in *. f_equal. apply delete_id.
      by apply eq_None_not_Some.
  - case_bool_decide as Hid.
    + rewrite map_size_delete_Some by done.
      pose proof (map_size_ne_0_lookup_2 _ _ Hid). lia.
    + destruct r as [n ss ms]. simpl in *. f_equal. apply delete_id.
      by apply eq_None_not_Some.
Qed.

Lemma registry_step_absent (c : registry_call ShapeT MeshT) r id :
  registry_inv r → id < next_id_ r →
  (shapes_ r !! id = None → shapes_ (registry_step c r).2 !! id = None) ∧
  (meshes_ r !! id = None → meshes_ (registry_step c r).2 !! id = None).
Proof.
  intros Hinv Hid. destruct (registry_inv_unused r Hinv) as [Hs Hm].
  destruct c as [s|m|i|i|i|i]; simpl; unfold emplace; rewrite ?Hs, ?Hm;
    split; intros H; try done.
  - rewrite lookup_insert_ne by lia. done.
  - rewrite lookup_insert_ne by lia. done.
  - destruct (decide (i = id)) as [->|Hne];
      [apply lookup_delete_eq | by rewrite lookup_delete_ne].
  - destruct (decide (i = id)) as [->|Hne];
      [apply lookup_delete_eq | by rewrite lookup_delete_ne].
Qed.

Lemma registry_run_absent (cs : list (registry_call ShapeT MeshT)) : ∀ r id,
  registry_inv r → next_id_ r + Z.of_nat (length cs) < 2 ^ 64 → id < next_id_ r →
  (shapes_ r !! id = None → shapes_ (registry_run cs r).2 !! id = None) ∧
  (meshes_ r !! id = None → meshes_ (registry_run cs r).2 !! id = None).
Proof.
  induction cs as [|c cs IH]; intros r id Hinv Hb Hid; [done|].
  cbn [length] in Hb. rewrite registry_run_cons.
  destruct (registry_step_inv c r Hinv) as [Hinv1 Hn1]; [lia|].
  destruct (registry_step_absent c r id Hinv Hid) as [Hs1 Hm1].
  destruct (IH (registry_step c r).2 id Hinv1) as [Hs2 Hm2]; [lia..|].
  split; auto.
Qed.

Lemma free_shape_absent (r : HandleRegistryBase ShapeT MeshT) id :
  shapes_ r !! id = None → free_shape id r = (false, r).
Proof.
  intros H. unfold free_shape. rewrite erase_absent by done. by destruct r.
Qed.

Lemma free_mesh_absent (r : HandleRegistryBase ShapeT MeshT) id :
  meshes_ r !! id = None → free_mesh id r = (false, r).
Proof.
  intros H. unfold free_mesh. rewrite erase_absent by done. by destruct r.
Qed.

(** X2.  The two maps are isolated.  While the counter has not wrapped,
    the ID a shape was stored under is unknown to [get_mesh] and
    [free_mesh], whatever calls follow the store, and the ID of a mesh is
    unknown to [get_shape] and [free_shape]: the lookup fails and the free
    returns false and changes nothing. *)
Theorem ids_are_bound_to_their_kind
    (before during : list (registry_call ShapeT MeshT)) (shape : ShapeT) (mesh : MeshT) :
  2 + Z.of_nat (length before) + Z.of_nat (length during) < 2 ^ 64 →
  let r := (registry_run before new_registry).2 in
  (let id := (store_shape shape r).1 in
   let r' := (registry_run during (store_shape shape r).2).2 in
   get_mesh id r' = NotFound "HandleRegistry: invalid mesh ID" ∧
   free_mesh id r' = (false, r')) ∧
  (let id := (store_mesh mesh r).1 in
   let r' := (registry_run during (store_mesh mesh r).2).2 in
   get_shape id r' = NotFound "HandleRegistry: invalid shape ID" ∧
   free_shape id r' = (false, r')).
Proof.
  intros Hb r.
  destruct (registry_run_inv before new_registry new_registry_inv) as [Hinv Hn];
    [simpl; lia|]. fold r in Hinv, Hn. simpl in Hn.
  destruct (registry_inv_unused r Hinv) as [Hs Hm].
  split.
  - intros id r'.
    destruct (registry_step_inv (call_store_shape shape) r Hinv) as [Hinv1 Hn1]; [lia|].
    simpl in Hinv1, Hn1.
    assert (Hnext : next_id_ (store_shape shape r).2 = next_id_ r + 1).
    { simpl. apply wrap64_succ; destruct Hinv; lia. }
    destruct (registry_run_absent during (store_shape shape r).2 id Hinv1) as [_ Habs];
      [lia | simpl in *; lia |].
    assert (Hid : meshes_ r' !! id = None) by (apply Habs; exact Hm).
    split; [unfold get_mesh; by rewrite Hid | by apply free_mesh_absent].
  - intros id r'.
    destruct (registry_step_inv (call_store_mesh mesh) r Hinv) as [Hinv1 Hn1]; [lia|].
    simpl in Hinv1, Hn1.
    assert (Hnext : next_id_ (store_mesh mesh r).2 = next_id_ r + 1).
    { simpl. apply wrap64_succ; destruct Hinv; lia. }
    destruct (registry_run_absent during (store_mesh mesh r).2 id Hinv1) as [Habs _];
      [lia | simpl in *; lia |].
    assert (Hid : shapes_ r' !! id = None) by (apply Habs; exact Hs).
    split; [unfold get_shape; by rewrite Hid | by apply free_shape_absent].
Qed.

(** X3.  In a registry reached from the fresh one by fewer than 2^64 - 1
    calls the null ID 0 is no key: both lookups of 0 fail and both frees
    of 0 return false and change nothing. *)
Theorem null_id_is_never_stored (cs : list (registry_call ShapeT MeshT)) :
  1 + Z.of_nat (length cs) < 2 ^ 64 →
  let r := (registry_run cs new_registry).2 in
  get_shape CG_NULL_ID r = NotFound "HandleRegistry: invalid shape ID" ∧
  get_mesh CG_NULL_ID r = NotFound "HandleRegistry: invalid mesh ID" ∧
  free_shape CG_NULL_ID r = (false, r) ∧ free_mesh CG_NULL_ID r = (false, r).
Proof.
  intros Hb r. pose proof (registry_reached cs Hb) as (_ & Hs & Hm). fold r in Hs, Hm.
  assert (Es : shapes_ r !! CG_NULL_ID = None).
  { apply eq_None_not_Some. intros H%Hs. unfold CG_NULL_ID in H. lia. }
  assert (Em : meshes_ r !! CG_NULL_ID = None).
  { apply eq_None_not_Some. intros H%Hm. unfold CG_NULL_ID in H. lia. }
  unfold get_shape, get_mesh. rewrite Es, Em.
  split; [done|]. split; [done|].
  split; [by apply free_shape_absent | by apply free_mesh_absent].
Qed.

Lemma issued_sequence (ops : list (store_op ShapeT MeshT)) : ∀ r s,
  0 ≤ next_id_ r → 0 ≤ g_mesh_next_id s →
  next_id_ r + Z.of_nat (length ops) < 2 ^ 64 →
  g_mesh_next_id s + Z.of_nat (length ops) < 2 ^ 64 →
  registry_ids (ids_issued ops (r, s))
    = seqZ (next_id_ r) (Z.of_nat (length (registry_ids (ids_issued ops (r, s))))) ∧
  mesh_buffer_ids (ids_issued ops (r, s))
    = seqZ (g_mesh_next_id s)
        (Z.of_nat (length (mesh_buffer_ids (ids_issued ops (r, s))))).
Proof.
  induction ops as [|op ops IH]; intros r s Hr Hs Hbr Hbs; [done|].
  cbn [length] in Hbr, Hbs.
  destruct (issued_cons op ops r s) as (r' & s' & -> & Er & Es).
  destruct (IH r' s') as [IHr IHs].
  1-4: destruct op; rewrite ?Er, ?Es, ?wrap64_succ by lia; lia.
  rewrite Er in IHr. rewrite Es in IHs.
  destruct op; rewrite ?wrap64_succ in IHr, IHs by lia;
    rewrite ?(proj1 (ids_cons _ _ _)), ?(proj2 (ids_cons _ _ _)); simpl;
    try (split; assumption).
  all: split; try assumption.
  all: cbn [length]; rewrite seqZ_cons by lia; f_equal;
    rewrite Nat2Z.inj_succ, Z.pred_succ.
  all: rewrite ?(wrap64_succ (next_id_ r)) in IHr by lia;
    rewrite ?(wrap64_succ (g_mesh_next_id s)) in IHs by lia; assumption.
Qed.

(** X4.  Over fewer than 2^64 - 1 store and free operations from the
    initial state, the IDs the registry issues are 1, 2, 3, ... in the
    order of its stores, shapes and meshes counted together, and the IDs
    of the mesh data store are 1, 2, 3, ... in the order of its inserts:
    a free never makes an ID available again. *)
Theorem ids_are_issued_in_sequence (ops : list (store_op ShapeT MeshT)) :
  1 + Z.of_nat (length ops) < 2 ^ 64 →
  let ids := ids_issued ops (new_registry, new_mesh_store) in
  registry_ids ids = seqZ 1 (Z.of_nat (length (registry_ids ids))) ∧
  mesh_buffer_ids ids = seqZ 1 (Z.of_nat (length (mesh_buffer_ids ids))).
Proof.
  intros Hb ids. by apply (issued_sequence ops new_registry new_mesh_store).
Qed.

End RegistryProperties.

(** ** Mesh assembly: positions, layout, locality *)

Lemma merge_faces_counts faces : ∀ out m,
  merge_faces faces out = Some m →
  Z.of_nat (length (vertices m))
    = Z.of_nat (length (vertices out)) + 3 * total_nodes faces ∧
  Z.of_nat (length (normals m))
    = Z.of_nat (length (normals out)) + 3 * total_nodes faces ∧
  Z.of_nat (length (indices m))
    = Z.of_nat (length (indices out)) + 3 * total_triangles faces.
Proof.
  induction faces as [|face faces IH]; intros out m; simpl.
  - intros [= <-]. lia.
  - destruct (face_triangulation face) as [[tri loc]|]; [|apply IH].
    intros H. apply bind_Some in H as (o1 & H1 & H).
    apply append_triangulation_inv in H1 as (Ev & En & Ei).
    apply IH in H as (Ev' & En' & Ei').
    rewrite Ev', En', Ei', Ev, En, Ei, length_app, length_flat3, length_map.
    unfold NbNodes, NbTriangles. lia.
Qed.

Lemma total_triangles_positive faces :
  ¬ no_triangles faces → 1 ≤ total_triangles faces.
Proof.
  induction faces as [|face faces IH]; unfold no_triangles; simpl.
  - intros H. destruct H. constructor.
  - rewrite Forall_cons. intros H.
    assert (Hrest : 0 ≤ total_triangles faces).
    { clear. induction faces as [|f fs IHf]; simpl; [lia|].
      destruct (face_triangulation f) as [[tri loc]|]; unfold NbTriangles; lia. }
    destruct (face_triangulation face) as [[tri loc]|].
    + destruct (triangles tri) as [|t ts] eqn:Et.
      * unfold NbTriangles. rewrite Et. simpl. apply IH. tauto.
      * unfold NbTriangles. rewrite Et. cbn [length]. lia.
    + apply IH. tauto.
Qed.

Lemma faces_fit_nodes_ok faces : ∀ V, faces_fit V faces → Forall face_nodes_ok faces.
Proof.
  induction faces as [|face faces IH]; intros V Hfit; [constructor|].
  cbn [faces_fit] in Hfit. apply Forall_cons. unfold face_nodes_ok at 1.
  destruct (face_triangulation face) as [[tri loc]|].
  - destruct Hfit as [(_ & _ & _ & Hts) Hfit]. split; [done|]. by eapply IH.
  - split; [done|]. by eapply IH.
Qed.

Lemma total_nodes_nonneg faces : 0 ≤ total_nodes faces ∧ 0 ≤ total_triangles faces.
Proof.
  induction faces as [|f fs [IH1 IH2]]; simpl; [lia|].
  destruct (face_triangulation f) as [[tri loc]|]; unfold NbNodes, NbTriangles; lia.
Qed.

Lemma merge_faces_well_shaped faces m :
  merge_faces faces empty_mesh = Some m → well_shaped m.
Proof.
  intros H. destruct (merge_faces_counts faces empty_mesh m H) as (Hv & Hn & Hi).
  destruct (total_nodes_nonneg faces) as [H1 H2]. simpl in Hv, Hn, Hi.
  exists (Z.to_nat (total_nodes faces)), (Z.to_nat (total_triangles faces)).
  unfold mesh_shape. lia.
Qed.

Lemma normalize_normals_well_shaped m m' :
  normalize_normals m = Some m' → well_shaped m → well_shaped m'.
Proof.
  intros H (V & T & Hv & Hn & Hi). apply normalize_normals_inv in H as (Ev & Ei & En).
  exists V, T. unfold mesh_shape. by rewrite Ev, Ei, En.
Qed.

Lemma normalize_normals_valid m m' :
  normalize_normals m = Some m' → indices_valid m → indices_valid m'.
Proof.
  intros H Hvalid. apply normalize_normals_inv in H as (Ev & Ei & En).
  unfold indices_valid, vertex_count in *. by rewrite Ev, Ei.
Qed.

Lemma merge_faces_valid faces m :
  merge_faces faces empty_mesh = Some m → Forall face_nodes_ok faces → indices_valid m.
Proof.
  intros H Hok.
  destruct (merge_faces_bounds faces empty_mesh m 0 H) as (_ & _ & Hvalid); [done..|].
  apply Hvalid; [done|constructor].
Qed.

(** X5.  Appending a patch that fits behind a buffer of [V] vertices and
    [T] triangles gives a buffer of [V] plus the patch's nodes vertices
    and [T] plus the patch's triangles triangles, in which vertex [V + k]
    holds the coordinates of node [k + 1] of the patch, moved by the
    face's location unless the location is the identity. *)
Theorem append_triangulation_places_nodes out tri loc rev (V T : nat) :
  mesh_shape V T out → tri_fits (Z.of_nat V) tri →
  ∃ out', append_triangulation out tri loc rev = Some out' ∧
    mesh_shape (V + length (nodes tri)) (T + length (triangles tri)) out' ∧
    ∀ (k : nat) p, nodes tri !! k = Some p →
      triple_at (vertices out') (Z.of_nat (V + k))
      = Some (let q := if IsIdentity loc then p else Transformation loc p in
              (pnt_X q, pnt_Y q, pnt_Z q)).
Proof.
  intros Hshape Hfit.
  destruct (mesh_shape_flat3 V T out Hshape) as (ps & ns & gts & -> & HV & Hn & HT).
  subst V. rewrite append_triangulation_spec by (done || congruence).
  eexists. split; [done|]. unfold mesh_shape. cbn [vertices normals indices].
  split.
  - rewrite <- flat3_app, !length_flat3, length_bump_fold, !length_app,
      !length_map, length_replicate. lia.
  - intros k p Hk. rewrite triple_at_flat3 by lia.
    rewrite Nat2Z.id, lookup_app_r by lia.
    replace (length ps + k - length ps)%nat with k by lia.
    rewrite list_lookup_fmap, Hk. simpl. unfold place. by destruct (IsIdentity loc).
Qed.

Lemma merge_faces_layout_from faces : ∀ (ps ns : list vec3) (gts : list index_triple),
  length ns = length ps → faces_fit (Z.of_nat (length ps)) faces →
  ∃ ns' : list vec3,
    merge_faces faces (mk_Mesh (flat3 ps) (flat3 ns) (flat3 gts))
    = Some (mk_Mesh (flat3 (ps ++ merged_vertices faces)) (flat3 ns')
              (flat3 (gts ++ merged_triangles (Z.of_nat (length ps)) faces))) ∧
    length ns' = length (ps ++ merged_vertices faces).
Proof.
  induction faces as [|face faces IH]; intros ps ns gts Hl Hfit.
  - exists ns. simpl. rewrite !app_nil_r. done.
  - cbn [merge_faces faces_fit merged_vertices merged_triangles] in *.
    destruct (face_triangulation face) as [[tri loc]|]; [|by apply IH].
    destruct Hfit as [Htri Hfit].
    rewrite append_triangulation_spec by done. cbn [mbind option_bind].
    rewrite <- flat3_app.
    edestruct (IH (ps ++ map (place loc) (nodes tri))) as (ns' & -> & Hl').
    + rewrite length_bump_fold, !length_app, length_replicate, length_map. lia.
    + rewrite length_app, length_map, Nat2Z.inj_add. exact Hfit.
    + exists ns'. rewrite <- !app_assoc.
      rewrite length_app, length_map, Nat2Z.inj_add. split; [done|].
      rewrite Hl', !length_app, length_map. lia.
Qed.

(** X6.  Merging faces that fit into the empty buffer gives the world
    positions of the nodes of all meshed faces, in face order, as
    vertices, and the triangles of all meshed faces, in face order, as
    indices: each face's node numbers made 0-based and offset by the
    number of nodes of the meshed faces before it, the first two swapped
    for a [TopAbs_REVERSED] face and for no other orientation. *)
Theorem merge_faces_layout faces :
  faces_fit 0 faces →
  ∃ m, merge_faces faces empty_mesh = Some m ∧
    vertices m = flat3 (merged_vertices faces) ∧
    indices m = flat3 (merged_triangles 0 faces) ∧
    length (normals m) = length (vertices m).
Proof.
  intros Hfit.
  destruct (merge_faces_layout_from faces [] [] [] eq_refl Hfit) as (ns' & H & Hl).
  eexists. split; [exact H|]. cbn [vertices normals indices].
  split; [done|]. split; [done|]. by rewrite !length_flat3, Hl.
Qed.

Lemma emitted_shift V rev t : emitted V rev t = shift_triple V (emitted 0 rev t).
Proof.
  unfold emitted, shift_triple. destruct (oriented rev t) as [[n1 n2] n3]. simpl.
  f_equal; [f_equal|]; lia.
Qed.

Lemma flat3_shift V (ts : list index_triple) :
  flat3 (map (shift_triple V) ts) = map (λ i, i + V) (flat3 ts).
Proof. induction ts as [|[[a b] c] ts IH]; simpl; [done|]. by rewrite IH. Qed.

Lemma flat3_inj {A} (ts1 ts2 : list (A * A * A)) : flat3 ts1 = flat3 ts2 → ts1 = ts2.
Proof. intros H. by rewrite <- (triples_flat3 ts1), <- (triples_flat3 ts2), H. Qed.

Lemma tri_fits_mono V V' tri : 0 ≤ V' ≤ V → tri_fits V tri → tri_fits V' tri.
Proof. intros HV (H1 & H2 & H3 & H4). unfold tri_fits. repeat split; (done || lia). Qed.

Lemma faces_fit_mono faces : ∀ V V', 0 ≤ V' ≤ V → faces_fit V faces → faces_fit V' faces.
Proof.
  induction faces as [|face faces IH]; intros V V' HV; [done|]. cbn [faces_fit].
  destruct (face_triangulation face) as [[tri loc]|]; [|by apply IH].
  intros [Htri Hfit]. split; [by eapply tri_fits_mono|].
  apply (IH (V + NbNodes tri)); [unfold NbNodes; lia | done].
Qed.

Lemma faces_fit_app faces1 : ∀ V faces2,
  faces_fit V (faces1 ++ faces2) ↔
  faces_fit V faces1 ∧ faces_fit (V + total_nodes faces1) faces2.
Proof.
  induction faces1 as [|face faces1 IH]; intros V faces2; cbn [app faces_fit total_nodes].
  - rewrite Z.add_0_r. tauto.
  - destruct (face_triangulation face) as [[tri loc]|]; [|apply IH].
    rewrite IH, Z.add_assoc. tauto.
Qed.

(** A triangle's contribution behind [ps] is its contribution within its
    own patch. *)
Lemma bump_shift (ps pl ns zs : list vec3) (t : index_triple) :
  length ns = length ps → triple_below (Z.of_nat (length pl)) t →
  bump (flat3 (ps ++ pl)) (ns ++ zs) (shift_triple (Z.of_nat (length ps)) t)
  = ns ++ bump (flat3 pl) zs t.
Proof.
  intros Hl ([] & [] & []). unfold bump.
  assert (Hfn : face_normal_of (flat3 (ps ++ pl)) (shift_triple (Z.of_nat (length ps)) t)
                = face_normal_of (flat3 pl) t).
  { unfold face_normal_of, shift_triple. cbn [fst snd].
    destruct (lookup_lt_is_Some_2 pl (Z.to_nat t.1.1)) as [a Ha]; [lia|].
    destruct (lookup_lt_is_Some_2 pl (Z.to_nat t.1.2)) as [b Hb]; [lia|].
    destruct (lookup_lt_is_Some_2 pl (Z.to_nat t.2)) as [c Hc]; [lia|].
    rewrite (face_normal_flat3 pl _ _ _ a b c) by done.
    rewrite (face_normal_flat3 (ps ++ pl) _ _ _ a b c); [done|lia..| | |].
    all: rewrite lookup_app_r by lia.
    all: match goal with |- ?l !! ?i = Some ?x =>
           match goal with H : l !! ?j = Some x |- _ =>
             replace i with j by lia; exact H end end. }
  rewrite Hfn. unfold shift_triple. cbn [fst snd].
  replace (Z.to_nat (t.1.1 + Z.of_nat (length ps)))
    with (length ns + Z.to_nat t.1.1)%nat by lia.
  replace (Z.to_nat (t.1.2 + Z.of_nat (length ps)))
    with (length ns + Z.to_nat t.1.2)%nat by lia.
  replace (Z.to_nat (t.2 + Z.of_nat (length ps)))
    with (length ns + Z.to_nat t.2)%nat by lia.
  by rewrite !alter_app_r.
Qed.

Lemma bump_fold_shift (ps pl ns : list vec3) ts : ∀ zs : list vec3,
  length ns = length ps → Forall (triple_below (Z.of_nat (length pl))) ts →
  foldl (bump (flat3 (ps ++ pl))) (ns ++ zs) (map (shift_triple (Z.of_nat (length ps))) ts)
  = ns ++ foldl (bump (flat3 pl)) zs ts.
Proof.
  induction ts as [|t ts IH]; intros zs Hl Hts; [done|].
  apply Forall_cons in Hts as [Ht Hts]. simpl.
  rewrite bump_shift by done. by apply IH.
Qed.

(** Appending a patch behind a buffer gives the buffer followed by the
    patch appended to the empty buffer, its indices moved up. *)
Lemma append_triangulation_local (ps ns : list vec3) (gts : list index_triple)
    tri loc rev :
  length ns = length ps → tri_fits (Z.of_nat (length ps)) tri →
  ∃ (pl nl : list vec3) (el : list index_triple),
    length pl = length (nodes tri) ∧ length nl = length pl ∧
    append_triangulation empty_mesh tri loc rev
      = Some (mk_Mesh (flat3 pl) (flat3 nl) (flat3 el)) ∧
    append_triangulation (mk_Mesh (flat3 ps) (flat3 ns) (flat3 gts)) tri loc rev
      = Some (mk_Mesh (flat3 (ps ++ pl)) (flat3 (ns ++ nl))
                (flat3 (gts ++ map (shift_triple (Z.of_nat (length ps))) el))).
Proof.
  intros Hl Hfit.
  assert (Hfit0 : tri_fits 0 tri) by (eapply tri_fits_mono; [|exact Hfit]; lia).
  pose proof (append_triangulation_spec [] [] [] tri loc rev eq_refl Hfit0) as H0.
  pose proof (append_triangulation_spec ps ns (flat3 gts) tri loc rev Hl Hfit) as H1.
  cbn zeta in H0, H1. cbn [length app] in H0.
  change (mk_Mesh (flat3 []) (flat3 []) []) with empty_mesh in H0.
  set (pl := map (place loc) (nodes tri)) in *.
  set (el := map (emitted 0 rev) (triangles tri)) in *.
  exists pl, (foldl (bump (flat3 pl)) (replicate (length (nodes tri)) (0, 0, 0)%float) el), el.
  split; [by unfold pl; rewrite length_map|].
  split; [by rewrite length_bump_fold, length_replicate; unfold pl; rewrite length_map|].
  split; [exact H0|]. rewrite H1. f_equal. f_equal.
  - f_equal.
    replace (map (emitted (Z.of_nat (length ps)) rev) (triangles tri))
      with (map (shift_triple (Z.of_nat (length ps))) el).
    + apply bump_fold_shift; [done|].
      unfold el. apply Forall_map. destruct Hfit as (_ & _ & _ & Hts).
      eapply Forall_impl; [exact Hts|]. intros t Ht.
      destruct (emitted_below tri 0 rev t) as [Hb _]; [lia | done |].
      unfold pl. rewrite length_map. by rewrite Z.add_0_l in Hb.
    + unfold el. rewrite map_map. apply map_ext. intros t. by rewrite <- emitted_shift.
  - rewrite flat3_app. f_equal. f_equal.
    unfold el. rewrite map_map. apply map_ext. intros t. apply emitted_shift.
Qed.

Lemma merge_faces_local faces : ∀ (ps ns : list vec3) (gts : list index_triple),
  length ns = length ps → faces_fit (Z.of_nat (length ps)) faces →
  ∃ (pr nr : list vec3) (gr : list index_triple),
    length pr = Z.to_nat (total_nodes faces) ∧ length nr = length pr ∧
    merge_faces faces empty_mesh = Some (mk_Mesh (flat3 pr) (flat3 nr) (flat3 gr)) ∧
    merge_faces faces (mk_Mesh (flat3 ps) (flat3 ns) (flat3 gts))
      = Some (mk_Mesh (flat3 (ps ++ pr)) (flat3 (ns ++ nr))
                (flat3 (gts ++ map (shift_triple (Z.of_nat (length ps))) gr))).
Proof.
  induction faces as [|face faces IH]; intros ps ns gts Hl Hfit.
  - exists [], [], []. simpl. by rewrite !app_nil_r.
  - cbn [merge_faces faces_fit total_nodes] in *.
    destruct (face_triangulation face) as [[tri loc]|]; [|by apply IH].
    destruct Hfit as [Htri Hfit].
    destruct (append_triangulation_local ps ns gts tri loc
                (bool_decide (face_orientation face = TopAbs_REVERSED)) Hl Htri)
      as (pl & nl & el & Hpl & Hnl & -> & ->).
    cbn [mbind option_bind].
    assert (HN : NbNodes tri = Z.of_nat (length pl)) by (unfold NbNodes; lia).
    destruct (IH pl nl el Hnl) as (pr & nr & gr & Hpr & Hnr & Hempty & ->).
    { rewrite <- HN. eapply faces_fit_mono; [|exact Hfit]. unfold NbNodes. lia. }
    destruct (IH (ps ++ pl) (ns ++ nl) (gts ++ map (shift_triple (Z.of_nat (length ps))) el))
      as (pr' & nr' & gr' & _ & _ & Hempty' & ->).
    { rewrite !length_app. lia. }
    { rewrite length_app, Nat2Z.inj_add, <- HN. exact Hfit. }
    rewrite Hempty in Hempty'.
    injection Hempty' as <-%flat3_inj <-%flat3_inj <-%flat3_inj.
    exists (pl ++ pr), (nl ++ nr), (el ++ map (shift_triple (Z.of_nat (length pl))) gr).
    split; [rewrite length_app, Hpr; pose proof (total_nodes_nonneg faces); lia|].
    split; [rewrite !length_app; lia|]. split; [done|].
    rewrite <- !app_assoc, map_app, map_map. do 5 f_equal.
    apply map_ext. intros [[a b] c]. unfold shift_triple. cbn.
    rewrite length_app, Nat2Z.inj_add. f_equal; [f_equal|]; lia.
Qed.

Lemma merge_faces_app faces1 : ∀ faces2 out,
  merge_faces (faces1 ++ faces2) out = merge_faces faces1 out ≫= merge_faces faces2.
Proof.
  induction faces1 as [|face faces1 IH]; intros faces2 out; [done|].
  cbn [app merge_faces]. destruct (face_triangulation face) as [[tri loc]|]; [|apply IH].
  destruct (append_triangulation out tri loc _); [apply IH | done].
Qed.

(** X7.  Tessellation is local to the faces: the normalized mesh of a list
    of faces is the mesh of any initial part followed by the mesh of the
    rest, vertices after vertices and normals after normals, with the
    indices of the rest moved up by the vertex count of the initial part.
    A vertex normal is thus computed from the triangles of its own face
    only; nothing is shared or smoothed across faces. *)
Theorem tessellation_is_face_local faces1 faces2 :
  faces_fit 0 (faces1 ++ faces2) →
  ∃ m1 m2 m,
    merge_faces faces1 empty_mesh ≫= normalize_normals = Some m1 ∧
    merge_faces faces2 empty_mesh ≫= normalize_normals = Some m2 ∧
    merge_faces (faces1 ++ faces2) empty_mesh ≫= normalize_normals = Some m ∧
    vertices m = vertices m1 ++ vertices m2 ∧
    normals m = normals m1 ++ normals m2 ∧
    indices m = indices m1 ++ map (λ i, i + vertex_count m1) (indices m2).
Proof.
  intros [Hfit1 Hfit2]%faces_fit_app. rewrite Z.add_0_l in Hfit2.
  destruct (merge_faces_local faces1 [] [] [] eq_refl Hfit1)
    as (p1 & n1 & g1 & Hp1 & Hn1 & Hm1 & _).
  assert (HV : Z.of_nat (length p1) = total_nodes faces1).
  { pose proof (total_nodes_nonneg faces1). lia. }
  rewrite <- HV in Hfit2.
  destruct (merge_faces_local faces2 p1 n1 g1 Hn1 Hfit2)
    as (p2 & n2 & g2 & Hp2 & Hn2 & Hm2 & Hm).
  rewrite merge_faces_app, Hm1, Hm2. cbn [mbind option_bind]. rewrite Hm.
  cbn [mbind option_bind].
  rewrite !normalize_normals_spec by (rewrite ?length_app; lia).
  eexists _, _, _. split; [done|]. split; [done|]. split; [done|].
  cbn [vertices normals indices]. rewrite vertex_count_flat3.
  rewrite map_app, !flat3_app, flat3_shift. done.
Qed.

(** ** The C API: what a call returns and leaves *)

Lemma mesh_store_inv_unused s :
  mesh_store_inv s → g_mesh_store s !! g_mesh_next_id s = None ∧
                     g_mesh_store s !! CG_NULL_ID = None.
Proof.
  intros [_ Hk]. split; apply eq_None_not_Some; intros H%Hk; unfold CG_NULL_ID in *; lia.
Qed.

Lemma mesh_store_insert_inv data s :
  mesh_store_inv s → g_mesh_next_id s + 1 < 2 ^ 64 →
  mesh_store_inv (mesh_store_insert data s).2 ∧
  g_mesh_next_id (mesh_store_insert data s).2 = g_mesh_next_id s + 1 ∧
  ∀ id m, mesh_store_get id (mesh_store_insert data s).2 = Some m →
    m = data ∨ mesh_store_get id s = Some m.
Proof.
  intros Hinv Hb. destruct (mesh_store_inv_unused s Hinv) as [Hfresh _].
  destruct Hinv as [Hpos Hk].
  unfold mesh_store_insert, mesh_store_get, mesh_store_inv, fetch_add, emplace. cbn.
  rewrite Hfresh, wrap64_succ by lia. cbn.
  split; [|split; [done|]].
  - split; [lia|]. intros k Hsome.
    destruct (decide (k = g_mesh_next_id s)) as [->|Hne]; [lia|].
    rewrite lookup_insert_ne in Hsome by done. apply Hk in Hsome. lia.
  - intros id m. destruct (decide (id = g_mesh_next_id s)) as [->|Hne].
    + rewrite lookup_insert_eq. intros [= <-]. by left.
    + rewrite lookup_insert_ne by done. by right.
Qed.

Lemma mesh_store_erase_inv id s :
  mesh_store_inv s →
  mesh_store_inv (mesh_store_erase id s).2 ∧
  g_mesh_next_id (mesh_store_erase id s).2 = g_mesh_next_id s ∧
  ∀ id' m, mesh_store_get id' (mesh_store_erase id s).2 = Some m →
    mesh_store_get id' s = Some m.
Proof.
  intros [Hpos Hk]. unfold mesh_store_erase, mesh_store_get, mesh_store_inv, erase. cbn.
  split; [|split; [done|]].
  - split; [done|]. intros k Hsome. apply Hk. by eapply delete_is_Some.
  - intros id' m. destruct (decide (id' = id)) as [->|Hne].
    + by rewrite lookup_delete_eq.
    + by rewrite lookup_delete_ne.
Qed.

Section CApiOutcomes.
Context {TopoDS_Shape : Type} (K : Kernel TopoDS_Shape).
Implicit Types w : World TopoDS_Shape.

Local Hint Resolve set_last_error_reported append_nonempty : core.

Lemma step_catch_nonempty e : step_catch e ≠ "".
Proof. destruct e; simpl; by auto. Qed.

Lemma stl_catch_nonempty e : stl_catch e ≠ "".
Proof. destruct e; simpl; by auto. Qed.

Lemma tessellate_catch_nonempty e : tessellate_catch e ≠ "".
Proof. destruct e; simpl; by auto. Qed.

Local Ltac reports_failure :=
  eexists; (split; [reflexivity|]);
  (split; [cbn; auto using step_catch_nonempty, stl_catch_nonempty,
                             tessellate_catch_nonempty|]);
  split; reflexivity.

Lemma cg_load_step_fails path w :
  (∀ shape, ¬ step_loads K path shape) →
  ∃ w', cg_load_step K path w = (CG_NULL_ID, w') ∧ g_last_error w' ≠ "" ∧
        registry w' = registry w ∧ mesh_store w' = mesh_store w.
Proof.
  intros Hno. unfold cg_load_step.
  destruct path as [p|]; [|reports_failure].
  destruct (STEP_ReadFile K p) as [[|]|e] eqn:Hread;
    [| reports_failure | reports_failure].
  destruct (STEP_TransferRoots K p) as [n|e] eqn:Hroots; [|reports_failure].
  destruct (decide (n = 0)); [reports_failure|].
  destruct (STEP_OneShape_healed K p) as [shape|e] eqn:Hshape; [|reports_failure].
  destruct (Hno shape). by exists p, n.
Qed.

Lemma cg_load_stl_fails path w :
  (∀ tri, ¬ stl_loads K path tri) →
  ∃ w', cg_load_stl K path w = Some (CG_NULL_ID, w') ∧ g_last_error w' ≠ "" ∧
        registry w' = registry w ∧ mesh_store w' = mesh_store w.
Proof.
  intros Hno. unfold cg_load_stl.
  destruct path as [p|]; [|reports_failure].
  destruct (RWStl_ReadFile K p) as [[tri|]|e] eqn:Hread;
    [| reports_failure | reports_failure].
  destruct (Hno tri). by exists p.
Qed.

(** X8.  [cg_load_step] in a state whose registry counter has not
    wrapped.  When the kernel reads the file, finds roots and delivers a
    shape, the call returns a non-zero ID that referred to nothing
    before and refers to that shape afterwards; every other ID refers to
    what it did, the mesh store and the message are as they were.  In
    every other case (null path, unreadable file, no roots, an exception
    of the kernel) it returns 0, leaves a non-empty message and changes
    neither the registry nor the mesh store. *)
Theorem cg_load_step_outcome path w :
  registry_inv (registry w) →
  (∀ shape, step_loads K path shape →
     ∃ id w', cg_load_step K path w = (id, w') ∧ id ≠ CG_NULL_ID ∧
       registry_get_shape id w = NotFound "HandleRegistry: invalid shape ID" ∧
       registry_get_shape id w' = Found shape ∧
       (∀ id', id' ≠ id → registry_get_shape id' w' = registry_get_shape id' w) ∧
       mesh_store w' = mesh_store w ∧ g_last_error w' = g_last_error w) ∧
  ((∀ shape, ¬ step_loads K path shape) →
     ∃ w', cg_load_step K path w = (CG_NULL_ID, w') ∧ g_last_error w' ≠ "" ∧
       registry w' = registry w ∧ mesh_store w' = mesh_store w).
Proof.
  intros Hinv. destruct (registry_inv_unused _ Hinv) as [Hfresh _].
  destruct Hinv as (Hpos & _ & _).
  split; [|apply cg_load_step_fails].
  intros shape (p & n & -> & Hread & Hroots & Hn & Hshape).
  unfold cg_load_step. rewrite Hread, Hroots, Hshape, decide_False by done.
  unfold registry_store_shape, registry_get_shape, get_shape, store_shape, emplace.
  cbn. rewrite Hfresh.
  eexists _, _. split; [done|]. cbn.
  split; [unfold CG_NULL_ID; lia|]. rewrite Hfresh, lookup_insert_eq.
  split; [done|]. split; [done|]. split; [|done].
  intros id' Hne. by rewrite lookup_insert_ne.
Qed.

Lemma stl_buffer tri :
  tri_fits 0 tri →
  ∃ ns : list vec3,
    append_triangulation empty_mesh tri identity_location false
      ≫= normalize_normals
    = Some (mk_Mesh (flat3 (map (λ p, (pnt_X p, pnt_Y p, pnt_Z p)) (nodes tri)))
              (flat3 ns)
              (flat3 (map (λ t : Poly_Triangle, (t.1.1 - 1, t.1.2 - 1, t.2 - 1))
                        (triangles tri)))) ∧
    length ns = length (nodes tri).
Proof.
  intros Hfit.
  pose proof (append_triangulation_spec [] [] [] tri identity_location false eq_refl Hfit)
    as Happ.
  cbn [length app] in Happ. change (mk_Mesh (flat3 []) (flat3 []) []) with empty_mesh in Happ.
  rewrite Happ. cbn [mbind option_bind].
  change (@nil Z ++ ?l) with l.
  rewrite normalize_normals_spec
    by (by rewrite length_bump_fold, length_replicate, length_map).
  eexists. split.
  - f_equal. f_equal. f_equal. apply map_ext. by intros [[n1 n2] n3].
  - by rewrite length_map, length_bump_fold, length_replicate.
Qed.

(** X9.  [cg_load_stl] in a state whose mesh counter has not wrapped, for
    triangulations that fit.  When the kernel reads the file, the call
    returns a non-zero ID that referred to no mesh before; the mesh stored
    under it has the nodes of the triangulation as vertices, untransformed,
    its triangles with 0-based node numbers, unswapped, as indices, as
    many normals as vertices, and the count queries return the numbers of
    nodes and of triangles (a file without triangles gives a mesh without
    indices, not a failure); the other meshes, the registry and the
    message are as they were.  In every other case it returns 0, leaves a
    non-empty message and changes neither store. *)
Theorem cg_load_stl_outcome path w :
  mesh_store_inv (mesh_store w) →
  (∀ tri, stl_loads K path tri → tri_fits 0 tri) →
  (∀ tri, stl_loads K path tri →
     ∃ id w' m, cg_load_stl K path w = Some (id, w') ∧ id ≠ CG_NULL_ID ∧
       mesh_store_get id (mesh_store w) = None ∧
       mesh_store_get id (mesh_store w') = Some m ∧
       vertices m = flat3 (map (λ p, (pnt_X p, pnt_Y p, pnt_Z p)) (nodes tri)) ∧
       indices m = flat3 (map (λ t : Poly_Triangle, (t.1.1 - 1, t.1.2 - 1, t.2 - 1))
                            (triangles tri)) ∧
       length (normals m) = length (vertices m) ∧
       cg_mesh_vertex_count id w' = (NbNodes tri, w') ∧
       cg_mesh_triangle_count id w' = (NbTriangles tri, w') ∧
       (∀ id', id' ≠ id →
          mesh_store_get id' (mesh_store w') = mesh_store_get id' (mesh_store w)) ∧
       registry w' = registry w ∧ g_last_error w' = g_last_error w) ∧
  ((∀ tri, ¬ stl_loads K path tri) →
     ∃ w', cg_load_stl K path w = Some (CG_NULL_ID, w') ∧ g_last_error w' ≠ "" ∧
       registry w' = registry w ∧ mesh_store w' = mesh_store w).
Proof.
  intros Hinv Hfit. destruct (mesh_store_inv_unused _ Hinv) as [Hfresh _].
  destruct Hinv as [Hpos _].
  split.
  - intros tri Hloads. specialize (Hfit tri Hloads).
    destruct Hloads as (p & -> & Hread).
    destruct (stl_buffer tri Hfit) as (ns & Hbuf & Hns).
    unfold cg_load_stl. rewrite Hread.
    apply bind_Some in Hbuf as (data & -> & Hnorm). cbn [mbind option_bind].
    rewrite Hnorm. cbn [mbind option_bind].
    unfold mesh_store_insert, mesh_store_get, fetch_add, emplace. cbn.
    rewrite Hfresh.
    eexists _, _, _. split; [done|]. cbn.
    split; [unfold CG_NULL_ID; lia|]. split; [done|].
    rewrite lookup_insert_eq. split; [done|]. cbn.
    split; [done|]. split; [done|].
    split; [by rewrite !length_flat3, length_map, Hns|].
    unfold cg_mesh_vertex_count, cg_mesh_triangle_count, mesh_store_get. cbn.
    rewrite !decide_False by (unfold CG_NULL_ID; lia).
    rewrite lookup_insert_eq. cbn. rewrite !length_flat3, !length_map, !div3_of_nat.
    split; [done|]. split; [done|]. split; [|done].
    intros id' Hne. by rewrite lookup_insert_ne.
  - apply cg_load_stl_fails.
Qed.

(** X10.  [cg_shape_bounding_box] returns the box the kernel computes when
    [id] is the non-null ID of a stored shape with a non-void box, and
    then leaves the message as it was.  In every other case (null ID,
    unknown ID, void box, an exception of the kernel) it returns the
    all-zero box and leaves a non-empty message; it never changes the
    registry or the mesh store, and it does not enter the kernel for an
    unknown ID. *)
Theorem cg_shape_bounding_box_outcome id w :
  (∀ box, bbox_of K id w box →
     cg_shape_bounding_box K id w = (box, enter_kernel into_BRepBndLib w)) ∧
  ((∀ box, ¬ bbox_of K id w box) →
     ∃ w', cg_shape_bounding_box K id w = (zero_bbox, w') ∧ g_last_error w' ≠ "" ∧
       registry w' = registry w ∧ mesh_store w' = mesh_store w ∧
       (registry_get_shape id w = NotFound "HandleRegistry: invalid shape ID" →
        kernel_calls w' = kernel_calls w)).
Proof.
  unfold cg_shape_bounding_box. split.
  - intros box (Hid & shape & Hshape & Hbox).
    by rewrite decide_False, Hshape, Hbox by done.
  - intros Hno. destruct (decide (id = CG_NULL_ID)) as [Hid|Hid].
    { eexists. repeat split; auto. }
    destruct (registry_get_shape id w) as [shape|what] eqn:Hshape.
    2: { eexists. repeat split; auto. }
    destruct (BRepBndLib_AddOptimal K shape) as [[box|]|e] eqn:Hbox.
    + destruct (Hno box). split; [done|]. by exists shape.
    + eexists. repeat split; auto. done.
    + destruct e; eexists; repeat split; cbn; auto; done.
Qed.

Lemma registry_free_shape_gone id w :
  registry_get_shape id (registry_free_shape id w)
  = NotFound "HandleRegistry: invalid shape ID".
Proof.
  unfold registry_get_shape, registry_free_shape, get_shape, free_shape, erase. cbn.
  by rewrite lookup_delete_eq.
Qed.

Lemma shape_gone_rejected id w :
  id = CG_NULL_ID ∨
  registry_get_shape id w = NotFound "HandleRegistry: invalid shape ID" →
  ((cg_shape_bounding_box K id w).1 = zero_bbox ∧
   reported w (cg_shape_bounding_box K id w).2) ∧
  ∀ chord_tol angle_tol, ∃ w',
    cg_shape_tessellate K id chord_tol angle_tol w = Some (CG_NULL_ID, w') ∧
    reported w w'.
Proof.
  intros Hgone. unfold cg_shape_bounding_box, cg_shape_tessellate.
  destruct (decide (id = CG_NULL_ID)) as [Hid|Hid].
  { split; [by split; auto|]. intros. eexists. split; [done|]. by auto. }
  destruct Hgone as [ ? | -> ]; [done|].
  split; [by split; auto|]. intros. eexists. split; [done|]. by auto.
Qed.

Lemma mesh_gone_rejected id w :
  id = CG_NULL_ID ∨ mesh_store_get id (mesh_store w) = None →
  cg_mesh_vertex_count id w = (0, w) ∧ cg_mesh_triangle_count id w = (0, w) ∧
  (∀ out, ∃ w', cg_mesh_copy_vertices id out w = Some (CG_ERR_NULL_HANDLE, out, w') ∧
                reported w w') ∧
  (∀ out, ∃ w', cg_mesh_copy_normals id out w = Some (CG_ERR_NULL_HANDLE, out, w') ∧
                reported w w') ∧
  (∀ out, ∃ w', cg_mesh_copy_indices id out w = Some (CG_ERR_NULL_HANDLE, out, w') ∧
                reported w w').
Proof.
  intros Hgone.
  split; [|split].
  1-2: unfold cg_mesh_vertex_count, cg_mesh_triangle_count;
    destruct (decide (id = CG_NULL_ID)); [done|]; by destruct Hgone as [ ? | -> ].
  split; [|split]; intros out.
  - apply (proj1 (cg_mesh_copy_vertices_contract id out w)). tauto.
  - apply (proj1 (cg_mesh_copy_normals_contract id out w)). tauto.
  - apply (proj1 (cg_mesh_copy_indices_contract id out w)). tauto.
Qed.

(** X11.  A freed handle is rejected.  After [cg_shape_free], [cg_face_free]
    or [cg_edge_free] of [id] (all three remove from the map of shapes),
    [cg_shape_bounding_box] and [cg_shape_tessellate] of [id] return their
    sentinel with a message, without entering the kernel; after
    [cg_mesh_free] of [id] the count queries return 0 and the three copy
    functions return [CG_ERR_NULL_HANDLE] with a message, the destination
    untouched. *)
Theorem freed_handles_are_rejected id w :
  (∀ w1, w1 = cg_shape_free id w ∨ w1 = cg_face_free id w ∨ w1 = cg_edge_free id w →
     ((cg_shape_bounding_box K id w1).1 = zero_bbox ∧
      reported w1 (cg_shape_bounding_box K id w1).2) ∧
     ∀ chord_tol angle_tol, ∃ w',
       cg_shape_tessellate K id chord_tol angle_tol w1 = Some (CG_NULL_ID, w') ∧
       reported w1 w') ∧
  (let w2 := cg_mesh_free id w in
   cg_mesh_vertex_count id w2 = (0, w2) ∧ cg_mesh_triangle_count id w2 = (0, w2) ∧
   (∀ out, ∃ w', cg_mesh_copy_vertices id out w2 = Some (CG_ERR_NULL_HANDLE, out, w') ∧
                 reported w2 w') ∧
   (∀ out, ∃ w', cg_mesh_copy_normals id out w2 = Some (CG_ERR_NULL_HANDLE, out, w') ∧
                 reported w2 w') ∧
   (∀ out, ∃ w', cg_mesh_copy_indices id out w2 = Some (CG_ERR_NULL_HANDLE, out, w') ∧
                 reported w2 w')).
Proof.
  split.
  - intros w1 Hw1. apply shape_gone_rejected.
    assert (w1 = if decide (id = CG_NULL_ID) then w else registry_free_shape id w) as ->.
    { by destruct Hw1 as [ -> | [ -> | -> ] ]. }
    destruct (decide (id = CG_NULL_ID)); [by left|]. right.
    apply registry_free_shape_gone.
  - apply mesh_gone_rejected. unfold cg_mesh_free.
    destruct (decide (id = CG_NULL_ID)); [by left|]. right.
    unfold mesh_store_get, mesh_store_erase, erase. cbn. apply lookup_delete_eq.
Qed.

(** X12.  A tessellation that succeeds.  In a state whose mesh counter has
    not wrapped, for a stored shape that the kernel meshes into faces that
    fit and of which one has a triangle, [cg_shape_tessellate] returns a
    non-zero ID that referred to no mesh before; afterwards
    [cg_mesh_vertex_count] of it is the number of nodes of all meshed
    faces together, [cg_mesh_triangle_count] the number of their
    triangles, at least 1, and the stored mesh has as many normals as
    vertices and only indices below the vertex count. *)
Theorem tessellated_mesh_counts id chord_tol angle_tol w faces :
  mesh_store_inv (mesh_store w) →
  meshes_into K id chord_tol angle_tol w faces →
  faces_fit 0 faces → ¬ no_triangles faces →
  ∃ mid w' m,
    cg_shape_tessellate K id chord_tol angle_tol w = Some (mid, w') ∧
    mid ≠ CG_NULL_ID ∧
    mesh_store_get mid (mesh_store w) = None ∧
    mesh_store_get mid (mesh_store w') = Some m ∧
    cg_mesh_vertex_count mid w' = (total_nodes faces, w') ∧
    cg_mesh_triangle_count mid w' = (total_triangles faces, w') ∧
    1 ≤ total_triangles faces ∧
    length (vertices m) = length (normals m) ∧
    Forall (λ i, 0 ≤ i < total_nodes faces) (indices m).
Proof.
  intros Hinv (Hid & shape & Hshape & Hmesh & Hfaces) Hfit Hsome.
  destruct (mesh_store_inv_unused _ Hinv) as [Hfresh _]. destruct Hinv as [Hpos _].
  destruct (merge_faces_assembled faces empty_mesh assembled_empty Hfit)
    as (merged & Hmerge & Hasm).
  pose proof (merge_faces_indices faces empty_mesh merged assembled_empty Hfit Hmerge)
    as Hnil.
  destruct (merge_faces_bounds faces empty_mesh merged 0 Hmerge) as (_ & Hsame & Hvalid);
    [done..|].
  specialize (Hvalid (faces_fit_nodes_ok faces 0 Hfit) ltac:(constructor)).
  destruct (merge_faces_counts faces empty_mesh merged Hmerge) as (Hv & _ & Hi).
  destruct (assembled_normalize merged Hasm) as (m & Hnorm & Ev & Ei & En & _).
  unfold cg_shape_tessellate.
  rewrite decide_False, Hshape, Hmesh, Hfaces, Hmerge by done. cbn [mbind option_bind].
  rewrite decide_False by tauto. rewrite Hnorm. cbn [mbind option_bind].
  unfold mesh_store_insert, mesh_store_get, fetch_add, emplace. cbn. rewrite Hfresh.
  eexists _, _, m. split; [done|]. cbn.
  split; [unfold CG_NULL_ID; lia|]. split; [done|].
  rewrite lookup_insert_eq. split; [done|].
  unfold cg_mesh_vertex_count, cg_mesh_triangle_count, mesh_store_get. cbn.
  rewrite !decide_False by (unfold CG_NULL_ID; lia). rewrite lookup_insert_eq.
  unfold indices_valid, vertex_count, same_vertex_count in *.
  rewrite Ev, Ei, En, Hv, Hi in *. cbn [empty_mesh vertices indices length] in *.
  rewrite !Z.add_0_l, !(Z.mul_comm 3), !Z.div_mul in * by done.
  split; [done|]. split; [done|].
  split; [by apply total_triangles_positive|]. split; [done|]. exact Hvalid.
Qed.

End CApiOutcomes.

(** ** Sequences of API calls *)

Section ApiRunProperties.
Context {TopoDS_Shape : Type} (K : Kernel TopoDS_Shape).
Implicit Types w : World TopoDS_Shape.

Lemma world_inv_same n n' w w' :
  registry w' = registry w → mesh_store w' = mesh_store w → n ≤ n' →
  world_inv K n w → world_inv K n' w'.
Proof.
  intros Er Es Hn (H1 & H2 & H3 & H4 & H5 & H6). unfold world_inv.
  rewrite Er, Es. repeat (split; [done || lia|]). done.
Qed.

Lemma world_inv_store_shape n w shape :
  2 + n < 2 ^ 64 → world_inv K n w →
  world_inv K (n + 1) (registry_store_shape shape w).2.
Proof.
  intros Hb (H1 & H2 & H3 & H4 & H5 & H6).
  destruct (registry_step_inv (call_store_shape shape) (registry w) H1) as [Hinv Hn];
    [lia|].
  unfold world_inv. cbn in *. repeat (split; [done || lia|]). done.
Qed.

Lemma world_inv_free_shape n w id :
  world_inv K n w → world_inv K n (registry_free_shape id w).
Proof.
  intros (H1 & H2 & H3 & H4 & H5 & H6).
  assert (Hinv : registry_inv (free_shape id (registry w)).2).
  { destruct H1 as (Hp & Hs & Hm). unfold registry_inv. cbn.
    split; [done|]. split; [|done]. intros k Hk. apply Hs. by eapply delete_is_Some. }
  unfold world_inv. cbn in *. repeat (split; [done || lia|]). done.
Qed.

Lemma world_inv_insert_mesh n w data :
  2 + n < 2 ^ 64 → world_inv K n w →
  well_shaped data → (kernel_nodes_ok K → indices_valid data) →
  world_inv K (n + 1) (with_mesh_store (mesh_store_insert data (mesh_store w)).2 w).
Proof.
  intros Hb (H1 & H2 & H3 & H4 & H5 & H6) Hshape Hvalid.
  destruct (mesh_store_insert_inv data (mesh_store w) H3) as (Hinv & Hn & Hget); [lia|].
  unfold world_inv. cbn [registry mesh_store with_mesh_store].
  repeat (split; [done || lia|]).
  intros id m [->|Hm]%Hget; [done | by apply (H6 id)].
Qed.

Lemma world_inv_erase_mesh n w id :
  world_inv K n w →
  world_inv K n (with_mesh_store (mesh_store_erase id (mesh_store w)).2 w).
Proof.
  intros (H1 & H2 & H3 & H4 & H5 & H6).
  destruct (mesh_store_erase_inv id (mesh_store w) H3) as (Hinv & Hn & Hget).
  unfold world_inv. cbn [registry mesh_store with_mesh_store].
  repeat (split; [done || lia|]).
  intros id' m Hm%Hget. by apply (H6 id').
Qed.

Lemma api_step_inv c w a w' n :
  2 + n < 2 ^ 64 → world_inv K n w →
  api_step K c w = Some (a, w') → world_inv K (n + 1) w'.
Proof.
  intros Hb Hinv.
  assert (Hsame : ∀ w1, registry w1 = registry w → mesh_store w1 = mesh_store w →
                        world_inv K (n + 1) w1).
  { intros w1 E1 E2. apply (world_inv_same n (n + 1) w w1); (done || lia). }
  assert (Hmono : ∀ w1, world_inv K n w1 → world_inv K (n + 1) w1).
  { intros w1. apply world_inv_same; (done || lia). }
  destruct c; cbn [api_step].
  - intros [= <- <-]. by apply Hsame.
  - unfold cg_load_step.
    repeat case_match; intros [= <- <-]; simplify_eq; try (by apply Hsame).
    match goal with H : registry_store_shape ?s ?w0 = _ |- _ =>
      assert (Hw : world_inv K (n + 1) (registry_store_shape s w0).2)
        by (apply world_inv_store_shape; [done|]; by apply (world_inv_same n n w));
      by rewrite H in Hw end.
  - intros [= <- <-]. by apply Hsame.
  - unfold cg_load_stl. intros H. apply bind_Some in H as ([id1 w1] & H & [= <- <-]).
    repeat case_match; simplify_eq; try (by apply Hsame).
    apply bind_Some in H as (d1 & Happ & H). apply bind_Some in H as (d2 & Hnorm & H).
    unfold mesh_store_insert, fetch_add in H. cbn in H. injection H as <- <-.
    match goal with |- world_inv _ _ ?w1 =>
      change w1 with
        (with_mesh_store
           (mesh_store_insert d2 (mesh_store (enter_kernel into_RWStl w))).2
           (enter_kernel into_RWStl w)) end.
    apply world_inv_insert_mesh; [done | by apply (world_inv_same n n w) | |].
    + eapply normalize_normals_well_shaped; [done|].
      rewrite stl_assembly in Happ. by eapply merge_faces_well_shaped.
    + intros [Hstl _]. eapply normalize_normals_valid; [done|].
      rewrite stl_assembly in Happ. eapply merge_faces_valid; [done|].
      apply Forall_cons. split; [|constructor]. unfold face_nodes_ok. cbn. eauto.
  - intros [= <- <-]. unfold cg_shape_free. case_decide; [by apply Hmono|].
    by apply Hmono, world_inv_free_shape.
  - intros [= <- <-]. by apply Hsame.
  - unfold cg_shape_bounding_box. repeat case_match; intros [= <- <-]; simplify_eq;
      by apply Hsame.
  - intros [= <- <-]. unfold cg_face_free. case_decide; [by apply Hmono|].
    by apply Hmono, world_inv_free_shape.
  - intros [= <- <-]. unfold cg_edge_free. case_decide; [by apply Hmono|].
    by apply Hmono, world_inv_free_shape.
  - unfold cg_shape_tessellate. intros H.
    apply bind_Some in H as ([id1 w1] & H & [= <- <-]).
    repeat case_match; simplify_eq; try (by apply Hsame).
    apply bind_Some in H as (d1 & Hmerge & H).
    case_decide; simplify_eq; [by apply Hsame|].
    apply bind_Some in H as (d2 & Hnorm & H).
    unfold mesh_store_insert, fetch_add in H. cbn in H. injection H as <- <-.
    match goal with |- world_inv _ _ ?w1 =>
      change w1 with
        (with_mesh_store
           (mesh_store_insert d2 (mesh_store (enter_kernel into_BRepMesh w))).2
           (enter_kernel into_BRepMesh w)) end.
    apply world_inv_insert_mesh; [done | by apply (world_inv_same n n w) | |].
    + eapply normalize_normals_well_shaped; [done|]. by eapply merge_faces_well_shaped.
    + intros [_ Hfaces]. eapply normalize_normals_valid; [done|].
      eapply merge_faces_valid; [done|]. eauto.
  - unfold cg_mesh_vertex_count. repeat case_match; intros [= <- <-]; simplify_eq;
      by apply Hsame.
  - unfold cg_mesh_triangle_count. repeat case_match; intros [= <- <-]; simplify_eq;
      by apply Hsame.
  - unfold cg_mesh_copy_vertices. intros H.
    apply bind_Some in H as ([[e1 o1] w1] & H & [= <- <-]).
    repeat case_match; simplify_eq; try (by apply Hsame).
    apply bind_Some in H as (d1 & _ & H). apply bind_Some in H as (d2 & _ & H).
    simplify_eq. by apply Hsame.
  - unfold cg_mesh_copy_normals. intros H.
    apply bind_Some in H as ([[e1 o1] w1] & H & [= <- <-]).
    repeat case_match; simplify_eq; try (by apply Hsame).
    apply bind_Some in H as (d1 & _ & H). apply bind_Some in H as (d2 & _ & H).
    simplify_eq. by apply Hsame.
  - unfold cg_mesh_copy_indices. intros H.
    apply bind_Some in H as ([[e1 o1] w1] & H & [= <- <-]).
    repeat case_match; simplify_eq; try (by apply Hsame).
    apply bind_Some in H as (d1 & _ & H). apply bind_Some in H as (d2 & _ & H).
    simplify_eq. by apply Hsame.
  - intros [= <- <-]. unfold cg_mesh_free. case_decide; [by apply Hmono|].
    by apply Hmono, world_inv_erase_mesh.
  - intros [= <- <-]. by apply Hsame.
Qed.

Lemma initial_world_inv : world_inv K 0 (initial_world : World TopoDS_Shape).
Proof.
  unfold world_inv, initial_world, mesh_store_inv, mesh_store_get. simpl.
  split; [apply new_registry_inv|]. split; [lia|].
  split; [|split; [lia|split; [done|]]].
  - split; [done|]. intros k [x Hx]. by rewrite lookup_empty in Hx.
  - intros id m Hm. by rewrite lookup_empty in Hm.
Qed.

Lemma api_run_inv calls : ∀ w answers w' n,
  1 + n + Z.of_nat (length calls) < 2 ^ 64 → world_inv K n w →
  api_run K calls w = Some (answers, w') →
  world_inv K (n + Z.of_nat (length calls)) w'.
Proof.
  induction calls as [|c calls IH]; intros w answers w' n Hb Hinv.
  - intros [= <- <-]. by rewrite Z.add_0_r.
  - cbn [api_run length] in *. intros H.
    apply bind_Some in H as ([a w1] & Hstep & H).
    apply bind_Some in H as ([rest w2] & Hrun & [= <- <-]).
    apply (api_step_inv c w a w1 n) in Hstep; [|lia|done].
    apply (IH w1 rest w2 (n + 1)) in Hrun; [|lia|done].
    by replace (n + Z.of_nat (S (length calls))) with (n + 1 + Z.of_nat (length calls))
      by lia.
Qed.

Lemma reached_world_inv calls answers w :
  api_run K calls initial_world = Some (answers, w) →
  1 + Z.of_nat (length calls) < 2 ^ 64 →
  world_inv K (Z.of_nat (length calls)) w.
Proof.
  intros Hrun Hb.
  apply (api_run_inv calls initial_world answers w 0) in Hrun;
    [done | lia | apply initial_world_inv].
Qed.

(** X13.  In every state reached from the initial one by fewer than
    2^64 - 1 calls of the API, the null ID refers to no shape and to no
    mesh buffer, and the handle registry holds no mesh: the API never
    stores a mesh in the registry, its mesh buffers live in the mesh data
    store only. *)
Theorem api_reachable_states calls answers w :
  api_run K calls initial_world = Some (answers, w) →
  1 + Z.of_nat (length calls) < 2 ^ 64 →
  registry_get_shape CG_NULL_ID w = NotFound "HandleRegistry: invalid shape ID" ∧
  mesh_store_get CG_NULL_ID (mesh_store w) = None ∧
  mesh_count (registry w) = 0%nat ∧
  ∀ id, registry_get_mesh id w = NotFound "HandleRegistry: invalid mesh ID".
Proof.
  intros Hrun Hb.
  destruct (reached_world_inv calls answers w Hrun Hb)
    as ((_ & Hs & _) & _ & Hstore & _ & Hmeshes & _).
  split; [|split; [|split]].
  - unfold registry_get_shape, get_shape.
    destruct (shapes_ (registry w) !! CG_NULL_ID) eqn:E; [|done].
    assert (is_Some (shapes_ (registry w) !! CG_NULL_ID)) as H%Hs by eauto.
    unfold CG_NULL_ID in H. lia.
  - by apply mesh_store_inv_unused.
  - unfold mesh_count. rewrite Hmeshes. apply map_size_empty.
  - intros id. unfold registry_get_mesh, get_mesh. by rewrite Hmeshes, lookup_empty.
Qed.

(** X14.  The buffer sizes the header asks for suffice.  In every state
    reached from the initial one by fewer than 2^64 - 1 calls, for every
    stored mesh, destinations of three doubles per vertex counted by
    [cg_mesh_vertex_count] and of three indices per triangle counted by
    [cg_mesh_triangle_count] make the three copy functions return [CG_OK]
    and hold exactly the stored vertices, normals and indices
    afterwards. *)
Theorem buffer_size_contract calls answers w id m (dv dn : list float) (di : list Z) :
  api_run K calls initial_world = Some (answers, w) →
  1 + Z.of_nat (length calls) < 2 ^ 64 →
  mesh_store_get id (mesh_store w) = Some m →
  Z.of_nat (length dv) = 3 * (cg_mesh_vertex_count id w).1 →
  Z.of_nat (length dn) = 3 * (cg_mesh_vertex_count id w).1 →
  Z.of_nat (length di) = 3 * (cg_mesh_triangle_count id w).1 →
  cg_mesh_copy_vertices id (Some dv) w = Some (CG_OK, Some (vertices m), w) ∧
  cg_mesh_copy_normals id (Some dn) w = Some (CG_OK, Some (normals m), w) ∧
  cg_mesh_copy_indices id (Some di) w = Some (CG_OK, Some (indices m), w).
Proof.
  intros Hrun Hb Hm.
  destruct (reached_world_inv calls answers w Hrun Hb)
    as (_ & _ & Hstore & _ & _ & Hshaped).
  destruct (Hshaped id m Hm) as [(V & T & Hv & Hn & Hi) _].
  assert (Hid : id ≠ CG_NULL_ID).
  { intros ->. apply mesh_store_inv_unused in Hstore as [_ H0].
    unfold mesh_store_get in Hm. congruence. }
  unfold cg_mesh_vertex_count, cg_mesh_triangle_count.
  rewrite !decide_False, Hm by done. cbn [fst]. rewrite Hv, Hi, !div3_of_nat.
  intros Hdv Hdn Hdi.
  unfold cg_mesh_copy_vertices, cg_mesh_copy_normals, cg_mesh_copy_indices.
  rewrite bool_decide_eq_false_2 by done. cbn [orb is_null]. rewrite Hm.
  cbn [mbind option_bind].
  rewrite !memcpy_fits by lia. cbn [mbind option_bind].
  rewrite !drop_ge, !app_nil_r by lia. done.
Qed.

(** X15.  With a kernel whose triangles refer to nodes of their own
    triangulation, every index of every mesh stored in a state reached
    from the initial one by fewer than 2^64 - 1 calls is below what
    [cg_mesh_vertex_count] returns for that mesh. *)
Theorem stored_indices_are_valid calls answers w id m :
  kernel_nodes_ok K →
  api_run K calls initial_world = Some (answers, w) →
  1 + Z.of_nat (length calls) < 2 ^ 64 →
  mesh_store_get id (mesh_store w) = Some m →
  Forall (λ i, 0 ≤ i < (cg_mesh_vertex_count id w).1) (indices m).
Proof.
  intros HK Hrun Hb Hm.
  destruct (reached_world_inv calls answers w Hrun Hb)
    as (_ & _ & Hstore & _ & _ & Hshaped).
  destruct (Hshaped id m Hm) as [_ Hvalid].
  assert (Hid : id ≠ CG_NULL_ID).
  { intros ->. apply mesh_store_inv_unused in Hstore as [_ H0].
    unfold mesh_store_get in Hm. congruence. }
  unfold cg_mesh_vertex_count. rewrite decide_False, Hm by done. cbn [fst].
  by apply Hvalid.
Qed.

End ApiRunProperties.

Section HandleValidity.
Context {TopoDS_Shape : Type} (K : Kernel TopoDS_Shape).
Implicit Types w : World TopoDS_Shape.

Lemma registry_get_shape_lookup id w shape :
  registry_get_shape id w = Found shape ↔ shapes_ (registry w) !! id = Some shape.
Proof.
  unfold registry_get_shape, get_shape.
  destruct (shapes_ (registry w) !! id); split; congruence.
Qed.

Lemma api_step_keeps c w a w' id :
  api_step K c w = Some (a, w') →
  (∀ shape, shapes_ (registry w) !! id = Some shape → ¬ frees_shape id c →
            shapes_ (registry w') !! id = Some shape) ∧
  (∀ m, g_mesh_store (mesh_store w) !! id = Some m → c ≠ call_cg_mesh_free id →
        g_mesh_store (mesh_store w') !! id = Some m).
Proof.
  assert (Hfree : ∀ id', ¬ frees_shape id (call_cg_shape_free id') ∨
                         ¬ frees_shape id (call_cg_face_free id') ∨
                         ¬ frees_shape id (call_cg_edge_free id') →
            ∀ shape, shapes_ (registry w) !! id = Some shape →
              shapes_ (registry (if decide (id' = CG_NULL_ID) then w
                                 else registry_free_shape id' w)) !! id = Some shape).
  { intros id' Hne shape Hs. case_decide; [done|]. cbn.
    rewrite lookup_delete_ne; [done|]. intros ->. unfold frees_shape in Hne. tauto. }
  destruct c; cbn [api_step].
  - intros [= <- <-]. done.
  - unfold cg_load_step.
    repeat case_match; intros [= <- <-]; simplify_eq; try done.
    match goal with H : registry_store_shape ?s ?w0 = _ |- _ =>
      unfold registry_store_shape, store_shape, fetch_add in H; cbn in H;
      injection H as <- <- end.
    split; [|done]. intros shape Hs _. cbn. by apply emplace_preserves.
  - intros [= <- <-]. done.
  - unfold cg_load_stl. intros H. apply bind_Some in H as ([id1 w1] & H & [= <- <-]).
    repeat case_match; simplify_eq; try done.
    apply bind_Some in H as (d1 & Happ & H). apply bind_Some in H as (d2 & Hnorm & H).
    unfold mesh_store_insert, fetch_add in H. cbn in H. injection H as <- <-.
    split; [done|]. intros m Hm _. cbn. by apply emplace_preserves.
  - intros [= <- <-]. split; [|unfold cg_shape_free; by case_decide].
    intros shape Hs Hne. apply Hfree; [tauto|done].
  - intros [= <- <-]. done.
  - unfold cg_shape_bounding_box. repeat case_match; intros [= <- <-]; simplify_eq; done.
  - intros [= <- <-]. split; [|unfold cg_face_free; by case_decide].
    intros shape Hs Hne. apply Hfree; [tauto|done].
  - intros [= <- <-]. split; [|unfold cg_edge_free; by case_decide].
    intros shape Hs Hne. apply Hfree; [tauto|done].
  - unfold cg_shape_tessellate. intros H.
    apply bind_Some in H as ([id1 w1] & H & [= <- <-]).
    repeat case_match; simplify_eq; try done.
    apply bind_Some in H as (d1 & Hmerge & H).
    case_decide; simplify_eq; [done|].
    apply bind_Some in H as (d2 & Hnorm & H).
    unfold mesh_store_insert, fetch_add in H. cbn in H. injection H as <- <-.
    split; [done|]. intros m Hm _. cbn. by apply emplace_preserves.
  - unfold cg_mesh_vertex_count. repeat case_match; intros [= <- <-]; simplify_eq; done.
  - unfold cg_mesh_triangle_count. repeat case_match; intros [= <- <-]; simplify_eq; done.
  - unfold cg_mesh_copy_vertices. intros H.
    apply bind_Some in H as ([[e1 o1] w1] & H & [= <- <-]).
    repeat case_match; simplify_eq; try done.
    apply bind_Some in H as (d1 & _ & H). apply bind_Some in H as (d2 & _ & H).
    by simplify_eq.
  - unfold cg_mesh_copy_normals. intros H.
    apply bind_Some in H as ([[e1 o1] w1] & H & [= <- <-]).
    repeat case_match; simplify_eq; try done.
    apply bind_Some in H as (d1 & _ & H). apply bind_Some in H as (d2 & _ & H).
    by simplify_eq.
  - unfold cg_mesh_copy_indices. intros H.
    apply bind_Some in H as ([[e1 o1] w1] & H & [= <- <-]).
    repeat case_match; simplify_eq; try done.
    apply bind_Some in H as (d1 & _ & H). apply bind_Some in H as (d2 & _ & H).
    by simplify_eq.
  - intros [= <- <-]. unfold cg_mesh_free. split; [by case_decide|].
    intros m Hm Hne. case_decide; [done|]. cbn.
    rewrite lookup_delete_ne; [done|]. congruence.
  - intros [= <- <-]. done.
Qed.

(** X16.  Handles stay valid.  Over any sequence of API calls, a shape
    stored under [id] is still stored under [id], unchanged, unless one of
    the calls is [cg_shape_free], [cg_face_free] or [cg_edge_free] of
    [id]; a mesh buffer stored under [id] is still stored under [id],
    unchanged, unless one of the calls is [cg_mesh_free] of [id]. *)
Theorem handles_stay_valid calls answers w w' id :
  api_run K calls w = Some (answers, w') →
  (∀ shape, registry_get_shape id w = Found shape →
     Forall (λ c, ¬ frees_shape id c) calls →
     registry_get_shape id w' = Found shape) ∧
  (∀ m, mesh_store_get id (mesh_store w) = Some m →
     Forall (λ c, c ≠ call_cg_mesh_free id) calls →
     mesh_store_get id (mesh_store w') = Some m).
Proof.
  revert w answers. induction calls as [|c calls IH]; intros w answers.
  - by intros [= <- <-].
  - cbn [api_run]. intros H.
    apply bind_Some in H as ([a w1] & Hstep & H).
    apply bind_Some in H as ([rest w2] & Hrun & [= <- <-]).
    destruct (api_step_keeps c w a w1 id Hstep) as [Hs Hm].
    destruct (IH w1 rest Hrun) as [IHs IHm].
    split.
    + intros shape Hshape [Hc Hcalls]%Forall_cons. apply IHs; [|done].
      apply registry_get_shape_lookup, Hs; [|done].
      by apply registry_get_shape_lookup.
    + intros m Hmesh [Hc Hcalls]%Forall_cons. apply IHm; [|done].
      by apply Hm.
Qed.

End HandleValidity.

(** ** The stand-in implementation *)

Section StubProperties.
Context {TopoDS_Shape : Type} (K : Kernel TopoDS_Shape).
Implicit Types w : World TopoDS_Shape.

Lemma mirrors_report w w' (e' : string) :
  registry w' = registry w → mesh_store w' = mesh_store w →
  g_last_error w' ≠ "" → e' ≠ "" →
  registry w = new_registry → mesh_store w = new_mesh_store → mirrors w' e'.
Proof.
  intros E1 E2 ? ? Hr Hs. unfold mirrors. rewrite E1, E2. split; [done|].
  split; [done|]. tauto.
Qed.

Lemma api_step_mirrored c w e :
  loads_nothing K → mirrors w e →
  ∃ a w', api_step K c w = Some (a, w') ∧ same_answer a (Stub.step c e).1 ∧
          mirrors w' (Stub.step c e).2.
Proof.
  intros [Hstep Hstl] (Hr & Hs & He).
  assert (Hshape : ∀ id, registry_get_shape id w
                         = NotFound "HandleRegistry: invalid shape ID").
  { intros id. unfold registry_get_shape, get_shape. by rewrite Hr. }
  assert (Hmesh : ∀ id, mesh_store_get id (mesh_store w) = None).
  { intros id. unfold mesh_store_get. by rewrite Hs. }
  assert (Hsilent : ∀ w', registry w' = registry w → mesh_store w' = mesh_store w →
                          g_last_error w' = g_last_error w → mirrors w' e).
  { intros w' E1 E2 E3. unfold mirrors. by rewrite E1, E2, E3. }
  assert (Hfree : ∀ id, mirrors (if decide (id = CG_NULL_ID) then w
                                 else registry_free_shape id w) e).
  { intros id. case_decide; [by apply Hsilent|].
    unfold mirrors, registry_free_shape, free_shape, erase. cbn. rewrite Hr. cbn.
    by rewrite delete_empty. }
  destruct c; cbn [api_step Stub.step].
  - eexists _, _. split; [done|]. split; [exact He | by apply Hsilent].
  - destruct (cg_load_step_fails K path w (Hstep path)) as (w' & -> & Hmsg & E1 & E2).
    eexists _, _. split; [done|]. split; [by destruct path|].
    apply (mirrors_report w); try done. by destruct path.
  - eexists _, _. split; [done|]. split; [done|]. by apply (mirrors_report w).
  - destruct (cg_load_stl_fails K path w (Hstl path)) as (w' & -> & Hmsg & E1 & E2).
    eexists _, _. split; [done|]. split; [by destruct path|].
    apply (mirrors_report w); try done. by destruct path.
  - eexists _, _. split; [done|]. split; [done|]. apply Hfree.
  - eexists _, _. split; [done|]. split; [done|]. by apply (mirrors_report w).
  - destruct (shape_gone_rejected K id w (or_intror (Hshape id)))
      as [[Ebox ((E1 & E2 & _) & Hmsg)] _].
    destruct (cg_shape_bounding_box K id w) as [box w'] eqn:Hcall. cbn in *. subst box.
    eexists _, _. split; [done|]. split; [done|].
    apply (mirrors_report w); try done.
    unfold Stub.cg_shape_bounding_box. cbn. by case_decide.
  - eexists _, _. split; [done|]. split; [done|]. apply Hfree.
  - eexists _, _. split; [done|]. split; [done|]. apply Hfree.
  - destruct (shape_gone_rejected K id w (or_intror (Hshape id))) as [_ Htess].
    destruct (Htess chord_tol angle_tol) as (w' & -> & (E1 & E2 & _) & Hmsg).
    eexists _, _. split; [done|]. unfold Stub.cg_shape_tessellate.
    split; [by case_decide|]. apply (mirrors_report w); try done. by case_decide.
  - destruct (mesh_gone_rejected id w (or_intror (Hmesh id))) as (-> & _).
    eexists _, _. split; [done|]. split; [done|]. by apply Hsilent.
  - destruct (mesh_gone_rejected id w (or_intror (Hmesh id))) as (_ & -> & _).
    eexists _, _. split; [done|]. split; [done|]. by apply Hsilent.
  - destruct (mesh_gone_rejected id w (or_intror (Hmesh id))) as (_ & _ & Hcopy & _).
    destruct (Hcopy out_vertices) as (w' & -> & (E1 & E2 & _) & Hmsg).
    eexists _, _. split; [done|]. unfold Stub.cg_mesh_copy_vertices.
    split; [by case_decide|]. apply (mirrors_report w); try done. by case_decide.
  - destruct (mesh_gone_rejected id w (or_intror (Hmesh id))) as (_ & _ & _ & Hcopy & _).
    destruct (Hcopy out_normals) as (w' & -> & (E1 & E2 & _) & Hmsg).
    eexists _, _. split; [done|]. unfold Stub.cg_mesh_copy_normals.
    split; [by case_decide|]. apply (mirrors_report w); try done. by case_decide.
  - destruct (mesh_gone_rejected id w (or_intror (Hmesh id))) as (_ & _ & _ & _ & Hcopy).
    destruct (Hcopy out_indices) as (w' & -> & (E1 & E2 & _) & Hmsg).
    eexists _, _. split; [done|]. unfold Stub.cg_mesh_copy_indices.
    split; [by case_decide|]. apply (mirrors_report w); try done. by case_decide.
  - eexists _, _. split; [done|]. split; [done|].
    unfold cg_mesh_free, Stub.cg_mesh_free. case_decide; [by apply Hsilent|].
    unfold mirrors, mesh_store_erase, erase. cbn. rewrite Hs. cbn.
    by rewrite delete_empty.
  - eexists _, _. split; [done|]. split; [done|]. by apply (mirrors_report w).
Qed.

Lemma stub_run_cons c calls e :
  Stub.run (c :: calls) e
  = ((Stub.step c e).1 :: (Stub.run calls (Stub.step c e).2).1,
     (Stub.run calls (Stub.step c e).2).2).
Proof.
  cbn [Stub.run]. destruct (Stub.step c e) as [a e1]. cbn [fst snd].
  by destruct (Stub.run calls e1).
Qed.

Lemma api_run_mirrored calls : ∀ w e,
  loads_nothing K → mirrors w e →
  ∃ answers w', api_run K calls w = Some (answers, w') ∧
    Forall2 same_answer answers (Stub.run calls e).1 ∧
    mirrors w' (Stub.run calls e).2.
Proof.
  induction calls as [|c calls IH]; intros w e HK Hm.
  - eexists _, _. split; [done|]. split; [constructor | done].
  - destruct (api_step_mirrored c w e HK Hm) as (a & w1 & Hstep & Ha & Hm1).
    destruct (IH w1 _ HK Hm1) as (rest & w2 & Hrun & Hrest & Hm2).
    exists (a :: rest), w2. cbn [api_run]. rewrite Hstep. cbn [mbind option_bind].
    rewrite Hrun. cbn [mbind option_bind]. rewrite stub_run_cons. cbn [fst snd].
    split; [done|]. split; [by constructor | done].
Qed.

(** X17.  The stand-in behaves as the library does when no file can be
    loaded.  With a kernel that loads nothing, every sequence of API
    calls from the initial state is defined, and the stand-in of
    [tests/cam_geometry_stub.cpp] gives the same answers, call by call:
    the same returned values and destination buffers, and a last-error
    message that is empty exactly when the library's is.  The library
    stores nothing on the way. *)
Theorem stub_answers_as_library_without_files calls :
  loads_nothing K →
  ∃ answers w, api_run K calls initial_world = Some (answers, w) ∧
    Forall2 same_answer answers (Stub.run calls "").1 ∧
    (cg_last_error_message w = "" ↔ (Stub.run calls "").2 = "") ∧
    registry w = new_registry ∧ mesh_store w = new_mesh_store.
Proof.
  intros HK.
  destruct (api_run_mirrored calls initial_world "" HK) as (answers & w & H & Ha & Hm).
  { by split. }
  destruct Hm as (Hr & Hs & He). by exists answers, w.
Qed.

End StubProperties.

(** ** Concrete runs of the further properties *)

(** The theorem at a registry with one shape and one mesh. *)
Lemma counts_track_stores_and_frees_witness :
  let r := (registry_run [call_store_shape 10%nat; call_store_mesh 20%nat] new_registry).2 in
  (shape_count (store_shape 30%nat r).2 = S (shape_count r) ∧
   mesh_count (store_shape 30%nat r).2 = mesh_count r) ∧
  (mesh_count (store_mesh 40%nat r).2 = S (mesh_count r) ∧
   shape_count (store_mesh 40%nat r).2 = shape_count r) ∧
  ((if (free_shape 1 r).1 then shape_count r = S (shape_count (free_shape 1 r).2)
    else (free_shape 1 r).2 = r) ∧
   mesh_count (free_shape 1 r).2 = mesh_count r) ∧
  ((if (free_mesh 1 r).1 then mesh_count r = S (mesh_count (free_mesh 1 r).2)
    else (free_mesh 1 r).2 = r) ∧
   shape_count (free_mesh 1 r).2 = shape_count r).
Proof.
  apply (counts_track_stores_and_frees
           [call_store_shape 10%nat; call_store_mesh 20%nat] 30%nat 40%nat 1).
  simpl. lia.
Defined.

(** The theorem at the third ID of a registry, two calls later. *)
Lemma ids_are_bound_to_their_kind_witness :
  let before := [call_store_shape 10%nat; call_store_mesh 20%nat] in
  let during := [call_store_mesh 50%nat; call_free_shape 1] in
  let r := (registry_run before new_registry).2 in
  (let id := (store_shape 30%nat r).1 in
   let r' := (registry_run during (store_shape 30%nat r).2).2 in
   get_mesh id r' = NotFound "HandleRegistry: invalid mesh ID" ∧
   free_mesh id r' = (false, r')) ∧
  (let id := (store_mesh 40%nat r).1 in
   let r' := (registry_run during (store_mesh 40%nat r).2).2 in
   get_shape id r' = NotFound "HandleRegistry: invalid shape ID" ∧
   free_shape id r' = (false, r')).
Proof.
  apply (ids_are_bound_to_their_kind
           [call_store_shape 10%nat; call_store_mesh 20%nat]
           [call_store_mesh 50%nat; call_free_shape 1] 30%nat 40%nat).
  simpl. lia.
Defined.

(** The theorem after a store and a free of the null ID. *)
Lemma null_id_is_never_stored_witness :
  let r := (registry_run [call_store_shape 10%nat; call_free_shape 0] new_registry).2 in
  get_shape CG_NULL_ID r = NotFound "HandleRegistry: invalid shape ID" ∧
  get_mesh (ShapeT := nat) (MeshT := nat) CG_NULL_ID r
    = NotFound "HandleRegistry: invalid mesh ID" ∧
  free_shape CG_NULL_ID r = (false, r) ∧ free_mesh CG_NULL_ID r = (false, r).
Proof.
  apply (null_id_is_never_stored [call_store_shape 10%nat; call_free_shape 0]).
  simpl. lia.
Defined.

(** The theorem at five operations. *)
Lemma ids_are_issued_in_sequence_witness :
  let ids := ids_issued
               [op_store_shape 10%nat; op_store_mesh 20%nat; op_free_shape 1;
                op_mesh_store_insert mesh_A; op_store_shape 30%nat]
               (new_registry, new_mesh_store) in
  registry_ids ids = seqZ 1 (Z.of_nat (length (registry_ids ids))) ∧
  mesh_buffer_ids ids = seqZ 1 (Z.of_nat (length (mesh_buffer_ids ids))).
Proof.
  apply (ids_are_issued_in_sequence
           [op_store_shape 10%nat; op_store_mesh 20%nat; op_free_shape 1;
            op_mesh_store_insert mesh_A; op_store_shape 30%nat]).
  simpl. lia.
Defined.

(** The theorem at patch B behind patch A. *)
Lemma append_triangulation_places_nodes_witness :
  ∃ out', append_triangulation mesh_A unit_triangle shifted_by_5 true = Some out' ∧
    mesh_shape (3 + length (nodes unit_triangle)) (1 + length (triangles unit_triangle)) out' ∧
    ∀ (k : nat) p, nodes unit_triangle !! k = Some p →
      triple_at (vertices out') (Z.of_nat (3 + k))
      = Some (let q := if IsIdentity shifted_by_5 then p
                       else Transformation shifted_by_5 p in
              (pnt_X q, pnt_Y q, pnt_Z q)).
Proof.
  apply (append_triangulation_places_nodes mesh_A unit_triangle shifted_by_5 true 3 1);
    [exact mesh_A_shape | apply unit_triangle_fits; lia].
Defined.

(** The theorem at two triangles around an unmeshed face. *)
Lemma merge_faces_layout_witness :
  ∃ m, merge_faces [face_A; unmeshed_face; face_B] empty_mesh = Some m ∧
    vertices m = flat3 (merged_vertices [face_A; unmeshed_face; face_B]) ∧
    indices m = flat3 (merged_triangles 0 [face_A; unmeshed_face; face_B]) ∧
    length (normals m) = length (vertices m).
Proof. apply (merge_faces_layout [face_A; unmeshed_face; face_B]), faces_AB_fit. Defined.

(** The theorem at one triangle, then an unmeshed face and a second triangle. *)
Lemma tessellation_is_face_local_witness :
  ∃ m1 m2 m,
    merge_faces [face_A] empty_mesh ≫= normalize_normals = Some m1 ∧
    merge_faces [unmeshed_face; face_B] empty_mesh ≫= normalize_normals = Some m2 ∧
    merge_faces ([face_A] ++ [unmeshed_face; face_B]) empty_mesh ≫= normalize_normals
      = Some m ∧
    vertices m = vertices m1 ++ vertices m2 ∧
    normals m = normals m1 ++ normals m2 ∧
    indices m = indices m1 ++ map (λ i, i + vertex_count m1) (indices m2).
Proof.
  apply (tessellation_is_face_local [face_A] [unmeshed_face; face_B]), faces_AB_fit.
Defined.

(** The theorem at the first load in a fresh process. *)
Lemma cg_load_step_outcome_witness :
  ∃ id w', cg_load_step demo_kernel (Some "box.step") initial_world = (id, w') ∧
    id ≠ CG_NULL_ID ∧
    registry_get_shape id (initial_world : World (list TopoDS_Face))
      = NotFound "HandleRegistry: invalid shape ID" ∧
    registry_get_shape id w' = Found demo_shape ∧
    (∀ id', id' ≠ id →
       registry_get_shape id' w'
       = registry_get_shape id' (initial_world : World (list TopoDS_Face))) ∧
    mesh_store w' = mesh_store (initial_world : World (list TopoDS_Face)) ∧
    g_last_error w' = g_last_error (initial_world : World (list TopoDS_Face)).
Proof.
  apply (proj1 (cg_load_step_outcome demo_kernel (Some "box.step") initial_world
                  new_registry_inv) demo_shape).
  by exists "box.step", 1.
Defined.

Lemma new_mesh_store_inv : mesh_store_inv new_mesh_store.
Proof. split; [done|]. intros k [x Hx]. simpl in Hx. by rewrite lookup_empty in Hx. Qed.

(** The theorem at the first load in a fresh process. *)
Lemma cg_load_stl_outcome_witness :
  ∃ id w' m,
    cg_load_stl demo_kernel (Some "box.stl") initial_world = Some (id, w') ∧
    id ≠ CG_NULL_ID ∧
    mesh_store_get id (mesh_store (initial_world : World (list TopoDS_Face))) = None ∧
    mesh_store_get id (mesh_store w') = Some m ∧
    vertices m = flat3 (map (λ p, (pnt_X p, pnt_Y p, pnt_Z p)) (nodes unit_triangle)) ∧
    indices m = flat3 (map (λ t : Poly_Triangle, (t.1.1 - 1, t.1.2 - 1, t.2 - 1))
                         (triangles unit_triangle)) ∧
    length (normals m) = length (vertices m) ∧
    cg_mesh_vertex_count id w' = (NbNodes unit_triangle, w') ∧
    cg_mesh_triangle_count id w' = (NbTriangles unit_triangle, w') ∧
    (∀ id', id' ≠ id →
       mesh_store_get id' (mesh_store w')
       = mesh_store_get id' (mesh_store (initial_world : World (list TopoDS_Face)))) ∧
    registry w' = registry (initial_world : World (list TopoDS_Face)) ∧
    g_last_error w' = g_last_error (initial_world : World (list TopoDS_Face)).
Proof.
  assert (Hfit : ∀ tri, stl_loads demo_kernel (Some "box.stl") tri → tri_fits 0 tri).
  { intros tri (p & _ & [= <-]). apply unit_triangle_fits. lia. }
  apply (proj1 (cg_load_stl_outcome demo_kernel (Some "box.stl") initial_world
                  new_mesh_store_inv Hfit) unit_triangle).
  by exists "box.stl".
Defined.

Lemma demo_shape_has_triangles : ¬ no_triangles demo_shape.
Proof. intros [H _]%Forall_cons. discriminate H. Qed.

(** The theorem at the shape [cg_load_step] stored. *)
Lemma tessellated_mesh_counts_witness :
  ∃ mid w' m,
    cg_shape_tessellate demo_kernel 1 0.1 0.5 step_world = Some (mid, w') ∧
    mid ≠ CG_NULL_ID ∧
    mesh_store_get mid (mesh_store step_world) = None ∧
    mesh_store_get mid (mesh_store w') = Some m ∧
    cg_mesh_vertex_count mid w' = (total_nodes demo_shape, w') ∧
    cg_mesh_triangle_count mid w' = (total_triangles demo_shape, w') ∧
    1 ≤ total_triangles demo_shape ∧
    length (vertices m) = length (normals m) ∧
    Forall (λ i, 0 ≤ i < total_nodes demo_shape) (indices m).
Proof.
  apply (tessellated_mesh_counts demo_kernel 1 0.1 0.5 step_world demo_shape).
  - exact new_mesh_store_inv.
  - split; [done|]. by exists demo_shape.
  - exact faces_AB_fit.
  - exact demo_shape_has_triangles.
Defined.

(** The theorem at the example session. *)
Lemma api_reachable_states_witness :
  ∃ answers w,
    api_run demo_kernel demo_session initial_world = Some (answers, w) ∧
    registry_get_shape CG_NULL_ID w = NotFound "HandleRegistry: invalid shape ID" ∧
    mesh_store_get CG_NULL_ID (mesh_store w) = None ∧
    mesh_count (registry w) = 0%nat ∧
    ∀ id, registry_get_mesh id w = NotFound "HandleRegistry: invalid mesh ID".
Proof.
  eexists _, _. split; [vm_compute; reflexivity|].
  eapply (api_reachable_states demo_kernel demo_session); [vm_compute; reflexivity|].
  simpl. lia.
Defined.

(** The theorem at the mesh [cg_load_stl] stored. *)
Lemma buffer_size_contract_witness :
  cg_mesh_copy_vertices 1 (Some (replicate 9 0%float)) stl_world
    = Some (CG_OK, Some (vertices mesh_A), stl_world) ∧
  cg_mesh_copy_normals 1 (Some (replicate 9 1%float)) stl_world
    = Some (CG_OK, Some (normals mesh_A), stl_world) ∧
  cg_mesh_copy_indices 1 (Some [7; 7; 7]) stl_world
    = Some (CG_OK, Some (indices mesh_A), stl_world).
Proof.
  apply (buffer_size_contract demo_kernel [call_cg_load_stl (Some "box.stl")]
           [handle_answer 1] stl_world 1 mesh_A);
    [reflexivity | simpl; lia | reflexivity | reflexivity | reflexivity | reflexivity].
Defined.

Lemma box_kernel_nodes_ok : kernel_nodes_ok box_kernel.
Proof.
  split.
  - intros p tri [= <-]. apply Forall_cons. split; [|constructor].
    unfold triangle_ok, node_ok, NbNodes. simpl. lia.
  - intros shape c a faces [= <-]. exact faces_AB_nodes_ok.
Qed.

(** The theorem at the example session. *)
Lemma stored_indices_are_valid_witness :
  ∃ answers w m,
    api_run box_kernel demo_session initial_world = Some (answers, w) ∧
    mesh_store_get 2 (mesh_store w) = Some m ∧
    Forall (λ i, 0 ≤ i < (cg_mesh_vertex_count 2 w).1) (indices m).
Proof.
  eexists _, _, _. split; [vm_compute; reflexivity|]. split; [vm_compute; reflexivity|].
  eapply (stored_indices_are_valid box_kernel demo_session);
    [exact box_kernel_nodes_ok | vm_compute; reflexivity | simpl; lia
     | vm_compute; reflexivity].
Defined.

(** The theorem at the example session, for the shape and the mesh it
    loads. *)
Lemma handles_stay_valid_witness :
  ∃ answers w',
    api_run demo_kernel [call_cg_shape_tessellate 1 0.1 0.5; call_cg_mesh_free 2;
                         call_cg_shape_free 2] stl_step_world = Some (answers, w') ∧
    registry_get_shape 1 w' = Found demo_shape ∧
    mesh_store_get 1 (mesh_store w') = Some mesh_A.
Proof.
  destruct (api_run demo_kernel [call_cg_shape_tessellate 1 0.1 0.5; call_cg_mesh_free 2;
                                 call_cg_shape_free 2] stl_step_world)
    as [[answers w']|] eqn:Hrun; [|by vm_compute in Hrun].
  exists answers, w'. split; [done|].
  destruct (handles_stay_valid demo_kernel _ answers stl_step_world w' 1 Hrun) as [Hs Hm].
  split.
  - apply Hs; [reflexivity|]. repeat constructor; unfold frees_shape; intros H;
      decompose [or] H; discriminate.
  - apply Hm; [reflexivity|]. repeat constructor; discriminate.
Defined.

Lemma offline_kernel_loads_nothing : loads_nothing offline_kernel.
Proof.
  split.
  - intros path shape (p & n & _ & Hread & _). discriminate Hread.
  - intros path tri (p & _ & Hread). discriminate Hread.
Qed.

(** The theorem at calls the unit tests make. *)
Lemma stub_answers_as_library_without_files_witness :
  ∃ answers w, api_run offline_kernel stub_session initial_world = Some (answers, w) ∧
    Forall2 same_answer answers (Stub.run stub_session "").1 ∧
    (cg_last_error_message w = "" ↔ (Stub.run stub_session "").2 = "") ∧
    registry w = new_registry ∧ mesh_store w = new_mesh_store.
Proof.
  apply (stub_answers_as_library_without_files offline_kernel stub_session).
  exact offline_kernel_loads_nothing.
Defined.

